(** * Solar-term resolution (solarTerms.js): a shallow embedding

    The development follows [src/gc1/solarTerms.js]: first the program,
    then the vocabulary of the statements, then the facts.

    Modelling conventions.
    - A JS number is an IEEE 754 binary64 value: NaN, an infinity, -0, or
      a finite value, held as the rational it is.  An arithmetic
      operation computes the exact rational result and rounds it to the
      nearest double, ties to even ([Double.round64]); the remainder and
      [Math.floor] are exact.
    - Whole numbers that stay far below 2^53 (time values, the constants
      added to them) are integers, NaN being [None]: on them the double
      operations are exact.  For whole-millisecond values in the range
      of a Date the double expression [Math.floor(t / 60000) * 60000] is
      integer floor division (the quotient is below 2^38, so its
      rounding error is below 1/60000).
    - A JS [Date] is its time value: NaN ("Invalid Date") or a whole
      number of milliseconds within 8.64e15 of the epoch; [new Date(n)]
      makes an Invalid Date of anything outside that range.
    - The global [Astronomy] object is the oracle.  Its two functions are
      deterministic; a call returns a value or throws, and what the
      oracle throws propagates out of the resolver, which has no
      handler.  Every call is recorded, with its answer, in a trace, so
      that how often and in which order the oracle is consulted can be
      stated.  What [SunPosition] returns is an object whose [.elon] is
      a number or missing, or nothing an [.elon] could be read of.
    - [new Date()] (the wall clock) is an explicit argument. *)

From Stdlib Require Import ZArith QArith Qround Qabs Qreduction Qpower Lqa Lia.
From Stdlib Require Import List String Ascii Bool.
From Stdlib Require Import DecimalString DecimalPos DecimalZ.
Import ListNotations.

Local Open Scope Z_scope.

(* ================================================================== *)
(** * Part I: the program *)

(* ------------------------------------------------------------------ *)
(** ** Numbers *)

(** A JS number.  [Fin 0] is +0; a finite value other than the zeros is
    [Fin q] with [q] the rational it stands for. *)
Inductive Number : Type :=
| NaN
| Infinity (negative : bool)
| NegZero
| Fin (q : Q).

Module Double.

Definition pow2 (e : Z) : Q := (2 ^ e)%Q.

(** The binary exponent of a positive rational: floor(log2 q). *)
Definition ilog2 (q : Q) : Z :=
  let k := Z.log2 (Qnum q) - Z.log2 (Zpos (Qden q)) in
  if Qle_bool (pow2 k) q then k else k - 1.

(** The nearest whole number, ties to the even one. *)
Definition rne (y : Q) : Z :=
  let f := Qfloor y in
  match (y - inject_Z f ?= 1 # 2)%Q with
  | Lt => f
  | Gt => f + 1
  | Eq => if Z.even f then f else f + 1
  end.

(** The exponent of the last place of the doubles around [q]: 53
    significant bits, none below 2^-1074. *)
Definition exponent (q : Q) : Z := Z.max (ilog2 q - 52) (-1074).

(** A positive rational rounded to that last place. *)
Definition roundPos (q : Q) : Q :=
  (inject_Z (rne (q / pow2 (exponent q))) * pow2 (exponent q))%Q.

(** The double nearest to a rational, ties to even; an infinity from
    2^1024 on, a zero of the sign of [q] below the smallest double. *)
Definition round64 (q : Q) : Number :=
  match (q ?= 0)%Q with
  | Eq => Fin 0
  | Gt => let v := roundPos q in
          if Qle_bool (pow2 1024) v then Infinity false else Fin (Qred v)
  | Lt => let v := roundPos (- q) in
          if Qle_bool (pow2 1024) v then Infinity true
          else if Qeq_bool v 0 then NegZero else Fin (Qred (- v))
  end.

(** Truncation toward zero of a rational. *)
Definition Qtrunc (x : Q) : Z := Z.quot (Qnum x) (Zpos (Qden x)).

(** The remainder of the division truncated toward zero. *)
Definition Qrem (a n : Q) : Q := (a - inject_Z (Qtrunc (a / n)) * n)%Q.

Definition isZero (x : Number) : bool :=
  match x with
  | NegZero => true
  | Fin q => Qeq_bool q 0
  | _ => false
  end.

Definition signBit (x : Number) : bool :=
  match x with
  | NaN => false
  | Infinity s => s
  | NegZero => true
  | Fin q => negb (Qle_bool 0 q)
  end.

Definition zero (negative : bool) : Number := if negative then NegZero else Fin 0.

(** The rational a finite number stands for. *)
Definition value (x : Number) : Q :=
  match x with
  | Fin q => q
  | _ => 0
  end.

(** [- x] *)
Definition neg (x : Number) : Number :=
  match x with
  | NaN => NaN
  | Infinity s => Infinity (negb s)
  | NegZero => Fin 0
  | Fin q => if Qeq_bool q 0 then NegZero else Fin (- q)
  end.

(** [x + y]: an exact zero sum is -0 only when both summands are. *)
Definition add (x y : Number) : Number :=
  match x, y with
  | NaN, _ | _, NaN => NaN
  | Infinity s, Infinity s' => if Bool.eqb s s' then Infinity s else NaN
  | Infinity s, _ | _, Infinity s => Infinity s
  | _, _ =>
      let s := (value x + value y)%Q in
      if Qeq_bool s 0 then zero (signBit x && signBit y) else round64 s
  end.

(** [x - y] *)
Definition sub (x y : Number) : Number := add x (neg y).

(** [x / y] *)
Definition div (x y : Number) : Number :=
  match x, y with
  | NaN, _ | _, NaN => NaN
  | Infinity _, Infinity _ => NaN
  | Infinity s, _ => Infinity (xorb s (signBit y))
  | _, Infinity s => zero (xorb (signBit x) s)
  | _, _ =>
      if isZero y then
        if isZero x then NaN else Infinity (xorb (signBit x) (signBit y))
      else if isZero x then zero (xorb (signBit x) (signBit y))
      else round64 (value x / value y)
  end.

(** [x % y]: the remainder of the truncated division, exact, with the
    sign of the dividend. *)
Definition rem (x y : Number) : Number :=
  match x, y with
  | NaN, _ | _, NaN => NaN
  | Infinity _, _ => NaN
  | _, Infinity _ => x
  | _, _ =>
      if isZero y then NaN
      else if isZero x then x
      else let r := Qrem (value x) (value y) in
           if Qeq_bool r 0 then zero (signBit x) else Fin (Qred r)
  end.

(** [Math.floor(x)] *)
Definition floor (x : Number) : Number :=
  match x with
  | Fin q => Fin (inject_Z (Qfloor q))
  | _ => x
  end.

(** [x < y] *)
Definition lt (x y : Number) : bool :=
  match x, y with
  | NaN, _ | _, NaN => false
  | Infinity s, Infinity s' => s && negb s'
  | Infinity s, _ => s
  | _, Infinity s => negb s
  | _, _ => negb (Qle_bool (value y) (value x))
  end.

End Double.

(** A property that holds a number or is missing, read as a number:
    [undefined] becomes NaN. *)
Definition toNumber (v : option Number) : Number :=
  match v with
  | Some x => x
  | None => NaN
  end.

(** [function norm360(deg) { const x = deg % 360; return x < 0 ? x + 360 : x; }] *)
Definition norm360 (deg : Number) : Number :=
  let x := Double.rem deg (Fin 360) in
  if Double.lt x (Fin 0) then Double.add x (Fin 360) else x.

(** [function termIndexFromElon(elonDeg)
       { const x = norm360(elonDeg - 315); return Math.floor(x / 15); }] *)
Definition termIndexFromElon (elonDeg : Number) : Number :=
  let x := norm360 (Double.sub elonDeg (Fin 315)) in
  Double.floor (Double.div x (Fin 15)).

(* ------------------------------------------------------------------ *)
(** ** Dates and the term table *)

(** A [Date] object by its time value: invalid (NaN) or a whole number
    of ms.  A time value is within 8.64e15 ms of the epoch; [DateAt ms]
    outside that range is no Date of the language and reads as an
    invalid one. *)
Inductive Date : Type :=
| InvalidDate
| DateAt (ms : Z).

Definition inTimeRange (ms : Z) : bool := Z.abs ms <=? 8640000000000000.

(** [date.getTime()]: [None] stands for NaN. *)
Definition getTime (d : Date) : option Z :=
  match d with
  | InvalidDate => None
  | DateAt ms => if inTimeRange ms then Some ms else None
  end.

(** [new Date(n)] for a number [n] that is NaN or a whole number: an
    Invalid Date when [n] is outside the range of time values. *)
Definition newDate (n : option Z) : Date :=
  match n with
  | None => InvalidDate
  | Some ms => if inTimeRange ms then DateAt ms else InvalidDate
  end.

(** [Number.isNaN(n)]. *)
Definition isNaN (n : option Z) : bool :=
  match n with
  | None => true
  | Some _ => false
  end.

(** [n - k] with NaN absorbing. *)
Definition numSub (n : option Z) (k : Z) : option Z :=
  match n with
  | None => None
  | Some a => Some (a - k)
  end.

(** [a > b] on numbers: false as soon as one side is NaN. *)
Definition numGt (a b : option Z) : bool :=
  match a, b with
  | Some x, Some y => y <? x
  | _, _ => false
  end.

Definition MS_PER_MIN : Z := 60 * 1000.
Definition MS_PER_DAY : Z := 24 * 60 * 60 * 1000.

(** [new Date(Math.floor(date.getTime() / MS_PER_MIN) * MS_PER_MIN)] *)
Definition floorToMinute (date : Date) : Date :=
  newDate (match getTime date with
           | None => None
           | Some t => Some (t / MS_PER_MIN * MS_PER_MIN)
           end).

Record SolarTerm : Type := mkTerm { name : string; lon : Number }.

Definition SOLAR_TERMS : list SolarTerm :=
  [ mkTerm "立春" (Fin 315); mkTerm "雨水" (Fin 330); mkTerm "惊蛰" (Fin 345);
    mkTerm "春分" (Fin 0);   mkTerm "清明" (Fin 15);  mkTerm "谷雨" (Fin 30);
    mkTerm "立夏" (Fin 45);  mkTerm "小满" (Fin 60);  mkTerm "芒种" (Fin 75);
    mkTerm "夏至" (Fin 90);  mkTerm "小暑" (Fin 105); mkTerm "大暑" (Fin 120);
    mkTerm "立秋" (Fin 135); mkTerm "处暑" (Fin 150); mkTerm "白露" (Fin 165);
    mkTerm "秋分" (Fin 180); mkTerm "寒露" (Fin 195); mkTerm "霜降" (Fin 210);
    mkTerm "立冬" (Fin 225); mkTerm "小雪" (Fin 240); mkTerm "大雪" (Fin 255);
    mkTerm "冬至" (Fin 270); mkTerm "小寒" (Fin 285); mkTerm "大寒" (Fin 300) ].

(** The array index a number is as a property key: a whole number from
    0 on, -0 being 0. *)
Definition arrayIndex (x : Number) : option nat :=
  match x with
  | NegZero => Some 0%nat
  | Fin q =>
      if Qeq_bool q (inject_Z (Qfloor q)) && (0 <=? Qfloor q)
      then Some (Z.to_nat (Qfloor q)) else None
  | _ => None
  end.

(** [SOLAR_TERMS[idx]]: [None] is [undefined]. *)
Definition termAt (idx : Number) : option SolarTerm :=
  match arrayIndex idx with
  | Some n => nth_error SOLAR_TERMS n
  | None => None
  end.

(** The objects of the result. *)
Module Current.
Record t : Type :=
  mk { name : string; lon : Number; startTime : Date; endTime : Date }.
End Current.

Module Adjacent.
Record t : Type := mk { name : string; lon : Number; startTime : Date }.
End Adjacent.

Module Meta.
Record t : Type := mk { sunEclipticLongitude : Number; computedAt : Date }.
End Meta.

Record SolarTermInfo : Type := mkInfo {
  current : Current.t;
  previous : Adjacent.t;
  next : Adjacent.t;
  meta : Meta.t
}.

(** The exceptions [getSolarTermInfo] can throw. *)
Inductive Error : Type :=
| MissingAstronomy            (* "missing global Astronomy" *)
| AstronomyFunctionsNotFound  (* "SunPosition / SearchSunLongitude not found" *)
| InvalidInputDate            (* "invalid inputDate" *)
| FindFailed (targetLon : Number) (* "failed to find Sun longitude event for lon=..." *)
| TypeError                   (* a property read of [undefined] or [null] *)
| OracleError.                (* what a function of [Astronomy] threw *)

(* ------------------------------------------------------------------ *)
(** ** The oracle, its trace, and the resolver *)

Section Resolver.

(** Values that are neither nothing nor a [Date] nor an object holding
    one (numbers, strings, other objects): whether such a value is
    truthy, and what [new Date(v)] makes of it. *)
Context {Raw : Type} (truthy : Raw -> bool) (DateOf : Raw -> Date).

(** What [Astronomy.SearchSunLongitude] may hand back, as far as
    [toDateFromAstroTime] tells values apart. *)
Inductive AstroValue : Type :=
| Falsy                       (* null, undefined *)
| ADate (d : Date)            (* a Date *)
| AstroTime (date : Date)     (* an object whose [.date] is a Date *)
| Other (v : Raw).            (* anything else *)

(** What [Astronomy.SunPosition] may hand back: nothing a property could
    be read of, or an object, whose [.elon] is a number or missing. *)
Inductive SunAnswer : Type :=
| NoObject                        (* null, undefined *)
| SunObject (elon : option Number).

(** The two functions of the oracle; [None] stands for a call that
    throws. *)
Record Oracle : Type := mkOracle {
  SunPosition : Date -> option SunAnswer;
  SearchSunLongitude : Number -> Date -> Z -> option AstroValue
}.

(** The global [Astronomy]: absent, or an object whose two properties are
    functions or not. *)
Inductive AstronomyGlobal : Type :=
| Undefined
| AstronomyObject (sunPosition : option (Date -> option SunAnswer))
                  (searchSunLongitude
                   : option (Number -> Date -> Z -> option AstroValue)).

(** One oracle call with its answer, [None] when it threw. *)
Inductive OracleCall : Type :=
| CallSunPosition (date : Date) (answer : option SunAnswer)
| CallSearch (targetLon : Number) (start : Date) (limitDays : Z)
             (answer : option AstroValue).

(** A computation: the oracle calls made, then an exception or a value. *)
Definition M (A : Type) : Type := (list OracleCall * (Error + A))%type.

Definition ret {A} (a : A) : M A := ([], inr a).
Definition throw {A} (e : Error) : M A := ([], inl e).
Definition bind {A B} (m : M A) (f : A -> M B) : M B :=
  match m with
  | (tr, inl e) => (tr, inl e)
  | (tr, inr a) => let (tr', r) := f a in (tr ++ tr', r)
  end.

Notation "x <- c1 ;; c2" := (bind c1 (fun x => c2))
  (at level 61, c1 at next level, right associativity).

Definition trace {A} (m : M A) : list OracleCall := fst m.
Definition outcome {A} (m : M A) : Error + A := snd m.

(** A call of the oracle: recorded, then its value or its exception. *)
Definition called {A} (c : OracleCall) (answer : option A) : M A :=
  ([c], match answer with
        | Some v => inr v
        | None => inl OracleError
        end).

Definition callSunPosition (o : Oracle) (date : Date) : M SunAnswer :=
  let a := SunPosition o date in called (CallSunPosition date a) a.

Definition callSearch (o : Oracle) (targetLon : Number) (start : Date) (limitDays : Z)
  : M AstroValue :=
  let t := SearchSunLongitude o targetLon start limitDays in
  called (CallSearch targetLon start limitDays t) t.

(** [assertAstronomy]: on success the two functions are at hand. *)
Definition assertAstronomy (g : AstronomyGlobal) : M Oracle :=
  match g with
  | Undefined => throw MissingAstronomy
  | AstronomyObject (Some sp) (Some ssl) => ret (mkOracle sp ssl)
  | AstronomyObject _ _ => throw AstronomyFunctionsNotFound
  end.

(** [toDateFromAstroTime]: [None] is [null]. *)
Definition toDateFromAstroTime (t : AstroValue) : option Date :=
  match t with
  | Falsy => None
  | ADate d => Some d
  | AstroTime d => Some d
  | Other v => if truthy v then Some (DateOf v) else None
  end.

(** [!d || Number.isNaN(d.getTime())] *)
Definition noValidDate (d : option Date) : bool :=
  match d with
  | None => true
  | Some d' => isNaN (getTime d')
  end.

Definition findSunLongitudeEvent (o : Oracle) (targetLon : Number) (centerDate : Date)
  : M Date :=
  let start := newDate (numSub (getTime centerDate) (40 * MS_PER_DAY)) in
  let limitDays := 80 in
  t <- callSearch o (norm360 targetLon) start limitDays ;;
  let d := toDateFromAstroTime t in
  d <- (if noValidDate d then
          let start2 := newDate (numSub (getTime centerDate) (200 * MS_PER_DAY)) in
          let limitDays2 := 400 in
          t2 <- callSearch o (norm360 targetLon) start2 limitDays2 ;;
          ret (toDateFromAstroTime t2)
        else ret d) ;;
  match d with
  | Some d' => if isNaN (getTime d') then throw (FindFailed targetLon) else ret d'
  | None => throw (FindFailed targetLon)
  end.

(** [.elon] of the answer of [SunPosition]. *)
Definition readElon (a : SunAnswer) : M (option Number) :=
  match a with
  | NoObject => throw TypeError
  | SunObject elon => ret elon
  end.

(** [SOLAR_TERMS[idx]] followed by a property read. *)
Definition term (idx : Number) : M SolarTerm :=
  match termAt idx with
  | Some tm => ret tm
  | None => throw TypeError
  end.

(** The argument of [getSolarTermInfo]: a Date, or something to coerce. *)
Inductive Input : Type :=
| InputDate (d : Date)
| InputOther (v : Raw).

(** [inputDate instanceof Date ? inputDate : new Date(inputDate)] *)
Definition coerce (inputDate : Input) : Date :=
  match inputDate with
  | InputDate d => d
  | InputOther v => DateOf v
  end.

(** [getSolarTermInfo(inputDate)]; [now] is what [new Date()] reads. *)
Definition getSolarTermInfo (g : AstronomyGlobal) (now : Date) (inputDate : Input)
  : M SolarTermInfo :=
  o <- assertAstronomy g ;;
  let date := coerce inputDate in
  if isNaN (getTime date) then throw InvalidInputDate else
  answer <- callSunPosition o date ;;
  elon0 <- readElon answer ;;
  let elon := norm360 (toNumber elon0) in
  let idx := termIndexFromElon elon in
  tm0 <- term idx ;;
  currentStart0 <- findSunLongitudeEvent o (lon tm0) date ;;
  ic <- (if numGt (getTime currentStart0) (getTime date) then
           let idx' := Double.rem (Double.add idx (Fin 23)) (Fin 24) in
           tm' <- term idx' ;;
           currentStart' <- findSunLongitudeEvent o (lon tm') date ;;
           ret (idx', currentStart')
         else ret (idx, currentStart0)) ;;
  let idx := fst ic in
  let currentStart := snd ic in
  let prevIdx := Double.rem (Double.add idx (Fin 23)) (Fin 24) in
  let nextIdx := Double.rem (Double.add idx (Fin 1)) (Fin 24) in
  tmPrev <- term prevIdx ;;
  prevStart <- findSunLongitudeEvent o (lon tmPrev) date ;;
  tmNext <- term nextIdx ;;
  nextStart <- findSunLongitudeEvent o (lon tmNext) date ;;
  tmCur <- term idx ;;
  ret (mkInfo
         (Current.mk (name tmCur) (lon tmCur)
                     (floorToMinute currentStart) (floorToMinute nextStart))
         (Adjacent.mk (name tmPrev) (lon tmPrev) (floorToMinute prevStart))
         (Adjacent.mk (name tmNext) (lon tmNext) (floorToMinute nextStart))
         (Meta.mk elon now)).

End Resolver.

Arguments Falsy {Raw}.
Arguments ADate {Raw} d.
Arguments AstroTime {Raw} date.
Arguments Undefined {Raw}.

Local Open Scope string_scope.

(* ------------------------------------------------------------------ *)
(** ** Formatting: formatLocalMinute *)

(** The decimal digits of a whole number, with a leading minus sign. *)
Definition decimal (z : Z) : string := NilZero.string_of_int (Z.to_int z).

(** Whether the whole number [c] rounds to the double [X]. *)
Definition roundsTo (c X : Z) : bool :=
  match Double.round64 (inject_Z c) with
  | Fin q => Qeq_bool q (inject_Z X)
  | _ => false
  end.

(** The whole number of fewest significant digits that rounds to the
    double [X], a whole number of [N] digits; of two candidates with the
    same number of digits the one nearer to [X].  [k] is the number of
    significant digits tried, from 1 on; 17 always suffice. *)
Fixpoint shortest (X : Z) (N k fuel : nat) : Z :=
  match fuel with
  | O => X
  | S fuel' =>
      let p := (10 ^ Z.of_nat (N - k))%Z in
      let lo := (X / p * p)%Z in
      let hi := (lo + p)%Z in
      match roundsTo lo X, roundsTo hi X with
      | true, true =>
          if (X - lo <? hi - X)%Z then lo
          else if (hi - X <? X - lo)%Z then hi
          else if Z.even (X / p) then lo else hi
      | true, false => lo
      | false, true => hi
      | false, false => shortest X N (S k) fuel'
      end
  end.

Fixpoint dropZeros (rev : list ascii) : list ascii :=
  match rev with
  | "0"%char :: rest => dropZeros rest
  | _ => rev
  end.

(** The digits of a whole number without the zeros at their end. *)
Definition significant (digits : string) : string :=
  string_of_list_ascii (List.rev (dropZeros (List.rev (list_ascii_of_string digits)))).

(** [String(x)] for a positive whole double [X] above 2^53: the digits
    of the shortest whole number that rounds to it, in exponent notation
    from 1e21 on. *)
Definition bigToString (X : Z) : string :=
  let c := shortest X (String.length (decimal X)) 1 17 in
  let digits := decimal c in
  if (c <? 10 ^ 21)%Z then digits
  else
    let e := decimal (Z.of_nat (String.length digits) - 1)%Z in
    match significant digits with
    | String d "" => String d "" ++ "e+" ++ e
    | String d rest => String d "" ++ "." ++ rest ++ "e+" ++ e
    | "" => digits
    end.

(** [String(n)] and template interpolation of a number that is NaN or a
    whole number.  Up to 2^53 a whole number prints as its decimal
    digits; beyond, it is first of all the double nearest to it. *)
Definition numberToString (n : option Z) : string :=
  match n with
  | None => "NaN"
  | Some z =>
      if (Z.abs z <=? 2 ^ 53)%Z then decimal z
      else
        (if (z <? 0)%Z then "-" else "")
        ++ match Double.round64 (inject_Z (Z.abs z)) with
           | Fin q => bigToString (Qfloor q)
           | _ => "Infinity"
           end
  end.

(** [n + k] with NaN absorbing. *)
Definition numAdd (n : option Z) (k : Z) : option Z :=
  match n with
  | None => None
  | Some a => Some (a + k)%Z
  end.

Fixpoint repeatString (fill : string) (n : nat) : string :=
  match n with
  | O => ""
  | S k => fill ++ repeatString fill k
  end.

(** [s.padStart(maxLength, fillString)]: [s] when it is long enough or
    the filler is empty, else the filler repeated and cut to the missing
    length, then [s]. *)
Definition padStart (s : string) (maxLength : nat) (fillString : string) : string :=
  if (maxLength <=? String.length s)%nat then s
  else if (String.length fillString =? 0)%nat then s
  else
    let fillLen := (maxLength - String.length s)%nat in
    substring 0 fillLen (repeatString fillString fillLen) ++ s.

(** [(n) => String(n).padStart(2, "0")] *)
Definition pad (n : option Z) : string := padStart (numberToString n) 2 "0".

Section Formatting.

Context {Raw : Type} (DateOf : Raw -> Date).

(** The host's calendar and time zone, as ECMA-262 has them: the year,
    the month (0..11) and the day of the month of a day number, and the
    offset of local time at an instant, in ms. *)
Variables (YearFromDay MonthFromDay DateFromDay : Z -> Z) (LocalTZA : Z -> Z).

Definition msPerHour : Z := 3600000.
Definition msPerDay : Z := 86400000.

Definition Day (t : Z) : Z := (t / msPerDay)%Z.
Definition HourFromTime (t : Z) : Z := ((t / msPerHour) mod 24)%Z.
Definition MinFromTime (t : Z) : Z := ((t / MS_PER_MIN) mod 60)%Z.
Definition LocalTime (t : Z) : Z := (t + LocalTZA t)%Z.

(** The local-time getters of a Date; NaN on an invalid one. *)
Definition getFullYear (d : Date) : option Z :=
  option_map (fun t => YearFromDay (Day (LocalTime t))) (getTime d).
Definition getMonth (d : Date) : option Z :=
  option_map (fun t => MonthFromDay (Day (LocalTime t))) (getTime d).
Definition getDate (d : Date) : option Z :=
  option_map (fun t => DateFromDay (Day (LocalTime t))) (getTime d).
Definition getHours (d : Date) : option Z :=
  option_map (fun t => HourFromTime (LocalTime t)) (getTime d).
Definition getMinutes (d : Date) : option Z :=
  option_map (fun t => MinFromTime (LocalTime t)) (getTime d).

(** [formatLocalMinute(date)]: YYYY-MM-DD HH:mm in local time. *)
Definition formatLocalMinute (date : @Input Raw) : string :=
  let d := coerce DateOf date in
  numberToString (getFullYear d) ++ "-" ++ pad (numAdd (getMonth d) 1) ++ "-"
  ++ pad (getDate d) ++ " " ++ pad (getHours d) ++ ":" ++ pad (getMinutes d).

End Formatting.

Local Close Scope string_scope.

(* ================================================================== *)
(** * Part II: the vocabulary of the statements *)

(* ------------------------------------------------------------------ *)
(** ** The longitude mapping as the spec words it *)

(** normalizeDegrees: [x mod 360], the mathematical modulus (floored
    division), on real numbers. *)
Definition normalizeDegrees_spec (x : Q) : Q :=
  (x - inject_Z (Qfloor (x / 360)) * 360)%Q.

(** termIndexFromLongitude: normalise [elon - 315], divide by 15, floor. *)
Definition termIndexFromLongitude_spec (elon : Q) : Z :=
  Qfloor (normalizeDegrees_spec (elon - 315) / 15).

(* ------------------------------------------------------------------ *)
(** ** Doubles *)

(** A rational that 53 significant bits hold, at an exponent that is
    not below the smallest one. *)
Definition representable (c : Q) : Prop :=
  exists z e, (c == inject_Z z * Double.pow2 e)%Q /\ Z.abs z < 2 ^ 53 /\ -1074 <= e.

(** A number that is neither NaN nor an infinity. *)
Definition finite (x : Number) : bool :=
  match x with
  | NegZero | Fin _ => true
  | _ => false
  end.

(** A number of the language: its finite value is a double. *)
Definition isDouble (x : Number) : Prop :=
  match x with
  | Fin q => representable q /\ (Qabs q < Double.pow2 1024)%Q
  | _ => True
  end.

(** The number is the whole number [i]; -0 is 0. *)
Definition isWhole (x : Number) (i : Z) : Prop :=
  x = Fin (inject_Z i) \/ (i = 0 /\ x = NegZero).

(** The number lies between two rationals, the bounds included. *)
Definition between (lo hi : Q) (x : Number) : Prop :=
  match x with
  | NegZero => (lo <= 0 /\ 0 <= hi)%Q
  | Fin q => (lo <= q /\ q <= hi)%Q
  | _ => False
  end.

(** The same number, as [===] has it on numbers that are not NaN, and
    with the two zeros told apart. *)
Definition sameNumber (a b : Number) : bool :=
  match a, b with
  | NaN, NaN => true
  | Infinity s, Infinity s' => Bool.eqb s s'
  | NegZero, NegZero => true
  | Fin p, Fin q => Qeq_bool p q
  | _, _ => false
  end.

(** The same value in the same representation. *)
Definition identical (a b : Number) : bool :=
  match a, b with
  | NaN, NaN => true
  | Infinity s, Infinity s' => Bool.eqb s s'
  | NegZero, NegZero => true
  | Fin p, Fin q => (Qnum p =? Qnum q) && Pos.eqb (Qden p) (Qden q)
  | _, _ => false
  end.

(** The doubles written -1e-20 and 14.999999999999998. *)
Definition tinyNegative : Number :=
  Eval vm_compute in Double.round64 (- (1 # 100000000000000000000)).

Definition justBelow15 : Number :=
  Eval vm_compute in Double.round64 (14999999999999998 # 1000000000000000).

(* ------------------------------------------------------------------ *)
(** ** The table inside its bounds *)

(** The table entry at an index inside 0..23. *)
Definition termOf (idx : Z) : SolarTerm :=
  nth (Z.to_nat idx) SOLAR_TERMS (mkTerm "" (Fin 0)).

(** A whole number as a number. *)
Definition indexNumber (i : Z) : Number := Fin (inject_Z i).

(** The table index a number denotes, when [SOLAR_TERMS] has an entry
    under it. *)
Definition tableIndex (x : Number) : option Z :=
  match arrayIndex x with
  | Some n => if (n <? 24)%nat then Some (Z.of_nat n) else None
  | None => None
  end.

(** The two index steps of the resolver, on numbers. *)
Definition stepBack (idx : Number) : Number :=
  Double.rem (Double.add idx (Fin 23)) (Fin 24).
Definition stepForward (idx : Number) : Number :=
  Double.rem (Double.add idx (Fin 1)) (Fin 24).

(** [(idx + 23) % 24] and [(idx + 1) % 24], and the longitude of an entry. *)
Abbreviation prevIdx idx := (Z.rem (idx + 23) 24).
Abbreviation nextIdx idx := (Z.rem (idx + 1) 24).
Abbreviation lonOf idx := (lon (termOf idx)).

(* ------------------------------------------------------------------ *)
(** ** Boundary searches and resolutions as functions of the oracle *)

Section Vocabulary.

Context {Raw : Type} (truthy : Raw -> bool) (DateOf : Raw -> Date).

(** The primary and the fallback oracle call of a boundary search
    centred on the instant [center]. *)
Definition primaryCall (o : @Oracle Raw) (targetLon : Number) (center : Z)
  : @OracleCall Raw :=
  let start := newDate (Some (center - 40 * MS_PER_DAY)) in
  CallSearch (norm360 targetLon) start 80
             (SearchSunLongitude o (norm360 targetLon) start 80).

Definition fallbackCall (o : @Oracle Raw) (targetLon : Number) (center : Z)
  : @OracleCall Raw :=
  let start := newDate (Some (center - 200 * MS_PER_DAY)) in
  CallSearch (norm360 targetLon) start 400
             (SearchSunLongitude o (norm360 targetLon) start 400).

(** The instant an answer of [SearchSunLongitude] amounts to for the
    resolver: what [toDateFromAstroTime] makes of it, unless that is
    [null] or an invalid Date. *)
Definition instantOf (a : @AstroValue Raw) : option Z :=
  match toDateFromAstroTime truthy DateOf a with
  | Some d => getTime d
  | None => None
  end.

(** The instant an oracle call produced, if it returned a valid one. *)
Definition validAnswer (c : @OracleCall Raw) : option Z :=
  match c with
  | CallSearch _ _ _ (Some a) => instantOf a
  | _ => None
  end.

(** Whether an oracle call threw. *)
Definition threw (c : @OracleCall Raw) : bool :=
  match c with
  | CallSunPosition _ None | CallSearch _ _ _ None => true
  | _ => false
  end.

(** The instant a boundary search returns: the primary answer when valid,
    else the fallback answer when valid; none when a call throws. *)
Definition boundary (o : @Oracle Raw) (targetLon : Number) (center : Z) : option Z :=
  match validAnswer (primaryCall o targetLon center) with
  | Some b => Some b
  | None =>
      if threw (primaryCall o targetLon center) then None
      else validAnswer (fallbackCall o targetLon center)
  end.

(** The oracle calls a boundary search makes. *)
Definition searchCalls (o : @Oracle Raw) (targetLon : Number) (center : Z)
  : list (@OracleCall Raw) :=
  match validAnswer (primaryCall o targetLon center) with
  | Some _ => [primaryCall o targetLon center]
  | None =>
      if threw (primaryCall o targetLon center) then [primaryCall o targetLon center]
      else [primaryCall o targetLon center; fallbackCall o targetLon center]
  end.

(** The exception of a boundary search that returns no instant: what the
    oracle threw, or the error that names the longitude. *)
Definition failure (o : @Oracle Raw) (targetLon : Number) (center : Z) : Error :=
  if threw (primaryCall o targetLon center) then OracleError
  else if threw (fallbackCall o targetLon center) then OracleError
  else FindFailed targetLon.

(** The boundary search for [targetLon] centred on [t] returns [b]. *)
Definition yields (o : @Oracle Raw) (targetLon : Number) (t b : Z) : Prop :=
  outcome (findSunLongitudeEvent truthy DateOf o targetLon (DateAt t)) = inr (DateAt b).

(** The longitude read at [t], normalised (NaN when there is no object
    to read it of), and the table index it maps to, if any. *)
Definition elonAt (o : @Oracle Raw) (t : Z) : Number :=
  match SunPosition o (DateAt t) with
  | Some (SunObject elon) => norm360 (toNumber elon)
  | _ => NaN
  end.

(** The exception of a longitude read that maps to no table index. *)
Definition readError (o : @Oracle Raw) (t : Z) : Error :=
  match SunPosition o (DateAt t) with
  | None => OracleError
  | Some _ => TypeError
  end.

Definition firstIdx (o : @Oracle Raw) (t : Z) : option Z :=
  tableIndex (termIndexFromElon (elonAt o t)).

(** Whether the self-correction fires, the longitude-derived index being
    [i0]: the first boundary search succeeded and its instant is
    strictly after [t]. *)
Definition corrected (o : @Oracle Raw) (t i0 : Z) : bool :=
  match boundary o (lonOf i0) t with
  | Some s0 => t <? s0
  | None => false
  end.

(** The index of the current term once the correction is applied. *)
Definition currentIdx (o : @Oracle Raw) (t i0 : Z) : Z :=
  if corrected o t i0 then prevIdx i0 else i0.

(** The term indices whose boundaries are searched, in order. *)
Definition plan (o : @Oracle Raw) (t i0 : Z) : list Z :=
  i0
  :: (if corrected o t i0 then [prevIdx i0] else [])
  ++ [prevIdx (currentIdx o t i0); nextIdx (currentIdx o t i0)].

(** Oracle calls of a run of boundary searches that stops at the first
    failing one. *)
Fixpoint searches (o : @Oracle Raw) (t : Z) (idxs : list Z)
  : list (@OracleCall Raw) :=
  match idxs with
  | [] => []
  | i :: rest =>
      searchCalls o (lonOf i) t
      ++ match boundary o (lonOf i) t with
         | Some _ => searches o t rest
         | None => []
         end
  end.

(** The exception of the first failing search, if any. *)
Fixpoint firstFailure (o : @Oracle Raw) (t : Z) (idxs : list Z) : option Error :=
  match idxs with
  | [] => None
  | i :: rest =>
      match boundary o (lonOf i) t with
      | Some _ => firstFailure o t rest
      | None => Some (failure o (lonOf i) t)
      end
  end.

(** The result object, from the boundaries found. *)
Definition assemble (o : @Oracle Raw) (now : Date) (t i0 : Z) : SolarTermInfo :=
  let idx := currentIdx o t i0 in
  let startOf i := floorToMinute (newDate (boundary o (lonOf i) t)) in
  mkInfo
    (Current.mk (name (termOf idx)) (lonOf idx) (startOf idx) (startOf (nextIdx idx)))
    (Adjacent.mk (name (termOf (prevIdx idx))) (lonOf (prevIdx idx))
                 (startOf (prevIdx idx)))
    (Adjacent.mk (name (termOf (nextIdx idx))) (lonOf (nextIdx idx))
                 (startOf (nextIdx idx)))
    (Meta.mk (elonAt o t) now).

(** What a resolution of the valid instant [t] amounts to. *)
Definition resolution (o : @Oracle Raw) (now : Date) (t : Z)
  : @M Raw SolarTermInfo :=
  match firstIdx o t with
  | None =>
      ([CallSunPosition (DateAt t) (SunPosition o (DateAt t))], inl (readError o t))
  | Some i0 =>
      (CallSunPosition (DateAt t) (SunPosition o (DateAt t))
         :: searches o t (plan o t i0),
       match firstFailure o t (plan o t i0) with
       | Some e => inl e
       | None => inr (assemble o now t i0)
       end)
  end.

(** Whether an oracle call is a search. *)
Definition isSearch (c : @OracleCall Raw) : bool :=
  match c with CallSunPosition _ _ => false | CallSearch _ _ _ _ => true end.

(** A search function that never finds anything. *)
Definition notFound : Number -> Date -> Z -> option (@AstroValue Raw) :=
  fun _ _ _ => Some Falsy.

(** The oracle returns correct boundary instants around [t]: [t] lies in
    term [k], which began at [bCur] and ends at [bNext], the term before
    began at [bPrev]; consecutive boundaries are apart (true ones by
    about 15 days; one minute is all that is used); the boundary
    searches centred on [t] return these instants. *)
Record BoundariesCorrectAt (o : @Oracle Raw) (t k bPrev bCur bNext : Z) : Prop := {
  term_in_table : 0 <= k <= 23;
  instant_in_term : bCur <= t < bNext;
  terms_apart : MS_PER_MIN <= bCur - bPrev /\ MS_PER_MIN <= bNext - bCur;
  search_current : yields o (lonOf k) t bCur;
  search_previous : yields o (lonOf (prevIdx k)) t bPrev;
  search_next : yields o (lonOf (nextIdx k)) t bNext
}.

End Vocabulary.

(* ------------------------------------------------------------------ *)
(** ** Properties of results *)

(** [date.getUTCSeconds()] and [date.getUTCMilliseconds()]. *)
Definition getUTCSeconds (d : Date) : option Z :=
  option_map (fun ms => (ms / 1000) mod 60) (getTime d).

Definition getUTCMilliseconds (d : Date) : option Z :=
  option_map (fun ms => ms mod 1000) (getTime d).

(** A valid Date with zero seconds and zero sub-second part. *)
Definition wholeMinute (d : Date) : Prop :=
  getUTCSeconds d = Some 0 /\ getUTCMilliseconds d = Some 0.

(** Two results that agree on everything but the clock reading. *)
Definition sameButClock (r1 r2 : SolarTermInfo) : Prop :=
  current r1 = current r2 /\ previous r1 = previous r2 /\ next r1 = next r2
  /\ Meta.sunEclipticLongitude (meta r1) = Meta.sunEclipticLongitude (meta r2).

(** The window of a [current] object contains [t], half-open at the end. *)
Definition containsInstant (c : Current.t) (t : Z) : Prop :=
  match getTime (Current.startTime c), getTime (Current.endTime c) with
  | Some s, Some e => s <= t < e
  | _, _ => False
  end.

(** The first and the last time value a Date can hold. *)
Definition firstInstant : Z := -8640000000000000.
Definition lastInstant : Z := 8640000000000000.

(* ------------------------------------------------------------------ *)
(** ** Vocabulary of the proofs about doubles *)

(** A multiple of 2^-44: what a double of magnitude 256 or more is. *)
Definition onGrid44 (q : Q) : Prop :=
  exists z : Z, (q * 17592186044416 == inject_Z z)%Q.

(** The last double below 360, and the last one below 24. *)
Definition below360 : Q := 6333186975989759 # 17592186044416.  (* 360 - 2^-44 *)
Definition below24 : Q := 6755399441055743 # 281474976710656.  (* 24 - 2^-48 *)

(* ------------------------------------------------------------------ *)
(** ** Concrete oracles *)

Module Examples.

(** Raw values are numbers: the falsy ones are the zeros and NaN, and
    [new Date(x)] clips [x] to a time value. *)
Definition numberTruthy (x : Number) : bool :=
  match x with
  | NaN => false
  | _ => negb (Double.isZero x)
  end.

Definition numberToDate (x : Number) : Date :=
  match x with
  | Fin q => newDate (Some (Double.Qtrunc q))
  | NegZero => DateAt 0
  | _ => InvalidDate
  end.

(** An oracle whose 80-day searches find nothing and whose 400-day
    searches all answer the instant 1 ms; the Sun stands at 0 degrees. *)
Definition lateOracle : AstronomyGlobal (Raw := Number) :=
  AstronomyObject
    (Some (fun _ => Some (SunObject (Some (Fin 0)))))
    (Some (fun _ _ limitDays =>
             Some (if limitDays =? 80 then Falsy else AstroTime (DateAt 1)))).

(** A resolution at the epoch, the clock reading 1.5 s. *)
Definition lateRun : M (Raw := Number) SolarTermInfo :=
  getSolarTermInfo numberTruthy numberToDate lateOracle (DateAt 1500)
    (InputDate (DateAt 0)).

(** An oracle whose longitude read carries no number. *)
Definition blindOracle : AstronomyGlobal (Raw := Number) :=
  AstronomyObject
    (Some (fun _ => Some (SunObject None)))
    (Some (fun _ _ _ => Some (AstroTime (DateAt 1)))).

End Examples.

(** A correct oracle around Qingming 2024. *)
Module Spring2024.

(** Boundary instants (ms since the epoch, UTC). *)
Definition jingzhe : Z := 1709605351000.   (* 345 degrees, 2024-03-05 02:22:31 *)
Definition chunfen : Z := 1710903981000.   (*   0 degrees, 2024-03-20 03:06:21 *)
Definition qingming : Z := 1712214140000.  (*  15 degrees, 2024-04-04 07:02:20 *)
Definition guyu : Z := 1713535173000.      (*  30 degrees, 2024-04-19 13:59:33 *)

(** Ten seconds before Qingming, 2024-04-04 07:02:10, and forty seconds
    after it, 07:03:00. *)
Definition tenSecondsBefore : Z := 1712214130000.
Definition fortySecondsAfter : Z := 1712214180000.

(** The double written 14.9999. *)
Definition almost15 : Number := Eval vm_compute in Double.round64 (149999 # 10000).

Definition sunPosition (d : Date) : option SunAnswer :=
  Some (SunObject
          (Some (match getTime d with
                 | Some ms => if ms <? qingming then almost15 else Fin 15
                 | None => NaN
                 end))).

(** The crossing [b] when it lies in the window, else nothing. *)
Definition inWindow (start : Date) (limitDays : Z) (b : Z) : AstroValue (Raw := Number) :=
  match getTime start with
  | Some s =>
      if (s <=? b) && (b <=? s + limitDays * MS_PER_DAY)
      then AstroTime (DateAt b) else Falsy
  | None => Falsy
  end.

Definition crossing (targetLon : Number) (start : Date) (limitDays : Z)
  : AstroValue (Raw := Number) :=
  if sameNumber targetLon (Fin 345) then inWindow start limitDays jingzhe
  else if sameNumber targetLon (Fin 0) then inWindow start limitDays chunfen
  else if sameNumber targetLon (Fin 15) then inWindow start limitDays qingming
  else if sameNumber targetLon (Fin 30) then inWindow start limitDays guyu
  else Falsy.

Definition searchSunLongitude (targetLon : Number) (start : Date) (limitDays : Z)
  : option (AstroValue (Raw := Number)) :=
  Some (crossing targetLon start limitDays).

(** The same search, throwing when the window starts at an Invalid
    Date. *)
Definition strictSearch (targetLon : Number) (start : Date) (limitDays : Z)
  : option (AstroValue (Raw := Number)) :=
  match getTime start with
  | Some _ => Some (crossing targetLon start limitDays)
  | None => None
  end.

Definition strictOracle : Oracle (Raw := Number) := mkOracle sunPosition strictSearch.

Definition oracle : Oracle (Raw := Number) := mkOracle sunPosition searchSunLongitude.

Definition astronomy : AstronomyGlobal (Raw := Number) :=
  AstronomyObject (Some sunPosition) (Some searchSunLongitude).

(** The same ephemeris with a longitude read that already says 15
    degrees ten seconds early. *)
Definition eagerAstronomy : AstronomyGlobal (Raw := Number) :=
  AstronomyObject (Some (fun _ => Some (SunObject (Some (Fin 15)))))
                  (Some searchSunLongitude).

(** The same ephemeris with a longitude read that still says 14.9999
    degrees after the boundary. *)
Definition laggingOracle : Oracle (Raw := Number) :=
  mkOracle (fun _ => Some (SunObject (Some almost15))) searchSunLongitude.

Definition laggingAstronomy : AstronomyGlobal (Raw := Number) :=
  AstronomyObject (Some (fun _ => Some (SunObject (Some almost15))))
                  (Some searchSunLongitude).

Definition clock : Date := DateAt 1712214135250.

Definition resolve (t : Z) : M (Raw := Number) SolarTermInfo :=
  getSolarTermInfo Examples.numberTruthy Examples.numberToDate astronomy clock
    (InputDate (DateAt t)).

End Spring2024.

(** The ephemeris of [Spring2024] answering with raw numbers of ms
    instead of objects holding a Date, and with nothing instead of an
    invalid Date. *)
Module Spring2024Numbers.

Definition searchAsNumber (targetLon : Number) (start : Date) (limitDays : Z)
  : option (AstroValue (Raw := Number)) :=
  Some (match Spring2024.crossing targetLon start limitDays with
        | AstroTime (DateAt b) => Other (Fin (inject_Z b))
        | AstroTime InvalidDate => Falsy
        | a => a
        end).

End Spring2024Numbers.

(* ------------------------------------------------------------------ *)
(** ** Vocabulary for the formatters and further facts *)

(** Reading a decimal numeral back (digits, optional leading minus). *)
Definition parseDecimal (s : string) : option Z :=
  option_map Z.of_int (NilZero.int_of_string s).

(** The table indices. *)
Definition tableIndices : list Z := map Z.of_nat (seq 0 24).

(** A host in UTC+8 with the proleptic Gregorian calendar. *)
Module Beijing.

(** Year, month (1..12) and day of the month of a day number (days since
    1970-01-01). *)
Definition civil (z : Z) : Z * Z * Z :=
  let z := z + 719468 in
  let era := z / 146097 in
  let doe := z - era * 146097 in
  let yoe := (doe - doe / 1460 + doe / 36524 - doe / 146096) / 365 in
  let y := yoe + era * 400 in
  let doy := doe - (365 * yoe + yoe / 4 - yoe / 100) in
  let mp := (5 * doy + 2) / 153 in
  let d := doy - (153 * mp + 2) / 5 + 1 in
  let m := if mp <? 10 then mp + 3 else mp - 9 in
  (if m <=? 2 then y + 1 else y, m, d).

Definition yearFromDay (z : Z) : Z := fst (fst (civil z)).
Definition monthFromDay (z : Z) : Z := snd (fst (civil z)) - 1.
Definition dateFromDay (z : Z) : Z := snd (civil z).
Definition localTZA (t : Z) : Z := 8 * msPerHour.

Definition format (d : Date) : string :=
  formatLocalMinute Examples.numberToDate yearFromDay monthFromDay dateFromDay
    localTZA (InputDate d).

End Beijing.

(* ================================================================== *)
(** * Part III: facts *)

(* ------------------------------------------------------------------ *)
(** ** Rounding to the nearest double *)

Module DoubleFacts.

Import Double.

Lemma pow2_pos (e : Z) : (0 < pow2 e)%Q.
Proof. apply Qpower_0_lt. reflexivity. Qed.

Lemma pow2_plus (a b : Z) : (pow2 (a + b) == pow2 a * pow2 b)%Q.
Proof. apply Qpower_plus. discriminate. Qed.

Lemma pow2_le (a b : Z) : a <= b -> (pow2 a <= pow2 b)%Q.
Proof. intros H. apply Qpower_le_compat_l; [exact H | discriminate]. Qed.

Lemma pow2_lt (a b : Z) : a < b -> (pow2 a < pow2 b)%Q.
Proof. intros H. apply Qpower_lt_compat_l; [exact H | reflexivity]. Qed.

Lemma pow2_lt_inv (a b : Z) : (pow2 a < pow2 b)%Q -> a < b.
Proof. intros H. apply (Qpower_lt_compat_l_inv 2); [exact H | reflexivity]. Qed.

Lemma pow2_inject (n : Z) : 0 <= n -> (pow2 n == inject_Z (2 ^ n))%Q.
Proof. intros H. unfold pow2. rewrite Zpower_Qpower by exact H. reflexivity. Qed.

Lemma pow2_succ (a : Z) : (pow2 (a + 1) == 2 * pow2 a)%Q.
Proof. rewrite pow2_plus. change (pow2 1) with 2%Q. ring. Qed.

Lemma pow2_minus (a b : Z) : (pow2 (a - b) == pow2 a / pow2 b)%Q.
Proof.
  pose proof (pow2_pos b).
  assert (E : (pow2 a == pow2 (a - b) * pow2 b)%Q).
  { rewrite <- pow2_plus. replace (a - b + b) with a by lia. reflexivity. }
  rewrite E. field. lra.
Qed.

(** floor(log2 q) *)
Lemma ilog2_spec (q : Q) :
  (0 < q)%Q -> (pow2 (ilog2 q) <= q /\ q < pow2 (ilog2 q + 1))%Q.
Proof.
  intros Hq. destruct q as [n d]. unfold ilog2. cbn [Qnum Qden].
  assert (Hn : 0 < n) by (unfold Qlt in Hq; simpl in Hq; lia).
  pose proof (Z.log2_spec n Hn) as [Ln Un].
  pose proof (Z.log2_spec (Zpos d) ltac:(lia)) as [Ld Ud].
  pose proof (Z.log2_nonneg n) as Nn. pose proof (Z.log2_nonneg (Zpos d)) as Nd.
  set (a := Z.log2 n) in *. set (b := Z.log2 (Zpos d)) in *.
  assert (Eq : (n # d == inject_Z n / inject_Z (Zpos d))%Q) by apply Qmake_Qdiv.
  assert (Pd : (0 < inject_Z (Zpos d))%Q) by (rewrite <- (Zlt_Qlt 0); lia).
  assert (Ln' : (pow2 a <= inject_Z n)%Q) by (rewrite pow2_inject by lia; rewrite <- Zle_Qle; lia).
  assert (Un' : (inject_Z n < pow2 (a + 1))%Q).
  { rewrite pow2_inject by lia. rewrite <- Zlt_Qlt. replace (a + 1) with (Z.succ a) by lia. lia. }
  assert (Ld' : (pow2 b <= inject_Z (Zpos d))%Q) by (rewrite pow2_inject by lia; rewrite <- Zle_Qle; lia).
  assert (Ud' : (inject_Z (Zpos d) < pow2 (b + 1))%Q).
  { rewrite pow2_inject by lia. rewrite <- Zlt_Qlt. replace (b + 1) with (Z.succ b) by lia. lia. }
  pose proof (pow2_pos b) as Pb. pose proof (pow2_pos (a - b)) as Pk.
  pose proof (pow2_pos (a - b - 1)) as Pk1.
  assert (Ea : (pow2 a == pow2 (a - b) * pow2 b)%Q).
  { rewrite <- pow2_plus. replace (a - b + b) with a by lia. reflexivity. }
  assert (Ek : (pow2 (a - b) == 2 * pow2 (a - b - 1))%Q).
  { rewrite <- pow2_succ. replace (a - b - 1 + 1) with (a - b) by lia. reflexivity. }
  rewrite pow2_succ in Un', Ud'.
  destruct (Qle_bool (pow2 (a - b)) (n # d)) eqn:E.
  - apply Qle_bool_iff in E. split; [exact E |].
    rewrite pow2_succ, Eq. apply Qlt_shift_div_r; [exact Pd |]. nra.
  - assert (E' : ~ (pow2 (a - b) <= n # d)%Q) by (rewrite <- Qle_bool_iff; congruence).
    apply Qnot_le_lt in E'. split.
    + rewrite Eq. apply Qle_shift_div_l; [exact Pd |]. nra.
    + replace (a - b - 1 + 1) with (a - b) by lia. exact E'.
Qed.

Lemma ilog2_unique (q : Q) (k : Z) :
  (pow2 k <= q)%Q -> (q < pow2 (k + 1))%Q -> ilog2 q = k.
Proof.
  intros L U.
  assert (Hq : (0 < q)%Q) by (pose proof (pow2_pos k); lra).
  destruct (ilog2_spec q Hq) as [L' U'].
  assert (A : k < ilog2 q + 1) by (apply pow2_lt_inv; lra).
  assert (B : ilog2 q < k + 1) by (apply pow2_lt_inv; lra).
  lia.
Qed.

Lemma ilog2_le (p q : Q) : (0 < p)%Q -> (p <= q)%Q -> ilog2 p <= ilog2 q.
Proof.
  intros Hp H.
  destruct (ilog2_spec p Hp) as [L U].
  destruct (ilog2_spec q ltac:(lra)) as [L' U'].
  assert (A : ilog2 p < ilog2 q + 1) by (apply pow2_lt_inv; lra). lia.
Qed.

(** round-half-even to a whole number *)
Lemma rne_bounds (y : Q) :
  (inject_Z (rne y) - (1 # 2) <= y /\ y <= inject_Z (rne y) + (1 # 2))%Q.
Proof.
  unfold rne. pose proof (Qfloor_le y) as F1. pose proof (Qlt_floor y) as F2.
  rewrite inject_Z_plus in F2. change (inject_Z 1) with 1%Q in F2.
  destruct (Qcompare_spec (y - inject_Z (Qfloor y)) (1 # 2)) as [E | E | E].
  - destruct (Z.even (Qfloor y)); rewrite ?inject_Z_plus; change (inject_Z 1) with 1%Q; lra.
  - lra.
  - rewrite inject_Z_plus. change (inject_Z 1) with 1%Q. lra.
Qed.

Lemma rne_le (y : Q) (z : Z) : (y <= inject_Z z)%Q -> rne y <= z.
Proof.
  intros H. destruct (rne_bounds y) as [B _].
  assert (A : (inject_Z (rne y) < inject_Z (z + 1))%Q)
    by (rewrite inject_Z_plus; change (inject_Z 1) with 1%Q; lra).
  rewrite <- Zlt_Qlt in A. lia.
Qed.

Lemma rne_ge (y : Q) (z : Z) : (inject_Z z <= y)%Q -> z <= rne y.
Proof.
  intros H. destruct (rne_bounds y) as [_ B].
  assert (A : (inject_Z (z - 1) < inject_Z (rne y))%Q).
  { unfold Z.sub. rewrite inject_Z_plus, inject_Z_opp. change (inject_Z 1) with 1%Q. lra. }
  rewrite <- Zlt_Qlt in A. lia.
Qed.

Lemma rne_lt_half (y : Q) (z : Z) : (y < inject_Z z + (1 # 2))%Q -> rne y <= z.
Proof.
  intros H. unfold rne.
  pose proof (Qfloor_le y) as F1. pose proof (Qlt_floor y) as F2.
  rewrite inject_Z_plus in F2. change (inject_Z 1) with 1%Q in F2.
  assert (Fz : Qfloor y <= z).
  { assert (A : (inject_Z (Qfloor y) < inject_Z (z + 1))%Q)
      by (rewrite inject_Z_plus; change (inject_Z 1) with 1%Q; lra).
    rewrite <- Zlt_Qlt in A. lia. }
  assert (C : Qfloor y = z \/ Qfloor y + 1 <= z) by lia.
  destruct C as [C | C].
  - destruct (Qcompare_spec (y - inject_Z (Qfloor y)) (1 # 2)) as [E | E | E];
      rewrite C in *; try lia; lra.
  - destruct (Qcompare_spec (y - inject_Z (Qfloor y)) (1 # 2)) as [E | E | E];
      try destruct (Z.even (Qfloor y)); lia.
Qed.

Lemma rne_gt_half (y : Q) (z : Z) : (inject_Z z - (1 # 2) < y)%Q -> z <= rne y.
Proof.
  intros H. unfold rne.
  pose proof (Qfloor_le y) as F1. pose proof (Qlt_floor y) as F2.
  rewrite inject_Z_plus in F2. change (inject_Z 1) with 1%Q in F2.
  assert (Fz : z - 1 <= Qfloor y).
  { assert (A : (inject_Z (z - 1) < inject_Z (Qfloor y + 1))%Q).
    { unfold Z.sub. rewrite !inject_Z_plus, inject_Z_opp. change (inject_Z 1) with 1%Q. lra. }
    rewrite <- Zlt_Qlt in A. lia. }
  assert (C : Qfloor y = z - 1 \/ z <= Qfloor y) by lia.
  destruct C as [C | C].
  - assert (Ez : (inject_Z (Qfloor y) == inject_Z z - 1)%Q).
    { rewrite C. unfold Z.sub. rewrite inject_Z_plus, inject_Z_opp. reflexivity. }
    destruct (Qcompare_spec (y - inject_Z (Qfloor y)) (1 # 2)) as [E | E | E]; try lra.
    lia.
  - destruct (Qcompare_spec (y - inject_Z (Qfloor y)) (1 # 2)) as [E | E | E];
      try destruct (Z.even (Qfloor y)); lia.
Qed.

Lemma rne_Z (z : Z) : rne (inject_Z z) = z.
Proof. apply Z.le_antisymm; [apply rne_le | apply rne_ge]; lra. Qed.

(** Rounding a positive rational. *)

Lemma exponent_ge (q : Q) : -1074 <= exponent q /\ ilog2 q - 52 <= exponent q.
Proof. unfold exponent. lia. Qed.

Lemma grid_coarser (z e' e : Z) :
  e <= e' -> (inject_Z z * pow2 e' == inject_Z (z * 2 ^ (e' - e)) * pow2 e)%Q.
Proof.
  intros H. rewrite inject_Z_mult, <- (pow2_inject (e' - e)) by lia.
  rewrite <- Qmult_assoc, <- pow2_plus. replace (e' - e + e) with e' by lia. reflexivity.
Qed.

(** Rounding never crosses a point of the grid it rounds to. *)
Lemma roundPos_le (q c : Q) (z e' : Z) :
  (c == inject_Z z * pow2 e')%Q -> exponent q <= e' -> (q <= c)%Q ->
  (roundPos q <= c)%Q.
Proof.
  intros Hc He H. unfold roundPos. set (e := exponent q) in *.
  pose proof (pow2_pos e) as P.
  rewrite Hc, (grid_coarser z e' e He) in *.
  set (w := z * 2 ^ (e' - e)) in *.
  assert (R : rne (q / pow2 e) <= w).
  { apply rne_le. apply Qle_shift_div_r; [exact P | exact H]. }
  rewrite Zle_Qle in R. nra.
Qed.

Lemma roundPos_ge (q c : Q) (z e' : Z) :
  (c == inject_Z z * pow2 e')%Q -> exponent q <= e' -> (c <= q)%Q ->
  (c <= roundPos q)%Q.
Proof.
  intros Hc He H. unfold roundPos. set (e := exponent q) in *.
  pose proof (pow2_pos e) as P.
  rewrite Hc, (grid_coarser z e' e He) in *.
  set (w := z * 2 ^ (e' - e)) in *.
  assert (R : w <= rne (q / pow2 e)).
  { apply rne_ge. apply Qle_shift_div_l; [exact P | exact H]. }
  rewrite Zle_Qle in R. nra.
Qed.

Lemma roundPos_nonneg (q : Q) : (0 < q)%Q -> (0 <= roundPos q)%Q.
Proof.
  intros H. apply (roundPos_ge q 0 0 (exponent q)); [ring | lia | lra].
Qed.

(** The grid of a value below a representable one is at least as fine. *)
Lemma exponent_below (q c : Q) (z e' : Z) :
  (c == inject_Z z * pow2 e')%Q -> Z.abs z < 2 ^ 53 -> -1074 <= e' ->
  (0 < q)%Q -> (q <= c)%Q -> exponent q <= e'.
Proof.
  intros Hc Hz He Hq H.
  destruct (ilog2_spec q Hq) as [L _].
  pose proof (pow2_pos e') as P.
  assert (Z53 : (inject_Z z < pow2 53)%Q).
  { rewrite (pow2_inject 53) by lia. rewrite <- Zlt_Qlt. lia. }
  assert (U : (c < pow2 (53 + e'))%Q) by (rewrite pow2_plus, Hc; nra).
  assert (A : ilog2 q < 53 + e') by (apply pow2_lt_inv; lra).
  unfold exponent. lia.
Qed.

Lemma roundPos_le_repr (q c : Q) :
  representable c -> (0 < q)%Q -> (q <= c)%Q -> (roundPos q <= c)%Q.
Proof.
  intros (z & e' & Hc & Hz & He) Hq H.
  apply (roundPos_le q c z e' Hc); [| exact H].
  now apply (exponent_below q c z e').
Qed.

Lemma roundPos_ge_repr (q c : Q) :
  representable c -> (0 < c)%Q -> (c <= q)%Q -> (c <= roundPos q)%Q.
Proof.
  intros (z & e' & Hc & Hz & He) Hc0 H.
  destruct (Z_le_gt_dec (exponent q) e') as [E | E].
  - now apply (roundPos_ge q c z e' Hc).
  - assert (Hq : (0 < q)%Q) by lra.
    destruct (ilog2_spec q Hq) as [L _].
    assert (Ee : exponent q = ilog2 q - 52) by (unfold exponent in *; lia).
    assert (G : (pow2 (ilog2 q) <= roundPos q)%Q).
    { apply (roundPos_ge q _ (2 ^ 52) (exponent q)); [| lia | exact L].
      rewrite <- (pow2_inject 52), <- pow2_plus by lia.
      replace (52 + exponent q) with (ilog2 q) by lia. reflexivity. }
    pose proof (pow2_pos e') as P.
    assert (Z53 : (inject_Z z < pow2 53)%Q).
    { rewrite (pow2_inject 53) by lia. rewrite <- Zlt_Qlt. lia. }
    assert (U : (c < pow2 (53 + e'))%Q) by (rewrite pow2_plus, Hc; nra).
    assert (M : (pow2 (53 + e') <= pow2 (ilog2 q))%Q) by (apply pow2_le; lia).
    lra.
Qed.

Lemma roundPos_exact (c : Q) : representable c -> (0 < c)%Q -> (roundPos c == c)%Q.
Proof.
  intros R H. apply Qle_antisym.
  - apply roundPos_le_repr; [exact R | exact H | lra].
  - apply roundPos_ge_repr; [exact R | exact H | lra].
Qed.

Lemma roundPos_representable (q : Q) : (0 < q)%Q -> representable (roundPos q).
Proof.
  intros Hq. unfold roundPos. set (e := exponent q).
  destruct (exponent_ge q) as [E1 E2]. fold e in E1, E2.
  destruct (ilog2_spec q Hq) as [_ U].
  pose proof (pow2_pos e) as P.
  set (m := rne (q / pow2 e)).
  assert (M0 : 0 <= m).
  { apply rne_ge. apply Qle_shift_div_l; [exact P |].
    change (inject_Z 0) with 0%Q. lra. }
  assert (M1 : m <= 2 ^ 53).
  { apply rne_le. apply Qle_shift_div_r; [exact P |].
    rewrite <- (pow2_inject 53), <- pow2_plus by lia.
    assert (A : (pow2 (ilog2 q + 1) <= pow2 (53 + e))%Q) by (apply pow2_le; lia). lra. }
  assert (C : m < 2 ^ 53 \/ m = 2 ^ 53) by lia.
  destruct C as [C | C].
  - exists m, e. split; [reflexivity | lia].
  - exists (2 ^ 52), (e + 1). split; [| lia].
    rewrite C, pow2_succ, <- !pow2_inject by lia.
    change (pow2 53) with (2 * pow2 52)%Q. ring.
Qed.

Lemma representable_opp (c : Q) : representable c -> representable (- c).
Proof.
  intros (z & e & Hc & Hz & He). exists (- z), e.
  split; [rewrite Hc, inject_Z_opp; ring | lia].
Qed.

Lemma representable_comp (c d : Q) : (c == d)%Q -> representable c -> representable d.
Proof. intros E (z & e & Hc & H). exists z, e. split; [now rewrite <- E | exact H]. Qed.

Lemma representable_0 : representable 0.
Proof. exists 0, 0. split; [reflexivity | lia]. Qed.

Lemma representable_Z (z : Z) : Z.abs z < 2 ^ 53 -> representable (inject_Z z).
Proof. intros H. exists z, 0. split; [change (pow2 0) with 1%Q; ring | lia]. Qed.

Lemma round64_pos (q : Q) :
  (0 < q)%Q -> (roundPos q < pow2 1024)%Q -> round64 q = Fin (Qred (roundPos q)).
Proof.
  intros Hq H. unfold round64.
  destruct (Qcompare_spec q 0) as [E | E | E]; try lra.
  destruct (Qle_bool (pow2 1024) (roundPos q)) eqn:O; [| reflexivity].
  apply Qle_bool_iff in O. lra.
Qed.

Lemma round64_neg (q : Q) :
  (q < 0)%Q -> (0 < roundPos (- q))%Q -> (roundPos (- q) < pow2 1024)%Q ->
  round64 q = Fin (Qred (- roundPos (- q))).
Proof.
  intros Hq H0 H. unfold round64.
  destruct (Qcompare_spec q 0) as [E | E | E]; try lra.
  destruct (Qle_bool (pow2 1024) (roundPos (- q))) eqn:O.
  { apply Qle_bool_iff in O. lra. }
  destruct (Qeq_bool (roundPos (- q)) 0) eqn:Z; [| reflexivity].
  apply Qeq_bool_iff in Z. lra.
Qed.

(** A representable value is its own rounding. *)
Lemma round64_exact (q : Q) :
  representable q -> (Qabs q < pow2 1024)%Q -> round64 q = Fin (Qred q).
Proof.
  intros R H.
  destruct (Q_dec q 0) as [[N | P] | Z].
  - rewrite Qabs_neg in H by lra.
    pose proof (roundPos_exact (- q) (representable_opp q R) ltac:(lra)) as E.
    rewrite round64_neg by lra. f_equal. apply Qred_complete. lra.
  - rewrite Qabs_pos in H by lra.
    pose proof (roundPos_exact q R P) as E.
    rewrite round64_pos by lra. f_equal. apply Qred_complete. lra.
  - unfold round64. destruct (Qcompare_spec q 0) as [E | E | E]; try lra.
    f_equal. symmetry. apply (Qred_complete q 0). exact Z.
Qed.

(** Rounding stays between representable bounds. *)
Lemma round64_between (q c1 c2 : Q) :
  representable c1 -> representable c2 -> (0 < c1)%Q ->
  (c1 <= q)%Q -> (q <= c2)%Q -> (c2 < pow2 1024)%Q ->
  exists v, round64 q = Fin v /\ (c1 <= v)%Q /\ (v <= c2)%Q /\ representable v.
Proof.
  intros R1 R2 P L U O.
  pose proof (roundPos_ge_repr q c1 R1 P L) as A.
  pose proof (roundPos_le_repr q c2 R2 ltac:(lra) U) as B.
  exists (Qred (roundPos q)). rewrite round64_pos by lra.
  pose proof (Qred_correct (roundPos q)) as E.
  split; [reflexivity | split; [lra | split; [lra |]]].
  apply (representable_comp (roundPos q)); [now symmetry |].
  apply roundPos_representable. lra.
Qed.

Lemma round64_upto (q c : Q) :
  representable c -> (0 < q)%Q -> (q <= c)%Q -> (c < pow2 1024)%Q ->
  exists v, round64 q = Fin v /\ (0 <= v)%Q /\ (v <= c)%Q /\ representable v.
Proof.
  intros R P U O.
  pose proof (roundPos_nonneg q P) as A.
  pose proof (roundPos_le_repr q c R P U) as B.
  exists (Qred (roundPos q)). rewrite round64_pos by lra.
  pose proof (Qred_correct (roundPos q)) as E.
  split; [reflexivity | split; [lra | split; [lra |]]].
  apply (representable_comp (roundPos q)); [now symmetry |].
  now apply roundPos_representable.
Qed.

Lemma round64_between_neg (q c1 c2 : Q) :
  representable c1 -> representable c2 -> (0 < c1)%Q ->
  (c1 <= - q)%Q -> (- q <= c2)%Q -> (c2 < pow2 1024)%Q ->
  exists v, round64 q = Fin v /\ (- c2 <= v)%Q /\ (v <= - c1)%Q /\ representable v.
Proof.
  intros R1 R2 P L U O.
  pose proof (roundPos_ge_repr (- q) c1 R1 P L) as A.
  pose proof (roundPos_le_repr (- q) c2 R2 ltac:(lra) U) as B.
  exists (Qred (- roundPos (- q))). rewrite round64_neg by lra.
  pose proof (Qred_correct (- roundPos (- q))) as E.
  split; [reflexivity | split; [lra | split; [lra |]]].
  apply (representable_comp (- roundPos (- q))); [now symmetry |].
  apply representable_opp, roundPos_representable. lra.
Qed.

Lemma pow2_10 : (pow2 10 == 1024)%Q.
Proof. reflexivity. Qed.

Lemma pow2_970_big : (1024 <= pow2 970)%Q.
Proof. rewrite <- pow2_10. apply pow2_le. lia. Qed.

Lemma pow2_1024_split : (pow2 1024 == 2 * pow2 1023 /\ pow2 1023 == 2 * pow2 1022
                         /\ pow2 1024 == 2 * pow2 971 * pow2 52
                         /\ pow2 971 == 2 * pow2 970)%Q.
Proof.
  split; [| split; [| split]].
  - rewrite <- pow2_succ. reflexivity.
  - rewrite <- pow2_succ. reflexivity.
  - rewrite <- pow2_succ, <- pow2_plus. reflexivity.
  - rewrite <- pow2_succ. reflexivity.
Qed.

Lemma inject_Z_pred (a b : Z) : a < b -> (inject_Z a <= inject_Z b - 1)%Q.
Proof.
  intros H. assert (A : (inject_Z a <= inject_Z (b - 1))%Q) by (rewrite <- Zle_Qle; lia).
  unfold Z.sub in A. rewrite inject_Z_plus, inject_Z_opp in A.
  change (inject_Z 1) with 1%Q in A. lra.
Qed.

(** Rounding overflows only from half an ulp above the largest double. *)
Lemma roundPos_no_overflow (q : Q) :
  (0 < q)%Q -> (q < pow2 1024 - pow2 970)%Q -> (roundPos q < pow2 1024)%Q.
Proof.
  intros Hq H.
  destruct (ilog2_spec q Hq) as [L U].
  pose proof (pow2_pos 970) as P970.
  destruct pow2_1024_split as (S1 & S2 & S3 & S4).
  assert (HL : ilog2 q < 1024) by (apply pow2_lt_inv; lra).
  destruct (Z_lt_ge_dec (ilog2 q) 1023) as [C | C].
  - assert (B : (roundPos q <= pow2 1023)%Q).
    { apply (roundPos_le q _ 1 1023); [ring | unfold exponent; lia |].
      assert (A : (pow2 (ilog2 q + 1) <= pow2 1023)%Q) by (apply pow2_le; lia). lra. }
    pose proof (pow2_pos 1023). lra.
  - assert (E : exponent q = 971) by (unfold exponent; lia).
    unfold roundPos. rewrite E.
    pose proof (pow2_pos 971) as P971.
    assert (R : rne (q / pow2 971) <= 2 ^ 53 - 1).
    { apply rne_lt_half. apply Qlt_shift_div_r; [exact P971 |].
      unfold Z.sub. rewrite inject_Z_plus, inject_Z_opp.
      rewrite <- (pow2_inject 53) by lia. change (inject_Z 1) with 1%Q.
      change (pow2 53) with (2 * pow2 52)%Q. lra. }
    assert (R' : (inject_Z (rne (q / pow2 971)) <= inject_Z (2 ^ 53) - 1)%Q)
      by (apply inject_Z_pred; lia).
    rewrite <- (pow2_inject 53) in R' by lia.
    change (pow2 53) with (2 * pow2 52)%Q in R'. nra.
Qed.

(** No double is above 2^1024 - 2^971. *)
Lemma double_max (q : Q) :
  representable q -> (Qabs q < pow2 1024)%Q -> (Qabs q <= pow2 1024 - pow2 971)%Q.
Proof.
  intros (z & e & Hq & Hz & He) H.
  assert (Ha : (Qabs q == inject_Z (Z.abs z) * pow2 e)%Q).
  { rewrite Hq, Qabs_Qmult. rewrite (Qabs_pos (pow2 e)) by (apply Qlt_le_weak, pow2_pos).
    unfold Qabs, inject_Z. cbn. reflexivity. }
  rewrite Ha in *. set (a := Z.abs z) in *.
  assert (A0 : (0 <= inject_Z a)%Q) by (rewrite <- (Zle_Qle 0); lia).
  pose proof (pow2_pos e) as Pe. pose proof (pow2_pos 971) as P971.
  destruct pow2_1024_split as (S1 & S2 & S3 & S4).
  destruct (Z_le_gt_dec e 971) as [C | C].
  - assert (A1 : (inject_Z a <= 2 * pow2 52 - 1)%Q).
    { change (2 * pow2 52)%Q with (pow2 53). rewrite (pow2_inject 53) by lia.
      apply inject_Z_pred. lia. }
    pose proof (pow2_le e 971 C). nra.
  - destruct (Z_lt_ge_dec e 1024) as [D | D].
    + assert (Ek : (pow2 1024 == pow2 (1024 - e) * pow2 e)%Q).
      { rewrite <- pow2_plus. replace (1024 - e + e) with 1024 by lia. reflexivity. }
      assert (A1 : (inject_Z a < pow2 (1024 - e))%Q) by nra.
      rewrite (pow2_inject (1024 - e)) in A1, Ek by lia.
      rewrite <- Zlt_Qlt in A1.
      assert (A2 : (inject_Z a <= inject_Z (2 ^ (1024 - e)) - 1)%Q)
        by (apply inject_Z_pred; lia).
      pose proof (pow2_le 971 e ltac:(lia)). nra.
    + pose proof (pow2_le 1024 e ltac:(lia)).
      assert (A1 : (inject_Z a < inject_Z 1)%Q) by (change (inject_Z 1) with 1%Q; nra).
      rewrite <- Zlt_Qlt in A1. assert (a = 0) by lia.
      pose proof (pow2_le 971 1024 ltac:(lia)).
      replace a with 0 by lia. change (inject_Z 0) with 0%Q. lra.
Qed.

Lemma round64_pos_any (q : Q) :
  (0 < q)%Q -> (q < pow2 1024 - pow2 970)%Q ->
  exists v, round64 q = Fin v /\ (0 <= v)%Q /\ isDouble (Fin v).
Proof.
  intros Hq H. pose proof (roundPos_no_overflow q Hq H) as O.
  pose proof (roundPos_nonneg q Hq) as N.
  pose proof (Qred_correct (roundPos q)) as E.
  exists (Qred (roundPos q)). rewrite round64_pos by assumption.
  split; [reflexivity | split; [lra |]]. split.
  - apply (representable_comp (roundPos q)); [now symmetry |].
    now apply roundPos_representable.
  - rewrite Qabs_pos by lra. lra.
Qed.

Lemma round64_neg_le (q c : Q) :
  representable c -> (0 < c)%Q -> (c <= - q)%Q -> (- q < pow2 1024 - pow2 970)%Q ->
  exists v, round64 q = Fin v /\ (v <= - c)%Q /\ isDouble (Fin v).
Proof.
  intros R Hc L H.
  pose proof (roundPos_no_overflow (- q) ltac:(lra) H) as O.
  pose proof (roundPos_ge_repr (- q) c R Hc L) as G.
  pose proof (Qred_correct (- roundPos (- q))) as E.
  exists (Qred (- roundPos (- q))). rewrite round64_neg by lra.
  split; [reflexivity | split; [lra |]]. split.
  - apply (representable_comp (- roundPos (- q))); [now symmetry |].
    apply representable_opp, roundPos_representable. lra.
  - rewrite Qabs_neg by lra. lra.
Qed.

Lemma pow2_44 : (pow2 44 == 17592186044416)%Q.
Proof. reflexivity. Qed.

Lemma double_grid_pos (q : Q) : representable q -> (256 <= q)%Q -> onGrid44 q.
Proof.
  intros (z & e & Hq & Hz & He) H.
  pose proof (pow2_pos e) as Pe.
  assert (Z53 : (inject_Z z < pow2 53)%Q).
  { rewrite (pow2_inject 53) by lia. rewrite <- Zlt_Qlt. lia. }
  assert (Z0 : (0 < inject_Z z)%Q) by nra.
  assert (E8 : (pow2 8 < pow2 (53 + e))%Q).
  { rewrite pow2_plus. change (pow2 8) with 256%Q. nra. }
  apply pow2_lt_inv in E8.
  exists (z * 2 ^ (e + 44)).
  rewrite inject_Z_mult, <- (pow2_inject (e + 44)), pow2_plus, pow2_44 by lia.
  rewrite Hq. ring.
Qed.

Lemma onGrid44_opp (q : Q) : onGrid44 q -> onGrid44 (- q).
Proof. intros [z H]. exists (- z). rewrite inject_Z_opp, <- H. ring. Qed.

Lemma double_grid (q : Q) :
  representable q -> (256 <= q \/ q <= -256)%Q -> onGrid44 q.
Proof.
  intros R [H | H]; [now apply double_grid_pos |].
  assert (G : onGrid44 (- q)) by (apply double_grid_pos; [now apply representable_opp | lra]).
  apply onGrid44_opp in G. destruct G as [z G]. exists z. rewrite <- G. ring.
Qed.

Lemma onGrid44_Z (z : Z) : onGrid44 (inject_Z z).
Proof.
  exists (z * 17592186044416). rewrite inject_Z_mult. reflexivity.
Qed.

Lemma onGrid44_plus (p q : Q) : onGrid44 p -> onGrid44 q -> onGrid44 (p + q).
Proof.
  intros [a A] [b B]. exists (a + b). rewrite inject_Z_plus, <- A, <- B. ring.
Qed.

Lemma onGrid44_comp (p q : Q) : (p == q)%Q -> onGrid44 p -> onGrid44 q.
Proof. intros E [a A]. exists a. now rewrite <- E. Qed.

(** On the grid, below a whole number means a grid step below it. *)
Lemma onGrid44_lt (q : Q) (n : Z) :
  onGrid44 q -> (q < inject_Z n)%Q -> (q <= inject_Z n - (1 # 17592186044416))%Q.
Proof.
  intros [z Hz] H.
  assert (A : (inject_Z z < inject_Z (n * 17592186044416))%Q).
  { rewrite inject_Z_mult, <- Hz. change (inject_Z 17592186044416) with 17592186044416%Q. lra. }
  rewrite <- Zlt_Qlt in A.
  apply inject_Z_pred in A. rewrite inject_Z_mult, <- Hz in A.
  change (inject_Z 17592186044416) with 17592186044416%Q in A. lra.
Qed.

(** The remainder. *)

Lemma Qtrunc_nonneg (x : Q) :
  (0 <= x)%Q -> (inject_Z (Qtrunc x) <= x)%Q /\ (x < inject_Z (Qtrunc x) + 1)%Q.
Proof.
  intros Hx.
  assert (Hq : Qtrunc x = Qfloor x).
  { destruct x as [n d]. unfold Qtrunc, Qfloor; simpl.
    apply Z.quot_div_nonneg; [| lia].
    unfold Qle in Hx; simpl in Hx. lia. }
  rewrite Hq. split.
  - apply Qfloor_le.
  - generalize (Qlt_floor x). rewrite inject_Z_plus. auto.
Qed.

Lemma Qtrunc_nonpos (x : Q) :
  (x <= 0)%Q -> (x <= inject_Z (Qtrunc x))%Q /\ (inject_Z (Qtrunc x) - 1 < x)%Q.
Proof.
  intros Hx.
  assert (Hq : Qtrunc x = Qceiling x).
  { destruct x as [n d]. unfold Qtrunc, Qceiling, Qfloor, Qopp; simpl.
    unfold Qle in Hx; simpl in Hx.
    replace n with (- (- n)) at 1 by lia.
    rewrite Z.quot_opp_l by lia.
    f_equal. apply Z.quot_div_nonneg; lia. }
  rewrite Hq. split.
  - apply Qle_ceiling.
  - generalize (Qceiling_lt x).
    unfold Z.sub. rewrite inject_Z_plus. auto.
Qed.

(** The remainder by 360 lies strictly between -360 and 360 and has the
    sign of the dividend. *)
Lemma Qrem_360_bounds (a : Q) :
  ((0 <= a -> 0 <= Qrem a 360 /\ Qrem a 360 < 360) /\
   (a <= 0 -> -360 < Qrem a 360 /\ Qrem a 360 <= 0))%Q.
Proof.
  unfold Qrem.
  assert (Ha : (a == (a / 360) * 360)%Q) by (field).
  split; intros H.
  - assert (Hq : (0 <= a / 360)%Q) by lra.
    destruct (Qtrunc_nonneg _ Hq) as [H1 H2]. lra.
  - assert (Hq : (a / 360 <= 0)%Q) by lra.
    destruct (Qtrunc_nonpos _ Hq) as [H1 H2]. lra.
Qed.

Lemma Qrem_360_small (a : Q) : (-360 < a)%Q -> (a < 360)%Q -> (Qrem a 360 == a)%Q.
Proof.
  intros L U. unfold Qrem.
  assert (Ha : (a == (a / 360) * 360)%Q) by (field).
  assert (T : Qtrunc (a / 360) = 0).
  { destruct (Qlt_le_dec a 0) as [N | P].
    - destruct (Qtrunc_nonpos (a / 360) ltac:(lra)) as [H1 H2].
      assert (A : (inject_Z (-1) < inject_Z (Qtrunc (a / 360)))%Q)
        by (change (inject_Z (-1)) with (-1)%Q; lra).
      assert (B : (inject_Z (Qtrunc (a / 360)) < inject_Z 1)%Q)
        by (change (inject_Z 1) with 1%Q; lra).
      rewrite <- Zlt_Qlt in A, B. lia.
    - destruct (Qtrunc_nonneg (a / 360) ltac:(lra)) as [H1 H2].
      assert (A : (inject_Z (-1) < inject_Z (Qtrunc (a / 360)))%Q)
        by (change (inject_Z (-1)) with (-1)%Q; lra).
      assert (B : (inject_Z (Qtrunc (a / 360)) < inject_Z 1)%Q)
        by (change (inject_Z 1) with 1%Q; lra).
      rewrite <- Zlt_Qlt in A, B. lia. }
  rewrite T. change (inject_Z 0) with 0%Q. ring.
Qed.

Lemma Qrem_360_grid (a : Q) : onGrid44 a -> onGrid44 (Qrem a 360).
Proof.
  intros G. unfold Qrem.
  apply (onGrid44_comp (a + inject_Z (- (Qtrunc (a / 360) * 360)))).
  - rewrite inject_Z_opp, inject_Z_mult. change (inject_Z 360) with 360%Q. ring.
  - apply onGrid44_plus; [exact G | apply onGrid44_Z].
Qed.

(** [norm360] and [termIndexFromElon] on doubles. *)

Lemma below360_representable : representable below360.
Proof. exists 6333186975989759, (-44). split; [reflexivity | lia]. Qed.

Lemma below24_representable : representable below24.
Proof. exists 6755399441055743, (-48). split; [reflexivity | lia]. Qed.

Lemma headroom : (3072 <= pow2 1024 - pow2 970)%Q.
Proof.
  pose proof pow2_970_big. pose proof (pow2_le 972 1024 ltac:(lia)) as A.
  assert (E : (pow2 972 == 4 * pow2 970)%Q).
  { change 972 with (970 + 1 + 1). rewrite !pow2_succ. ring. }
  lra.
Qed.

Lemma rem_fin (x : Q) :
  rem (Fin x) (Fin 360)
  = if Qeq_bool x 0 then Fin x
    else if Qeq_bool (Qrem x 360) 0 then zero (negb (Qle_bool 0 x))
         else Fin (Qred (Qrem x 360)).
Proof. reflexivity. Qed.

Lemma lt_fin_0 (v : Q) : lt (Fin v) (Fin 0) = negb (Qle_bool 0 v).
Proof. reflexivity. Qed.

Lemma add_fin (a b : Q) :
  add (Fin a) (Fin b)
  = if Qeq_bool (a + b) 0
    then zero (negb (Qle_bool 0 a) && negb (Qle_bool 0 b))
    else round64 (a + b).
Proof. reflexivity. Qed.

Lemma Qle_bool_false (a b : Q) : Qle_bool a b = false <-> (b < a)%Q.
Proof.
  split; intros H.
  - apply Qnot_le_lt. rewrite <- Qle_bool_iff. congruence.
  - destruct (Qle_bool a b) eqn:E; [| reflexivity].
    apply Qle_bool_iff in E. lra.
Qed.

Lemma Qeq_bool_false (a b : Q) : Qeq_bool a b = false <-> ~ (a == b)%Q.
Proof.
  split; intros H.
  - rewrite <- Qeq_bool_iff. congruence.
  - destruct (Qeq_bool a b) eqn:E; [| reflexivity].
    apply Qeq_bool_iff in E. contradiction.
Qed.

(** The result of [norm360] on a double that is not a tiny negative
    number: zero, or a value up to the last double below 360. *)
Lemma norm360_fin (x : Q) :
  onGrid44 x \/ (-256 < x /\ x < 256)%Q ->
  (x <= - (1 # 17592186044416) \/ 0 <= x)%Q ->
  norm360 (Fin x) = NegZero
  \/ exists v, norm360 (Fin x) = Fin v /\ (0 <= v)%Q /\ (v <= below360)%Q.
Proof.
  intros G S. unfold norm360. cbv zeta. rewrite rem_fin.
  destruct (Qeq_bool x 0) eqn:Z0.
  { apply Qeq_bool_iff in Z0. rewrite lt_fin_0.
    replace (Qle_bool 0 x) with true by (symmetry; apply Qle_bool_iff; lra).
    right. exists x. cbn [negb]. unfold below360. split; [reflexivity | lra]. }
  apply Qeq_bool_false in Z0.
  destruct (Qrem_360_bounds x) as [Bp Bn].
  assert (R : (Qrem x 360 <= - (1 # 17592186044416) \/ 0 <= Qrem x 360)%Q
              /\ (Qrem x 360 <= below360)%Q).
  { destruct G as [G | [G1 G2]].
    - apply Qrem_360_grid in G.
      pose proof (onGrid44_lt _ 0 G) as L0. pose proof (onGrid44_lt _ 360 G) as L360.
      change (inject_Z 0) with 0%Q in L0. change (inject_Z 360) with 360%Q in L360.
      unfold below360. destruct (Qlt_le_dec x 0) as [N | P].
      + destruct Bn as [B1 B2]; [lra |].
        destruct (Qlt_le_dec (Qrem x 360) 0); lra.
      + destruct Bp as [B1 B2]; [lra |]. lra.
    - rewrite (Qrem_360_small x) by lra. unfold below360. lra. }
  destruct R as [R1 R2].
  destruct (Qeq_bool (Qrem x 360) 0) eqn:Zr.
  { destruct (Qle_bool 0 x); cbn [negb zero].
    - right. exists 0%Q. unfold below360. split; [reflexivity | lra].
    - left. reflexivity. }
  apply Qeq_bool_false in Zr. rewrite lt_fin_0.
  pose proof (Qred_correct (Qrem x 360)) as E.
  destruct (Qle_bool 0 (Qred (Qrem x 360))) eqn:Sg; cbn [negb].
  - apply Qle_bool_iff in Sg. right. exists (Qred (Qrem x 360)).
    split; [reflexivity | lra].
  - apply Qle_bool_false in Sg. rewrite add_fin.
    assert (B : (-360 < Qrem x 360)%Q).
    { destruct (Qlt_le_dec x 0) as [N | P].
      - destruct Bn as [B1 B2]; lra.
      - destruct Bp as [B1 B2]; lra. }
    replace (Qeq_bool (Qred (Qrem x 360) + 360) 0) with false
      by (symmetry; apply Qeq_bool_false; lra).
    destruct (round64_upto (Qred (Qrem x 360) + 360) below360
                below360_representable) as (v & Ev & V0 & V1 & _).
    + lra.
    + unfold below360 in *. lra.
    + pose proof headroom. pose proof (pow2_pos 970). unfold below360. lra.
    + right. exists v. rewrite Ev. split; [reflexivity | lra].
Qed.

Lemma div_fin_15 (v : Q) :
  div (Fin v) (Fin 15)
  = if Qeq_bool v 0 then zero (xorb (negb (Qle_bool 0 v)) false)
    else round64 (v / 15).
Proof. reflexivity. Qed.

Lemma index_of_norm (x : Number) :
  x = NegZero \/ (exists v, x = Fin v /\ (0 <= v)%Q /\ (v <= below360)%Q) ->
  exists i, 0 <= i <= 23 /\ isWhole (floor (div x (Fin 15))) i.
Proof.
  intros [-> | (v & -> & V0 & V1)].
  { exists 0. split; [lia | right; split; reflexivity]. }
  rewrite div_fin_15.
  destruct (Qeq_bool v 0) eqn:Z0.
  { apply Qeq_bool_iff in Z0.
    replace (Qle_bool 0 v) with true by (symmetry; apply Qle_bool_iff; lra).
    exists 0. split; [lia | left; reflexivity]. }
  apply Qeq_bool_false in Z0.
  destruct (round64_upto (v / 15) below24 below24_representable) as (w & Ew & W0 & W1 & _).
  - apply Qlt_shift_div_l; lra.
  - apply Qle_shift_div_r; [lra |]. unfold below24, below360 in *. lra.
  - pose proof headroom. pose proof (pow2_pos 970). unfold below24. lra.
  - rewrite Ew. cbn [floor]. exists (Qfloor w). split; [| left; reflexivity].
    split.
    + apply (Qfloor_resp_le 0 w) in W0. exact W0.
    + assert (A : (inject_Z (Qfloor w) < inject_Z 24)%Q).
      { pose proof (Qfloor_le w). unfold below24 in W1.
        change (inject_Z 24) with 24%Q. lra. }
      rewrite <- Zlt_Qlt in A. lia.
Qed.

Lemma sub_fin_315 (q : Q) :
  sub (Fin q) (Fin 315)
  = if Qeq_bool (q + - 315) 0
    then zero (negb (Qle_bool 0 q) && true)
    else round64 (q + - 315).
Proof. reflexivity. Qed.

Lemma sub_negzero_315 : sub NegZero (Fin 315) = Fin (- 315).
Proof. vm_compute. reflexivity. Qed.

(** Subtracting 315 from a double never leaves a tiny negative number. *)
Lemma sub_315_double (q : Q) :
  isDouble (Fin q) ->
  exists x, sub (Fin q) (Fin 315) = Fin x
            /\ (onGrid44 x \/ (-256 < x /\ x < 256)%Q)
            /\ (x <= - (1 # 17592186044416) \/ 0 <= x)%Q.
Proof.
  intros [R B]. pose proof (double_max q R B) as M.
  pose proof headroom as Hd. pose proof (pow2_pos 970) as P970.
  assert (E971 : (pow2 971 == 2 * pow2 970)%Q) by apply pow2_1024_split.
  pose proof pow2_970_big as Big.
  assert (Grid : forall x, isDouble (Fin x) -> onGrid44 x \/ (-256 < x /\ x < 256)%Q).
  { intros x [Rx _]. destruct (Qlt_le_dec x 256); [| left; apply double_grid; auto].
    destruct (Qlt_le_dec (-256) x); [right; split; assumption |].
    left. apply double_grid; auto. }
  rewrite sub_fin_315.
  destruct (Qeq_bool (q + - 315) 0) eqn:Z0.
  { apply Qeq_bool_iff in Z0.
    replace (Qle_bool 0 q) with true by (symmetry; apply Qle_bool_iff; lra).
    exists 0%Q. cbn. split; [reflexivity | split; [right |]; lra]. }
  apply Qeq_bool_false in Z0.
  destruct (Qlt_le_dec (q + - 315) 0) as [N | P].
  - (* below 315 *)
    assert (Bq : (- q < pow2 1024 - pow2 970 - 400)%Q).
    { destruct (Qlt_le_dec q 0) as [Nq | Pq].
      - rewrite Qabs_neg in M by lra. lra.
      - lra. }
    destruct (Qlt_le_dec q 256) as [Small | Large].
    + destruct (round64_neg_le (q + - 315) 59) as (v & Ev & V & D).
      * apply (representable_Z 59). lia.
      * lra.
      * lra.
      * lra.
      * exists v. split; [exact Ev | split; [now apply Grid | left; lra]].
    + assert (G : onGrid44 (q + - 315)).
      { apply onGrid44_plus; [apply double_grid; auto | apply (onGrid44_Z (-315))]. }
      pose proof (onGrid44_lt _ 0 G N) as L0. change (inject_Z 0) with 0%Q in L0.
      destruct (round64_neg_le (q + - 315) (1 # 17592186044416)) as (v & Ev & V & D).
      * exists 1, (-44). split; [reflexivity | lia].
      * lra.
      * lra.
      * lra.
      * exists v. split; [exact Ev | split; [now apply Grid | left; lra]].
  - destruct (round64_pos_any (q + - 315)) as (v & Ev & V & D).
    + lra.
    + destruct (Qlt_le_dec q 0) as [Nq | Pq]; [lra |].
      rewrite Qabs_pos in M by lra. lra.
    + exists v. split; [exact Ev | split; [now apply Grid | right; lra]].
Qed.

(** For every finite double the index is a whole number of 0..23. *)
Lemma termIndexFromElon_double (elon : Number) :
  finite elon = true -> isDouble elon ->
  exists i, 0 <= i <= 23 /\ isWhole (termIndexFromElon elon) i.
Proof.
  intros F D. unfold termIndexFromElon. cbv zeta.
  apply index_of_norm.
  destruct elon as [| s | | q]; try discriminate.
  - rewrite sub_negzero_315. right. vm_compute. eexists. split; [reflexivity |].
    split; discriminate.
  - destruct (sub_315_double q D) as (x & -> & G & S).
    now apply norm360_fin.
Qed.

(** Whatever the degree, [norm360] gives a value from 0 up to 360, the
    bound included. *)
Lemma norm360_range (x : Q) :
  norm360 (Fin x) = NegZero
  \/ exists v, norm360 (Fin x) = Fin v /\ (0 <= v)%Q /\ (v <= 360)%Q.
Proof.
  unfold norm360. cbv zeta. rewrite rem_fin.
  destruct (Qeq_bool x 0) eqn:Z0.
  { apply Qeq_bool_iff in Z0. rewrite lt_fin_0.
    replace (Qle_bool 0 x) with true by (symmetry; apply Qle_bool_iff; lra).
    right. exists x. cbn [negb]. split; [reflexivity | lra]. }
  destruct (Qrem_360_bounds x) as [Bp Bn].
  assert (B : (-360 < Qrem x 360 /\ Qrem x 360 < 360)%Q).
  { destruct (Qlt_le_dec x 0) as [N | P].
    - destruct Bn as [B1 B2]; lra.
    - destruct Bp as [B1 B2]; lra. }
  destruct (Qeq_bool (Qrem x 360) 0) eqn:Zr.
  { destruct (Qle_bool 0 x); cbn [negb zero].
    - right. exists 0%Q. split; [reflexivity | lra].
    - left. reflexivity. }
  apply Qeq_bool_false in Zr. rewrite lt_fin_0.
  pose proof (Qred_correct (Qrem x 360)) as E.
  destruct (Qle_bool 0 (Qred (Qrem x 360))) eqn:Sg; cbn [negb].
  - apply Qle_bool_iff in Sg. right. exists (Qred (Qrem x 360)).
    split; [reflexivity | lra].
  - apply Qle_bool_false in Sg. rewrite add_fin.
    replace (Qeq_bool (Qred (Qrem x 360) + 360) 0) with false
      by (symmetry; apply Qeq_bool_false; lra).
    destruct (round64_upto (Qred (Qrem x 360) + 360) 360) as (v & Ev & V0 & V1 & _).
    + apply (representable_Z 360). lia.
    + lra.
    + lra.
    + pose proof headroom. pose proof (pow2_pos 970). lra.
    + right. exists v. rewrite Ev. split; [reflexivity | lra].
Qed.

End DoubleFacts.

Import DoubleFacts.

(* ------------------------------------------------------------------ *)
(** ** Degrees *)

(** What [round64] returns is a double. *)
Lemma round64_isDouble (q : Q) : isDouble (Double.round64 q).
Proof.
  unfold Double.round64.
  destruct (Qcompare_spec q 0) as [E | N | P].
  - split; [apply representable_0 | change (0 < Double.pow2 1024)%Q; apply pow2_pos].
  - destruct (Qle_bool (Double.pow2 1024) (Double.roundPos (- q))) eqn:O; [exact I |].
    destruct (Qeq_bool (Double.roundPos (- q)) 0); [exact I |].
    apply Qle_bool_false in O.
    pose proof (roundPos_nonneg (- q) ltac:(lra)) as N0.
    pose proof (Qred_correct (- Double.roundPos (- q))) as E.
    split.
    + apply (representable_comp (- Double.roundPos (- q))); [now symmetry |].
      apply representable_opp, roundPos_representable. lra.
    + apply Qabs_case; intros; lra.
  - destruct (Qle_bool (Double.pow2 1024) (Double.roundPos q)) eqn:O; [exact I |].
    apply Qle_bool_false in O.
    pose proof (roundPos_nonneg q P) as N0.
    pose proof (Qred_correct (Double.roundPos q)) as E.
    split.
    + apply (representable_comp (Double.roundPos q)); [now symmetry |].
      now apply roundPos_representable.
    + apply Qabs_case; intros; lra.
Qed.

Lemma tinyNegative_isDouble : isDouble tinyNegative.
Proof. apply (round64_isDouble (- (1 # 100000000000000000000))). Qed.

Lemma justBelow15_isDouble : isDouble justBelow15.
Proof. apply (round64_isDouble (14999999999999998 # 1000000000000000)). Qed.

Lemma norm360_between (elon : Number) :
  finite elon = true -> between 0 360 (norm360 elon).
Proof.
  destruct elon as [| s | | q]; try discriminate; intros _.
  - vm_compute. split; discriminate.
  - destruct (norm360_range q) as [-> | (v & -> & V0 & V1)].
    + cbn. split; lra.
    + cbn. split; assumption.
Qed.

(** C8, as the code has it.  [termIndexFromElon] is
    [Math.floor(norm360(elon - 315) / 15)] in double arithmetic; on every
    finite double it returns a whole number of 0..23 (-0 for 0), and
    [norm360] a value from 0 up to 360, the bound included; on NaN and
    the infinities both return NaN. *)
Theorem termIndexFromElon_total_in_range (elon : Number) :
  isDouble elon ->
  termIndexFromElon elon
  = Double.floor (Double.div (norm360 (Double.sub elon (Fin 315))) (Fin 15))
  /\ (finite elon = true ->
      (exists i, 0 <= i <= 23 /\ isWhole (termIndexFromElon elon) i)
      /\ between 0 360 (norm360 elon))
  /\ (finite elon = false -> termIndexFromElon elon = NaN /\ norm360 elon = NaN).
Proof.
  intros D. split; [reflexivity | split].
  - intros F. split; [now apply termIndexFromElon_double | now apply norm360_between].
  - destruct elon as [| [|] | | q]; try discriminate; intros _; split; reflexivity.
Qed.

(** The double -1e-20 is normalised to 360 itself, outside [0, 360), and
    the double next below 15 maps to index 4, where the exact formula
    gives 3. *)
Lemma norm360_reaches_360 :
  isDouble tinyNegative /\ finite tinyNegative = true
  /\ norm360 tinyNegative = Fin 360
  /\ ~ (exists v, norm360 tinyNegative = Fin v /\ (v < 360)%Q)
  /\ isDouble justBelow15
  /\ termIndexFromElon justBelow15 = Fin 4
  /\ termIndexFromLongitude_spec (Double.value justBelow15) = 3.
Proof.
  split; [exact tinyNegative_isDouble | split; [reflexivity |]].
  assert (E : norm360 tinyNegative = Fin 360) by (vm_compute; reflexivity).
  split; [exact E | split].
  - intros (v & Hv & L). rewrite E in Hv. injection Hv as <-. lra.
  - split; [exact justBelow15_isDouble |].
    split; vm_compute; reflexivity.
Qed.

Lemma termIndexFromElon_total_in_range_witness :
  isDouble justBelow15
  /\ exists i, 0 <= i <= 23 /\ isWhole (termIndexFromElon justBelow15) i.
Proof.
  split; [exact justBelow15_isDouble |].
  exact (proj1 (proj1 (proj2 (termIndexFromElon_total_in_range justBelow15
                                justBelow15_isDouble)) eq_refl)).
Defined.

(* ------------------------------------------------------------------ *)
(** ** Minutes, days and Dates *)

Lemma MS_PER_MIN_value : MS_PER_MIN = 60000.
Proof. reflexivity. Qed.

Lemma MS_PER_DAY_value : MS_PER_DAY = 86400000.
Proof. reflexivity. Qed.

Lemma inTimeRange_iff (ms : Z) :
  inTimeRange ms = true <-> firstInstant <= ms <= lastInstant.
Proof. unfold inTimeRange, firstInstant, lastInstant. rewrite Z.leb_le. lia. Qed.

(** A Date with a time value is [DateAt] of it. *)
Lemma getTime_Some (d : Date) (t : Z) :
  getTime d = Some t <-> d = DateAt t /\ inTimeRange t = true.
Proof.
  destruct d as [| ms]; cbn [getTime].
  - split; [discriminate | intros [H _]; discriminate].
  - destruct (inTimeRange ms) eqn:R.
    + split; [intros H; injection H as <-; now split |].
      intros [H _]. now injection H as <-.
    + split; [discriminate |]. intros [H R']. injection H as <-. congruence.
Qed.

Lemma getTime_DateAt (t : Z) : inTimeRange t = true -> getTime (DateAt t) = Some t.
Proof. intros H. cbn [getTime]. now rewrite H. Qed.

Lemma newDate_DateAt (t : Z) : inTimeRange t = true -> newDate (Some t) = DateAt t.
Proof. intros H. cbn [newDate]. now rewrite H. Qed.

(** [new Date] gives back a Date its time value was read of. *)
Lemma newDate_getTime (d : Date) (t : Z) : getTime d = Some t -> newDate (Some t) = d.
Proof. intros H. apply getTime_Some in H. destruct H as [-> R]. now apply newDate_DateAt. Qed.

(** Flooring to the minute: a multiple of a minute, at most the instant
    and less than a minute below it. *)
Lemma floor_minute_bounds (ms : Z) :
  ms / MS_PER_MIN * MS_PER_MIN <= ms < ms / MS_PER_MIN * MS_PER_MIN + MS_PER_MIN
  /\ (ms / MS_PER_MIN * MS_PER_MIN) mod MS_PER_MIN = 0.
Proof.
  rewrite MS_PER_MIN_value. split.
  - pose proof (Z.mod_pos_bound ms 60000 ltac:(lia)).
    pose proof (Z.div_mod ms 60000 ltac:(lia)). lia.
  - apply Z.mod_mul. lia.
Qed.

Lemma floor_minute_mono (a b : Z) :
  a <= b -> a / MS_PER_MIN * MS_PER_MIN <= b / MS_PER_MIN * MS_PER_MIN.
Proof.
  intros H. rewrite MS_PER_MIN_value.
  pose proof (Z.div_le_mono a b 60000 ltac:(lia) H). lia.
Qed.


(** The first instant is a whole minute, so flooring stays in range. *)
Lemma floor_minute_in_range (ms : Z) :
  inTimeRange ms = true -> inTimeRange (ms / MS_PER_MIN * MS_PER_MIN) = true.
Proof.
  rewrite !inTimeRange_iff. intros [L U].
  pose proof (floor_minute_bounds ms) as [B _].
  pose proof (floor_minute_mono firstInstant ms L) as M.
  unfold firstInstant, lastInstant in *. rewrite MS_PER_MIN_value in *.
  change (-8640000000000000 / 60000 * 60000) with (-8640000000000000) in M. lia.
Qed.

Lemma floorToMinute_at (ms : Z) :
  inTimeRange ms = true ->
  floorToMinute (DateAt ms) = DateAt (ms / MS_PER_MIN * MS_PER_MIN).
Proof.
  intros R. unfold floorToMinute. rewrite (getTime_DateAt ms R).
  apply newDate_DateAt. now apply floor_minute_in_range.
Qed.

Lemma floorToMinute_invalid (d : Date) :
  getTime d = None -> floorToMinute d = InvalidDate.
Proof. intros H. unfold floorToMinute. now rewrite H. Qed.

Lemma wholeMinute_mod (t : Z) :
  inTimeRange t = true -> (wholeMinute (DateAt t) <-> t mod MS_PER_MIN = 0).
Proof.
  intros R. unfold wholeMinute, getUTCSeconds, getUTCMilliseconds.
  rewrite (getTime_DateAt t R). cbn [option_map].
  rewrite MS_PER_MIN_value.
  pose proof (Z.div_mod t 1000 ltac:(lia)) as D1.
  pose proof (Z.mod_pos_bound t 1000 ltac:(lia)) as B1.
  pose proof (Z.div_mod (t / 1000) 60 ltac:(lia)) as D2.
  pose proof (Z.mod_pos_bound (t / 1000) 60 ltac:(lia)) as B2.
  pose proof (Z.div_mod t 60000 ltac:(lia)) as D3.
  pose proof (Z.mod_pos_bound t 60000 ltac:(lia)) as B3.
  split.
  - intros [Hs Hm]. injection Hs as Hs. injection Hm as Hm. lia.
  - intros H. split; f_equal; lia.
Qed.

Lemma floorToMinute_wholeMinute (b : Z) :
  inTimeRange b = true ->
  wholeMinute (floorToMinute (DateAt b))
  /\ exists m, floorToMinute (DateAt b) = DateAt m /\ m <= b < m + MS_PER_MIN.
Proof.
  intros R. rewrite (floorToMinute_at b R). split.
  - apply wholeMinute_mod; [now apply floor_minute_in_range |].
    apply floor_minute_bounds.
  - eexists. split; [reflexivity |]. apply floor_minute_bounds.
Qed.

(* ------------------------------------------------------------------ *)
(** ** The table and the index steps *)

(** Checking a property on the 24 table indices. *)
Lemma on_table (P : Z -> bool) :
  forallb P tableIndices = true -> forall i, 0 <= i <= 23 -> P i = true.
Proof.
  intros H i Hi. rewrite forallb_forall in H. apply H.
  unfold tableIndices. apply in_map_iff. exists (Z.to_nat i).
  split; [lia | apply in_seq; lia].
Qed.

Lemma identical_eq (a b : Number) : identical a b = true -> a = b.
Proof.
  destruct a as [| s | | [p1 q1]], b as [| s' | | [p2 q2]]; cbn; try discriminate;
    try reflexivity.
  - intros H. apply Bool.eqb_prop in H. now subst.
  - intros H. apply andb_true_iff in H. destruct H as [H1 H2].
    apply Z.eqb_eq in H1. apply Pos.eqb_eq in H2. now subst.
Qed.

Lemma prevIdx_range (idx : Z) : 0 <= idx <= 23 -> 0 <= prevIdx idx <= 23.
Proof.
  intros H.
  pose proof (Z.rem_bound_pos (idx + 23) 24 ltac:(lia) ltac:(lia)). lia.
Qed.

Lemma nextIdx_range (idx : Z) : 0 <= idx <= 23 -> 0 <= nextIdx idx <= 23.
Proof.
  intros H.
  pose proof (Z.rem_bound_pos (idx + 1) 24 ltac:(lia) ltac:(lia)). lia.
Qed.

(** On table indices the JS remainder is the modulus. *)
Lemma prevIdx_mod (idx : Z) : 0 <= idx <= 23 -> prevIdx idx = (idx + 23) mod 24.
Proof. intros H. apply Z.rem_mod_nonneg; lia. Qed.

Lemma prevIdx_nextIdx (idx : Z) : 0 <= idx <= 23 -> prevIdx (nextIdx idx) = idx.
Proof.
  intros H. apply Z.eqb_eq.
  apply (on_table (fun i => prevIdx (nextIdx i) =? i)); [reflexivity | exact H].
Qed.

Lemma nextIdx_prevIdx (idx : Z) : 0 <= idx <= 23 -> nextIdx (prevIdx idx) = idx.
Proof.
  intros H. apply Z.eqb_eq.
  apply (on_table (fun i => nextIdx (prevIdx i) =? i)); [reflexivity | exact H].
Qed.

Lemma termAt_index (i : Z) :
  0 <= i <= 23 -> termAt (indexNumber i) = Some (termOf i).
Proof.
  intros H. unfold termAt, indexNumber, arrayIndex.
  rewrite Qfloor_Z.
  replace (Qeq_bool (inject_Z i) (inject_Z i)) with true
    by (symmetry; apply Qeq_bool_iff; reflexivity).
  replace (0 <=? i) with true by (symmetry; apply Z.leb_le; lia).
  cbn [andb]. unfold termOf. apply nth_error_nth'. simpl. lia.
Qed.

Lemma tableIndex_index (i : Z) :
  0 <= i <= 23 -> tableIndex (indexNumber i) = Some i.
Proof.
  intros H. unfold tableIndex, indexNumber, arrayIndex.
  rewrite Qfloor_Z.
  replace (Qeq_bool (inject_Z i) (inject_Z i)) with true
    by (symmetry; apply Qeq_bool_iff; reflexivity).
  replace (0 <=? i) with true by (symmetry; apply Z.leb_le; lia).
  cbn [andb].
  replace (Z.to_nat i <? 24)%nat with true by (symmetry; apply Nat.ltb_lt; lia).
  f_equal. lia.
Qed.

(** The index steps on the whole numbers of the table. *)
Lemma steps_on_table (i : Z) :
  0 <= i <= 23 ->
  Double.rem (Fin (Qred (inject_Z (i + 23)))) (Fin 24) = indexNumber (prevIdx i)
  /\ Double.rem (Fin (Qred (inject_Z (i + 1)))) (Fin 24) = indexNumber (nextIdx i).
Proof.
  intros H.
  pose proof (on_table
                (fun i => identical (Double.rem (Fin (Qred (inject_Z (i + 23)))) (Fin 24))
                                    (indexNumber (prevIdx i))
                          && identical (Double.rem (Fin (Qred (inject_Z (i + 1)))) (Fin 24))
                                       (indexNumber (nextIdx i)))
                ltac:(vm_compute; reflexivity) i H) as T.
  cbv beta in T. apply andb_true_iff in T. destruct T as [T1 T2].
  split; now apply identical_eq.
Qed.

(** Adding a small whole number to a whole number is exact. *)
Lemma add_whole (q : Q) (i k : Z) :
  (q == inject_Z i)%Q -> 0 < i + k < 2 ^ 53 ->
  Double.add (Fin q) (Fin (inject_Z k)) = Fin (Qred (inject_Z (i + k))).
Proof.
  intros E H. rewrite add_fin.
  assert (S : (q + inject_Z k == inject_Z (i + k))%Q) by (rewrite inject_Z_plus, E; reflexivity).
  assert (P : (0 < inject_Z (i + k))%Q) by (rewrite <- (Zlt_Qlt 0); lia).
  replace (Qeq_bool (q + inject_Z k) 0) with false
    by (symmetry; apply Qeq_bool_false; lra).
  rewrite round64_exact.
  - f_equal. now apply Qred_complete.
  - apply (representable_comp (inject_Z (i + k))); [now symmetry |].
    apply representable_Z. lia.
  - rewrite S, Qabs_pos by lra.
    assert (U : (inject_Z (i + k) < inject_Z (2 ^ 53))%Q) by (rewrite <- Zlt_Qlt; lia).
    rewrite <- (pow2_inject 53) in U by lia.
    pose proof (pow2_lt 53 1024 ltac:(lia)). lra.
Qed.

(** A number under which the table has an entry: the entry, and where
    the two index steps lead from it. *)
Lemma table_entry (x : Number) (i : Z) :
  tableIndex x = Some i ->
  0 <= i <= 23 /\ termAt x = Some (termOf i)
  /\ stepBack x = indexNumber (prevIdx i) /\ stepForward x = indexNumber (nextIdx i).
Proof.
  unfold tableIndex. destruct (arrayIndex x) as [n |] eqn:A; [| discriminate].
  destruct (n <? 24)%nat eqn:L; [| discriminate].
  intros H. injection H as <-. apply Nat.ltb_lt in L.
  split; [lia |]. split.
  { unfold termAt. rewrite A. unfold termOf. rewrite Nat2Z.id.
    apply nth_error_nth'. simpl. lia. }
  destruct x as [| s | | q]; try discriminate.
  - injection A as <-. split; vm_compute; reflexivity.
  - cbn [arrayIndex] in A.
    destruct (Qeq_bool q (inject_Z (Qfloor q)) && (0 <=? Qfloor q)) eqn:C; [| discriminate].
    injection A as <-. apply andb_true_iff in C. destruct C as [E P].
    apply Qeq_bool_iff in E. apply Z.leb_le in P.
    rewrite Z2Nat.id by exact P.
    assert (R : 0 <= Qfloor q <= 23) by lia.
    destruct (steps_on_table (Qfloor q) R) as [B F].
    unfold stepBack, stepForward.
    change (Fin 23) with (Fin (inject_Z 23)). change (Fin 1) with (Fin (inject_Z 1)).
    rewrite (add_whole q (Qfloor q) 23 E) by lia.
    rewrite (add_whole q (Qfloor q) 1 E) by lia.
    split; assumption.
Qed.

Lemma no_table_entry (x : Number) : tableIndex x = None -> termAt x = None.
Proof.
  unfold tableIndex, termAt. destruct (arrayIndex x) as [n |]; [| reflexivity].
  destruct (n <? 24)%nat eqn:L; [discriminate |]. intros _.
  apply Nat.ltb_ge in L. apply nth_error_None. simpl. exact L.
Qed.

Lemma steps_of_index (i : Z) :
  0 <= i <= 23 ->
  stepBack (indexNumber i) = indexNumber (prevIdx i)
  /\ stepForward (indexNumber i) = indexNumber (nextIdx i).
Proof.
  intros H. destruct (table_entry _ _ (tableIndex_index i H)) as (_ & _ & B & F).
  now split.
Qed.

(** Each table longitude is a fixed point of [norm360] and maps back to
    its index. *)
Lemma table_longitudes (i : Z) :
  0 <= i <= 23 ->
  norm360 (lonOf i) = lonOf i /\ termIndexFromElon (lonOf i) = indexNumber i.
Proof.
  intros H.
  pose proof (on_table
                (fun i => identical (norm360 (lonOf i)) (lonOf i)
                          && identical (termIndexFromElon (lonOf i)) (indexNumber i))
                ltac:(vm_compute; reflexivity) i H) as T.
  cbv beta in T. apply andb_true_iff in T. destruct T as [T1 T2].
  split; now apply identical_eq.
Qed.
(* ------------------------------------------------------------------ *)
(** ** Boundary search *)

Section BoundarySearch.

Context {Raw : Type} (truthy : Raw -> bool) (DateOf : Raw -> Date).

(** [validAnswer] is the negation of the test of the code. *)
Lemma noValidDate_validAnswer lo st lim (a : @AstroValue Raw) :
  noValidDate (toDateFromAstroTime truthy DateOf a) = true
  <-> validAnswer truthy DateOf (CallSearch lo st lim (Some a)) = None.
Proof.
  unfold noValidDate, validAnswer, instantOf.
  destruct (toDateFromAstroTime truthy DateOf a) as [d |]; [| tauto].
  destruct (getTime d); simpl; split; congruence.
Qed.

(** A valid answer is a time value. *)
Lemma validAnswer_in_range (c : @OracleCall Raw) (b : Z) :
  validAnswer truthy DateOf c = Some b -> inTimeRange b = true.
Proof.
  destruct c as [| lo st lim [a |]]; try discriminate. cbn [validAnswer]. unfold instantOf.
  destruct (toDateFromAstroTime truthy DateOf a) as [d |]; [| discriminate].
  intros H. now apply getTime_Some in H.
Qed.

(** A call that threw brought no instant. *)
Lemma threw_no_answer (c : @OracleCall Raw) :
  threw c = true -> validAnswer truthy DateOf c = None.
Proof. destruct c as [d [a |] | lo st lim [a |]]; try discriminate; reflexivity. Qed.

(** The ways a boundary search can go, on any center Date. *)
Lemma find_general (o : @Oracle Raw) (targetLon : Number) (centerDate : Date) :
  let lo := norm360 targetLon in
  let start := newDate (numSub (getTime centerDate) (40 * MS_PER_DAY)) in
  let start2 := newDate (numSub (getTime centerDate) (200 * MS_PER_DAY)) in
  let primary := CallSearch lo start 80 (SearchSunLongitude o lo start 80) in
  let fallback := CallSearch lo start2 400 (SearchSunLongitude o lo start2 400) in
  findSunLongitudeEvent truthy DateOf o targetLon centerDate
  = match validAnswer truthy DateOf primary with
    | Some b => ([primary], inr (DateAt b))
    | None =>
        if threw primary then ([primary], inl OracleError)
        else
          ([primary; fallback],
           match validAnswer truthy DateOf fallback with
           | Some b => inr (DateAt b)
           | None => inl (if threw fallback then OracleError else FindFailed targetLon)
           end)
    end.
Proof.
  cbv zeta.
  unfold findSunLongitudeEvent, validAnswer, threw, instantOf, callSearch, called,
    bind, ret, throw, noValidDate.
  set (start := newDate (numSub (getTime centerDate) (40 * MS_PER_DAY))).
  set (start2 := newDate (numSub (getTime centerDate) (200 * MS_PER_DAY))).
  destruct (SearchSunLongitude o (norm360 targetLon) start 80) as [v1 |];
    [| reflexivity].
  set (a1 := toDateFromAstroTime truthy DateOf v1).
  destruct a1 as [d1 |].
  - destruct (getTime d1) as [b1 |] eqn:G1; cbn [isNaN app].
    + rewrite G1. cbn [isNaN]. apply getTime_Some in G1. destruct G1 as [-> _].
      reflexivity.
    + destruct (SearchSunLongitude o (norm360 targetLon) start2 400) as [v2 |];
        [| reflexivity].
      cbn [app]. destruct (toDateFromAstroTime truthy DateOf v2) as [d2 |];
        [| reflexivity].
      destruct (getTime d2) as [b2 |] eqn:G2; cbn [isNaN]; [| reflexivity].
      apply getTime_Some in G2. destruct G2 as [-> _]. reflexivity.
  - cbn [app].
    destruct (SearchSunLongitude o (norm360 targetLon) start2 400) as [v2 |];
      [| reflexivity].
    cbn [app]. destruct (toDateFromAstroTime truthy DateOf v2) as [d2 |];
      [| reflexivity].
    destruct (getTime d2) as [b2 |] eqn:G2; cbn [isNaN]; [| reflexivity].
    apply getTime_Some in G2. destruct G2 as [-> _]. reflexivity.
Qed.

Lemma find_eq (o : @Oracle Raw) (targetLon : Number) (center : Z) :
  inTimeRange center = true ->
  findSunLongitudeEvent truthy DateOf o targetLon (DateAt center)
  = (searchCalls truthy DateOf o targetLon center,
     match boundary truthy DateOf o targetLon center with
     | Some b => inr (DateAt b)
     | None => inl (failure o targetLon center)
     end).
Proof.
  intros R. rewrite find_general. cbv zeta.
  rewrite (getTime_DateAt center R). cbn [numSub].
  unfold searchCalls, boundary, failure, primaryCall, fallbackCall. cbv zeta.
  destruct (validAnswer truthy DateOf (CallSearch _ _ 80 _)); [reflexivity |].
  destruct (threw (CallSearch _ _ 80 _)); [reflexivity |].
  destruct (validAnswer truthy DateOf (CallSearch _ _ 400 _)); reflexivity.
Qed.

Lemma boundary_in_range (o : @Oracle Raw) (targetLon : Number) (t b : Z) :
  boundary truthy DateOf o targetLon t = Some b -> inTimeRange b = true.
Proof.
  unfold boundary.
  destruct (validAnswer truthy DateOf (primaryCall o targetLon t)) as [b1 |] eqn:P.
  - intros H. injection H as <-. now apply validAnswer_in_range in P.
  - destruct (threw (primaryCall o targetLon t)); [discriminate |].
    apply validAnswer_in_range.
Qed.

Lemma yields_boundary (o : @Oracle Raw) (targetLon : Number) (t b : Z) :
  inTimeRange t = true ->
  (yields truthy DateOf o targetLon t b
   <-> boundary truthy DateOf o targetLon t = Some b).
Proof.
  intros R. unfold yields. rewrite (find_eq o targetLon t R). cbn [outcome snd].
  destruct (boundary truthy DateOf o targetLon t); split; intros H;
    try discriminate; inversion H; reflexivity.
Qed.

(** C4, as the code has it.  A boundary search for [targetLon] centred on
    [centerDate] first asks the oracle for the 80 days from
    [new Date(center - 40 days)]: the instant 40 days before the center
    when that is a time value, an Invalid Date when it lies before the
    first one.  When the answer is a valid instant it is returned and
    nothing else is asked; when the call throws, so does the search;
    otherwise the oracle is asked once more, for the 400 days from
    [new Date(center - 200 days)], and the search returns that instant
    when valid, throws what that call threw, and else fails with the
    error that names [targetLon]. *)
Theorem findSunLongitudeEvent_windows
        (o : @Oracle Raw) (targetLon : Number) (centerDate : Date) :
  let lo := norm360 targetLon in
  let search := SearchSunLongitude o lo in
  let start := newDate (numSub (getTime centerDate) (40 * MS_PER_DAY)) in
  let start2 := newDate (numSub (getTime centerDate) (200 * MS_PER_DAY)) in
  let primary := CallSearch lo start 80 (search start 80) in
  let fallback := CallSearch lo start2 400 (search start2 400) in
  let run := findSunLongitudeEvent truthy DateOf o targetLon centerDate in
  40 * MS_PER_DAY = 3456000000 /\ 200 * MS_PER_DAY = 17280000000
  /\ (forall c, getTime centerDate = Some c ->
        (firstInstant <= c - 40 * MS_PER_DAY -> start = DateAt (c - 40 * MS_PER_DAY))
        /\ (c - 40 * MS_PER_DAY < firstInstant -> start = InvalidDate)
        /\ (firstInstant <= c - 200 * MS_PER_DAY -> start2 = DateAt (c - 200 * MS_PER_DAY))
        /\ (c - 200 * MS_PER_DAY < firstInstant -> start2 = InvalidDate))
  /\ match validAnswer truthy DateOf primary with
     | Some b => run = ([primary], inr (DateAt b))
     | None =>
         if threw primary then run = ([primary], inl OracleError)
         else
           trace run = [primary; fallback] /\
           match validAnswer truthy DateOf fallback with
           | Some b => outcome run = inr (DateAt b)
           | None =>
               if threw fallback then outcome run = inl OracleError
               else outcome run = inl (FindFailed targetLon)
           end
     end.
Proof.
  cbv zeta. split; [reflexivity | split; [reflexivity | split]].
  - intros c Hc. rewrite Hc. cbn [numSub newDate].
    apply getTime_Some in Hc. destruct Hc as [_ R]. apply inTimeRange_iff in R.
    rewrite !MS_PER_DAY_value. unfold firstInstant, lastInstant in *.
    repeat split; intros H.
    + replace (inTimeRange (c - 40 * 86400000)) with true; [reflexivity |].
      symmetry. apply inTimeRange_iff. unfold firstInstant, lastInstant. lia.
    + replace (inTimeRange (c - 40 * 86400000)) with false; [reflexivity |].
      symmetry. apply not_true_iff_false. rewrite inTimeRange_iff.
      unfold firstInstant, lastInstant. lia.
    + replace (inTimeRange (c - 200 * 86400000)) with true; [reflexivity |].
      symmetry. apply inTimeRange_iff. unfold firstInstant, lastInstant. lia.
    + replace (inTimeRange (c - 200 * 86400000)) with false; [reflexivity |].
      symmetry. apply not_true_iff_false. rewrite inTimeRange_iff.
      unfold firstInstant, lastInstant. lia.
  - rewrite find_general. cbv zeta.
    destruct (validAnswer truthy DateOf (CallSearch _ _ 80 _)); [reflexivity |].
    destruct (threw (CallSearch _ _ 80 _)); [reflexivity |].
    split; [reflexivity |].
    destruct (validAnswer truthy DateOf (CallSearch _ _ 400 _)); [reflexivity |].
    destruct (threw (CallSearch _ _ 400 _)); reflexivity.
Qed.

Lemma searchCalls_shape (o : @Oracle Raw) (targetLon : Number) (t : Z) :
  (1 <= List.length (searchCalls truthy DateOf o targetLon t) <= 2)%nat
  /\ forallb isSearch (searchCalls truthy DateOf o targetLon t) = true.
Proof.
  unfold searchCalls.
  destruct (validAnswer truthy DateOf (primaryCall o targetLon t)); [simpl; lia |].
  destruct (threw (primaryCall o targetLon t)); simpl; lia.
Qed.

Lemma searches_shape (o : @Oracle Raw) (t : Z) (idxs : list Z) :
  (List.length (searches truthy DateOf o t idxs) <= 2 * List.length idxs)%nat
  /\ forallb isSearch (searches truthy DateOf o t idxs) = true.
Proof.
  induction idxs as [| i rest [IHl IHs]]; [simpl; split; [lia | reflexivity] |].
  cbn [searches]. destruct (searchCalls_shape o (lonOf i) t) as [Hl Hs].
  rewrite length_app, forallb_app, Hs.
  destruct (boundary truthy DateOf o (lonOf i) t); cbn [List.length forallb andb];
    split; try reflexivity; try assumption; lia.
Qed.

(** When no search of a plan fails, each of them found its boundary. *)
Lemma firstFailure_none (o : @Oracle Raw) (t : Z) (idxs : list Z) :
  firstFailure truthy DateOf o t idxs = None ->
  forall i, In i idxs -> exists b, boundary truthy DateOf o (lonOf i) t = Some b.
Proof.
  induction idxs as [| j rest IH]; intros H i Hi; [contradiction |].
  cbn [firstFailure] in H.
  destruct (boundary truthy DateOf o (lonOf j) t) as [b |] eqn:E; [| discriminate].
  destruct Hi as [<- | Hi]; [now exists b | now apply IH].
Qed.

(** A fallback call that returned without a valid answer, among the
    calls of a plan, makes the plan fail, for the longitude that was
    asked. *)
Lemma searches_exhausted (o : @Oracle Raw) (t : Z) (idxs : list Z)
      (lo : Number) (st : Date) (a : AstroValue) :
  In (CallSearch lo st 400 (Some a)) (searches truthy DateOf o t idxs) ->
  validAnswer truthy DateOf (CallSearch lo st 400 (Some a)) = None ->
  exists l, firstFailure truthy DateOf o t idxs = Some (FindFailed l) /\ norm360 l = lo.
Proof.
  induction idxs as [| i rest IH]; intros Hin Hno; [contradiction |].
  cbn [searches firstFailure] in *.
  apply in_app_or in Hin. destruct Hin as [Hin | Hin].
  - unfold boundary, failure. unfold searchCalls in Hin.
    destruct (validAnswer truthy DateOf (primaryCall o (lonOf i) t)) eqn:P.
    + destruct Hin as [Hin | []]. unfold primaryCall in Hin. discriminate.
    + destruct (threw (primaryCall o (lonOf i) t)) eqn:T.
      * destruct Hin as [Hin | []]. unfold primaryCall in Hin. discriminate.
      * destruct Hin as [Hin | [Hin | []]]; [unfold primaryCall in Hin; discriminate |].
        rewrite Hin, Hno. cbn [threw]. exists (lonOf i). split; [reflexivity |].
        unfold fallbackCall in Hin. injection Hin as E _ _. exact E.
  - destruct (boundary truthy DateOf o (lonOf i) t); [now apply IH | contradiction].
Qed.

(** A call that threw, among the calls of a plan, makes the plan fail
    with what the oracle threw. *)
Lemma searches_thrown (o : @Oracle Raw) (t : Z) (idxs : list Z) (c : OracleCall) :
  In c (searches truthy DateOf o t idxs) -> threw c = true ->
  firstFailure truthy DateOf o t idxs = Some OracleError
  /\ exists pre, searches truthy DateOf o t idxs = pre ++ [c].
Proof.
  induction idxs as [| i rest IH]; intros Hin Hth; [contradiction |].
  cbn [searches firstFailure] in *.
  apply in_app_or in Hin. destruct Hin as [Hin | Hin].
  - unfold boundary, failure in *. unfold searchCalls in *.
    destruct (validAnswer truthy DateOf (primaryCall o (lonOf i) t)) eqn:P.
    + destruct Hin as [<- | []]. rewrite (threw_no_answer _ Hth) in P. discriminate.
    + destruct (threw (primaryCall o (lonOf i) t)) eqn:T.
      * destruct Hin as [<- | []]. split; [reflexivity |]. now exists [].
      * destruct Hin as [<- | [<- | []]]; [congruence |].
        rewrite (threw_no_answer _ Hth), Hth.
        split; [reflexivity |]. now exists [primaryCall o (lonOf i) t].
  - destruct (boundary truthy DateOf o (lonOf i) t) eqn:B; [| contradiction].
    destruct (IH Hin Hth) as [F [pre E]]. split; [exact F |].
    exists (searchCalls truthy DateOf o (lonOf i) t ++ pre).
    now rewrite E, app_assoc.
Qed.

End BoundarySearch.

(* ------------------------------------------------------------------ *)
(** ** The resolver as a plan of boundary searches *)

Section ResolverFacts.

Context {Raw : Type} (truthy : Raw -> bool) (DateOf : Raw -> Date).

Abbreviation run := (getSolarTermInfo truthy DateOf).

Lemma term_entry (x : Number) (tm : SolarTerm) :
  termAt x = Some tm -> @term Raw x = ret tm.
Proof. intros H. unfold term. now rewrite H. Qed.

Lemma plan_length (o : @Oracle Raw) (t i0 : Z) :
  (3 <= List.length (plan truthy DateOf o t i0) <= 4)%nat.
Proof. unfold plan. destruct (corrected truthy DateOf o t i0); simpl; lia. Qed.

Lemma currentIdx_in_plan (o : @Oracle Raw) (t i0 : Z) :
  In (currentIdx truthy DateOf o t i0) (plan truthy DateOf o t i0)
  /\ In (prevIdx (currentIdx truthy DateOf o t i0)) (plan truthy DateOf o t i0)
  /\ In (nextIdx (currentIdx truthy DateOf o t i0)) (plan truthy DateOf o t i0).
Proof.
  unfold plan, currentIdx.
  destruct (corrected truthy DateOf o t i0); cbn [app In];
    repeat split; repeat first [left; reflexivity | right].
Qed.

Lemma newDate_boundary (o : @Oracle Raw) (l : Number) (t b : Z) :
  boundary truthy DateOf o l t = Some b -> newDate (Some b) = DateAt b.
Proof. intros H. apply newDate_DateAt. now apply boundary_in_range in H. Qed.

(** The previous and the next boundary search and the assembly of the
    result, around the index number [x], which is the table index [i]. *)
Ltac adjacent_steps x i Hi Ht Hb Hf R :=
  let Ep := fresh "Ep" in
  let En := fresh "En" in
  change (Double.rem (Double.add x (Fin 23)) (Fin 24)) with (stepBack x);
  change (Double.rem (Double.add x (Fin 1)) (Fin 24)) with (stepForward x);
  rewrite Hb, Hf;
  rewrite (term_entry _ _ (termAt_index (prevIdx i) (prevIdx_range i Hi)));
  cbn [bind ret]; rewrite (find_eq truthy DateOf _ _ _ R);
  destruct (boundary truthy DateOf _ (lonOf (prevIdx i)) _) eqn:Ep;
  [| cbn [bind ret app]; rewrite !app_nil_r; reflexivity ];
  rewrite (term_entry _ _ (termAt_index (nextIdx i) (nextIdx_range i Hi)));
  cbn [bind ret]; rewrite (find_eq truthy DateOf _ _ _ R);
  destruct (boundary truthy DateOf _ (lonOf (nextIdx i)) _) eqn:En;
  [| cbn [bind ret app]; rewrite !app_nil_r; reflexivity ];
  rewrite (term_entry _ _ Ht);
  cbn [bind ret app]; rewrite !app_nil_r;
  rewrite ?(newDate_boundary _ _ _ _ Ep), ?(newDate_boundary _ _ _ _ En);
  reflexivity.

Lemma no_index_of_NaN : tableIndex (termIndexFromElon NaN) = None.
Proof. vm_compute. reflexivity. Qed.

(** The run on a present oracle and a valid instant. *)
Lemma run_valid (sp : Date -> option SunAnswer) (ssl : Number -> Date -> Z -> option AstroValue)
      (now : Date) (inputDate : Input) (t : Z) :
  getTime (coerce DateOf inputDate) = Some t ->
  run (AstronomyObject (Some sp) (Some ssl)) now inputDate
  = resolution truthy DateOf (mkOracle sp ssl) now t.
Proof.
  intros Hc. pose proof Hc as Hd. apply getTime_Some in Hd. destruct Hd as [Hd R].
  unfold getSolarTermInfo. rewrite Hd.
  cbn [assertAstronomy bind ret]. rewrite (getTime_DateAt t R).
  cbn [isNaN]. unfold callSunPosition, called. cbn [SunPosition].
  set (o := mkOracle sp ssl).
  unfold resolution, firstIdx, plan, assemble, currentIdx, corrected, elonAt, readError.
  cbn [SunPosition o].
  destruct (sp (DateAt t)) as [[| e] |].
  { rewrite no_index_of_NaN. reflexivity. }
  2:{ rewrite no_index_of_NaN. reflexivity. }
  cbn [readElon ret bind app].
  generalize (norm360 (toNumber e)). intros elon.
  generalize (termIndexFromElon elon). intros idx.
  destruct (tableIndex idx) as [i0 |] eqn:T.
  2:{ unfold term. rewrite (no_table_entry idx T). reflexivity. }
  destruct (table_entry idx i0 T) as (Hi & Ht & Hb & Hf).
  pose proof (prevIdx_range i0 Hi) as Hi1.
  rewrite (term_entry _ _ Ht). cbn [bind ret]. rewrite (find_eq truthy DateOf o _ _ R).
  destruct (boundary truthy DateOf o (lonOf i0) t) as [s0 |] eqn:E0.
  2:{ cbn [bind ret searches firstFailure app]. rewrite E0.
      rewrite !app_nil_r; reflexivity. }
  cbn [bind ret]. rewrite (getTime_DateAt s0 (boundary_in_range _ _ _ _ _ _ E0)).
  cbn [numGt].
  destruct (t <? s0) eqn:Hgt.
  - change (Double.rem (Double.add idx (Fin 23)) (Fin 24)) with (stepBack idx).
    rewrite Hb.
    rewrite (term_entry _ _ (termAt_index (prevIdx i0) Hi1)).
    cbn [bind ret fst snd]. rewrite (find_eq truthy DateOf o _ _ R).
    destruct (boundary truthy DateOf o (lonOf (prevIdx i0)) t) as [s1 |] eqn:E1.
    2:{ cbn [bind ret searches firstFailure app]. rewrite E0, E1.
        rewrite !app_nil_r; reflexivity. }
    cbn [bind ret fst snd app searches firstFailure]. rewrite E0, E1.
    destruct (steps_of_index (prevIdx i0) Hi1) as [Hb1 Hf1].
    pose proof (termAt_index (prevIdx i0) Hi1) as Ht1.
    rewrite ?(newDate_boundary _ _ _ _ E1).
    adjacent_steps (indexNumber (prevIdx i0)) (prevIdx i0) Hi1 Ht1 Hb1 Hf1 R.
  - cbn [bind ret fst snd app searches firstFailure]. rewrite E0.
    rewrite ?(newDate_boundary _ _ _ _ E0).
    adjacent_steps idx i0 Hi Ht Hb Hf R.
Qed.

(** Without a usable [Astronomy] the resolver throws and has asked the
    oracle nothing. *)
Lemma run_no_oracle (now : Date) (inputDate : Input) :
  run Undefined now inputDate = ([], inl MissingAstronomy)
  /\ (forall sp ssl, sp = None \/ ssl = None ->
        run (AstronomyObject sp ssl) now inputDate
        = ([], inl AstronomyFunctionsNotFound)).
Proof.
  split; [reflexivity |].
  intros sp ssl [-> | ->]; [| destruct sp]; reflexivity.
Qed.

Lemma run_invalid (sp : Date -> option SunAnswer) (ssl : Number -> Date -> Z -> option AstroValue)
      (now : Date) (inputDate : Input) :
  getTime (coerce DateOf inputDate) = None ->
  run (AstronomyObject (Some sp) (Some ssl)) now inputDate
  = ([], inl InvalidInputDate).
Proof.
  intros H. unfold getSolarTermInfo.
  cbn [assertAstronomy bind ret]. rewrite H. reflexivity.
Qed.

(** The shape of every run: nothing asked and an exception, whatever the
    clock reads, or a present oracle and a valid instant. *)
Lemma run_shape (g : AstronomyGlobal) (inputDate : Input) :
  (exists e, forall now, run g now inputDate = ([], inl e))
  \/ (exists sp ssl t,
        g = AstronomyObject (Some sp) (Some ssl)
        /\ getTime (coerce DateOf inputDate) = Some t).
Proof.
  destruct g as [| [sp |] [ssl |]];
    try (left; eexists; intros now; reflexivity).
  destruct (getTime (coerce DateOf inputDate)) as [t |] eqn:Hc.
  - right. now exists sp, ssl, t.
  - left. exists InvalidInputDate. intros now. now apply run_invalid.
Qed.

(** The calls of a resolution: the longitude read, then searches. *)
Lemma resolution_calls (o : @Oracle Raw) (now : Date) (t : Z) :
  exists calls,
    trace (resolution truthy DateOf o now t)
    = CallSunPosition (DateAt t) (SunPosition o (DateAt t)) :: calls
    /\ forallb isSearch calls = true /\ (List.length calls <= 8)%nat.
Proof.
  unfold resolution. destruct (firstIdx o t) as [i0 |].
  - exists (searches truthy DateOf o t (plan truthy DateOf o t i0)).
    cbn [trace fst].
    destruct (searches_shape truthy DateOf o t (plan truthy DateOf o t i0)) as [Hl Hs].
    pose proof (plan_length o t i0) as Hp.
    split; [reflexivity | split; [assumption | lia]].
  - exists []. cbn [trace fst]. split; [reflexivity | split; [reflexivity | simpl; lia]].
Qed.

(** A successful resolution: the oracle is present, the instant valid,
    the read maps to a table index, the result is assembled from the
    three boundaries found. *)
Lemma run_success (g : AstronomyGlobal) (now : Date) (inputDate : Input)
      (r : SolarTermInfo) :
  outcome (run g now inputDate) = inr r ->
  exists sp ssl t i0,
    g = AstronomyObject (Some sp) (Some ssl)
    /\ getTime (coerce DateOf inputDate) = Some t
    /\ firstIdx (mkOracle sp ssl) t = Some i0
    /\ r = assemble truthy DateOf (mkOracle sp ssl) now t i0
    /\ exists bc bp bn,
         let o := mkOracle sp ssl in
         let idx := currentIdx truthy DateOf o t i0 in
         boundary truthy DateOf o (lonOf idx) t = Some bc
         /\ boundary truthy DateOf o (lonOf (prevIdx idx)) t = Some bp
         /\ boundary truthy DateOf o (lonOf (nextIdx idx)) t = Some bn.
Proof.
  intros H.
  destruct (run_shape g inputDate) as [[e He] | (sp & ssl & t & -> & Hc)].
  - rewrite He in H. discriminate.
  - exists sp, ssl, t.
    rewrite (run_valid sp ssl now inputDate t Hc) in H.
    unfold resolution in H. set (o := mkOracle sp ssl) in *.
    destruct (firstIdx o t) as [i0 |] eqn:F0; [| discriminate].
    exists i0. cbn [outcome snd] in H.
    split; [reflexivity | split; [assumption | split; [reflexivity |]]].
    destruct (firstFailure truthy DateOf o t (plan truthy DateOf o t i0)) eqn:F;
      [discriminate |].
    split; [now inversion H |].
    destruct (currentIdx_in_plan o t i0) as (Ic & Ip & In').
    destruct (firstFailure_none truthy DateOf o t _ F _ Ic) as [bc Hbc].
    destruct (firstFailure_none truthy DateOf o t _ F _ Ip) as [bp Hbp].
    destruct (firstFailure_none truthy DateOf o t _ F _ In') as [bn Hbn].
    exists bc, bp, bn. cbv zeta.
    split; [exact Hbc | split; [exact Hbp | exact Hbn]].
Qed.

(** Under correct boundaries and a longitude read that maps to the term
    of [t] or to the term after it, the resolver settles on term [k] and
    finds its three boundaries. *)
Lemma correct_resolution (sp : Date -> option SunAnswer)
      (ssl : Number -> Date -> Z -> option AstroValue)
      (now : Date) (inputDate : Input) (t k bPrev bCur bNext : Z) :
  getTime (coerce DateOf inputDate) = Some t ->
  BoundariesCorrectAt truthy DateOf (mkOracle sp ssl) t k bPrev bCur bNext ->
  firstIdx (mkOracle sp ssl) t = Some k \/ firstIdx (mkOracle sp ssl) t = Some (nextIdx k) ->
  outcome (run (AstronomyObject (Some sp) (Some ssl)) now inputDate)
  = inr (mkInfo
           (Current.mk (name (termOf k)) (lonOf k)
                       (floorToMinute (DateAt bCur)) (floorToMinute (DateAt bNext)))
           (Adjacent.mk (name (termOf (prevIdx k))) (lonOf (prevIdx k))
                        (floorToMinute (DateAt bPrev)))
           (Adjacent.mk (name (termOf (nextIdx k))) (lonOf (nextIdx k))
                        (floorToMinute (DateAt bNext)))
           (Meta.mk (elonAt (mkOracle sp ssl) t) now)).
Proof.
  intros Hc [Hk [Hlo Hhi] _ Hcur Hprev Hnext] Hread.
  pose proof Hc as R. apply getTime_Some in R. destruct R as [_ R].
  apply (yields_boundary truthy DateOf _ _ _ _ R) in Hcur.
  apply (yields_boundary truthy DateOf _ _ _ _ R) in Hprev.
  apply (yields_boundary truthy DateOf _ _ _ _ R) in Hnext.
  rewrite (run_valid sp ssl now inputDate t Hc).
  unfold resolution. set (o := mkOracle sp ssl) in *. 
  pose proof (newDate_boundary _ _ _ _ Hcur) as Ncur.
  pose proof (newDate_boundary _ _ _ _ Hprev) as Nprev.
  pose proof (newDate_boundary _ _ _ _ Hnext) as Nnext.
  destruct Hread as [-> | ->]; cbn [outcome snd];
    unfold plan, assemble, currentIdx, corrected.
  - rewrite Hcur. replace (t <? bCur) with false by (symmetry; apply Z.ltb_ge; lia).
    cbn [app firstFailure]. rewrite Hcur, Hprev, Hnext, Ncur, Nprev, Nnext. reflexivity.
  - rewrite Hnext. replace (t <? bNext) with true by (symmetry; apply Z.ltb_lt; lia).
    rewrite (prevIdx_nextIdx k Hk).
    cbn [app firstFailure]. rewrite Hcur, Hprev, Hnext, Ncur, Nprev, Nnext. reflexivity.
Qed.

(** With a longitude read that still maps to the term before, the
    resolver keeps that term: its window ends where term [k] begins. *)
Lemma lagging_resolution (sp : Date -> option SunAnswer)
      (ssl : Number -> Date -> Z -> option AstroValue)
      (now : Date) (inputDate : Input) (t k bPrev bCur bNext : Z) (r : SolarTermInfo) :
  getTime (coerce DateOf inputDate) = Some t ->
  BoundariesCorrectAt truthy DateOf (mkOracle sp ssl) t k bPrev bCur bNext ->
  firstIdx (mkOracle sp ssl) t = Some (prevIdx k) ->
  outcome (run (AstronomyObject (Some sp) (Some ssl)) now inputDate) = inr r ->
  current r = Current.mk (name (termOf (prevIdx k))) (lonOf (prevIdx k))
                         (floorToMinute (DateAt bPrev)) (floorToMinute (DateAt bCur)).
Proof.
  intros Hc [Hk [Hlo Hhi] [Ap An] Hcur Hprev Hnext] Hread H.
  pose proof Hc as R. apply getTime_Some in R. destruct R as [_ R].
  apply (yields_boundary truthy DateOf _ _ _ _ R) in Hcur.
  apply (yields_boundary truthy DateOf _ _ _ _ R) in Hprev.
  apply (yields_boundary truthy DateOf _ _ _ _ R) in Hnext.
  rewrite (run_valid sp ssl now inputDate t Hc) in H.
  unfold resolution in H. set (o := mkOracle sp ssl) in *.
  rewrite Hread in H. cbn [outcome snd] in H.
  destruct (firstFailure truthy DateOf o t _); [discriminate |].
  injection H as <-.
  pose proof (newDate_boundary _ _ _ _ Hcur) as Ncur.
  pose proof (newDate_boundary _ _ _ _ Hprev) as Nprev.
  rewrite MS_PER_MIN_value in *.
  unfold assemble, currentIdx, corrected. cbv zeta. cbn [current].
  rewrite Hprev. replace (t <? bPrev) with false by (symmetry; apply Z.ltb_ge; lia).
  rewrite (nextIdx_prevIdx k Hk), Hprev, Hcur, Ncur, Nprev. reflexivity.
Qed.

(* ------------------------------------------------------------------ *)
(** ** Input validation and the number of oracle calls *)

(** C7.  When the coerced input has a NaN time value the resolver throws
    without having asked the oracle anything (no longitude read, no
    search); with [Astronomy] in place the exception is the invalid-input
    one. *)
Theorem invalid_input_rejected_before_oracle
        (g : AstronomyGlobal) (now : Date) (inputDate : Input) :
  getTime (coerce DateOf inputDate) = None ->
  trace (run g now inputDate) = []
  /\ (exists e, outcome (run g now inputDate) = inl e)
  /\ (forall sp ssl, g = AstronomyObject (Some sp) (Some ssl) ->
        outcome (run g now inputDate) = inl InvalidInputDate).
Proof.
  intros H.
  destruct (run_shape g inputDate) as [[e He] | (sp & ssl & t & _ & Hc)].
  - rewrite He. split; [reflexivity | split; [now exists e |]].
    intros sp ssl ->. specialize (He now).
    rewrite (run_invalid sp ssl now inputDate H) in He.
    now inversion He.
  - rewrite Hc in H. discriminate.
Qed.

(** C6, as the code has it.  A resolution asks the oracle at most 9
    times: one longitude read, then at most 8 search calls, two (primary
    and fallback) for each of at most four boundary searches: the
    current boundary (searched a second time, for the term before, when
    the self-correction fires), the previous and the next one. *)
Theorem oracle_calls_at_most_nine
        (g : AstronomyGlobal) (now : Date) (inputDate : Input) :
  (List.length (trace (run g now inputDate)) <= 9)%nat
  /\ (trace (run g now inputDate) = []
      \/ exists date answer calls,
           trace (run g now inputDate) = CallSunPosition date answer :: calls
           /\ forallb isSearch calls = true
           /\ (List.length calls <= 8)%nat).
Proof.
  destruct (run_shape g inputDate) as [[e He] | (sp & ssl & t & -> & Hc)].
  - rewrite He. simpl. split; [lia | now left].
  - rewrite (run_valid sp ssl now inputDate t Hc).
    destruct (resolution_calls (mkOracle sp ssl) now t) as (calls & -> & Hs & Hl).
    split; [cbn [List.length]; lia |].
    right. exists (DateAt t), (sp (DateAt t)), calls.
    repeat split; assumption.
Qed.

(* ------------------------------------------------------------------ *)
(** ** Minute truncation and the wall clock *)

(** C2, as the code has it.  In every result the four boundary times
    (current.startTime, current.endTime, previous.startTime,
    next.startTime) are the instants the boundary searches returned,
    floored to the minute: zero seconds, zero milliseconds, never above
    the instant and less than a minute below it.  meta.computedAt is the
    wall-clock reading as it is, not floored. *)
Theorem boundary_times_floored_to_minute
        (g : AstronomyGlobal) (now : Date) (inputDate : Input) (r : SolarTermInfo) :
  outcome (run g now inputDate) = inr r ->
  (exists sp ssl t bc bp bn,
      g = AstronomyObject (Some sp) (Some ssl)
      /\ coerce DateOf inputDate = DateAt t
      /\ yields truthy DateOf (mkOracle sp ssl) (Current.lon (current r)) t bc
      /\ yields truthy DateOf (mkOracle sp ssl) (Adjacent.lon (previous r)) t bp
      /\ yields truthy DateOf (mkOracle sp ssl) (Adjacent.lon (next r)) t bn
      /\ Current.startTime (current r) = floorToMinute (DateAt bc)
      /\ Current.endTime (current r) = floorToMinute (DateAt bn)
      /\ Adjacent.startTime (previous r) = floorToMinute (DateAt bp)
      /\ Adjacent.startTime (next r) = floorToMinute (DateAt bn))
  /\ wholeMinute (Current.startTime (current r))
  /\ wholeMinute (Current.endTime (current r))
  /\ wholeMinute (Adjacent.startTime (previous r))
  /\ wholeMinute (Adjacent.startTime (next r))
  /\ Meta.computedAt (meta r) = now.
Proof.
  intros H.
  destruct (run_success g now inputDate r H)
    as (sp & ssl & t & i0 & -> & Hc & _ & -> & bc & bp & bn & Hbc & Hbp & Hbn).
  cbv zeta in Hbc, Hbp, Hbn.
  pose proof Hc as R. apply getTime_Some in R. destruct R as [Hd R].
  unfold assemble; cbn [current previous next meta Current.startTime Current.endTime
                          Adjacent.startTime Current.lon Adjacent.lon Meta.computedAt].
  rewrite Hbc, Hbp, Hbn.
  rewrite (newDate_boundary _ _ _ _ Hbc), (newDate_boundary _ _ _ _ Hbp),
    (newDate_boundary _ _ _ _ Hbn).
  split.
  - exists sp, ssl, t, bc, bp, bn.
    repeat split; try assumption; try reflexivity;
      now apply (yields_boundary truthy DateOf _ _ _ _ R).
  - repeat split; apply floorToMinute_wholeMinute;
      eapply boundary_in_range; eassumption.
Qed.

(** C10.  Two resolutions of the same input against the same oracle,
    read at two clock instants, ask the oracle the same questions and
    either throw the same exception or return results that agree on
    current, previous, next and meta.sunEclipticLongitude;
    meta.computedAt is the clock reading of each. *)
Theorem deterministic_up_to_clock
        (g : AstronomyGlobal) (now1 now2 : Date) (inputDate : Input) :
  trace (run g now1 inputDate) = trace (run g now2 inputDate)
  /\ match outcome (run g now1 inputDate), outcome (run g now2 inputDate) with
     | inl e1, inl e2 => e1 = e2
     | inr r1, inr r2 =>
         sameButClock r1 r2
         /\ Meta.computedAt (meta r1) = now1 /\ Meta.computedAt (meta r2) = now2
     | _, _ => False
     end.
Proof.
  destruct (run_shape g inputDate) as [[e He] | (sp & ssl & t & -> & Hc)].
  - rewrite !He. now split.
  - rewrite !(run_valid sp ssl _ inputDate t Hc). unfold resolution.
    destruct (firstIdx (mkOracle sp ssl) t) as [i0 |]; [| now split].
    cbn [trace outcome fst snd]. split; [reflexivity |].
    destruct (firstFailure truthy DateOf _ t _); [reflexivity |].
    unfold sameButClock, assemble. cbn. tauto.
Qed.

(* ------------------------------------------------------------------ *)
(** ** Exhausted boundary searches *)

(** C5.  When, in a resolution, the primary and the fallback call of a
    boundary search both come back without a valid instant, the
    resolution throws the error of that search and returns no result.
    In particular, with an oracle whose searches never find anything
    every resolution throws, and on a valid instant whose longitude read
    maps to a table index it throws the boundary-not-found error of the
    first search (without such an index, the error of the read or of the
    table lookup). *)
Theorem exhausted_search_fails
        (g : AstronomyGlobal) (now : Date) (inputDate : Input) :
  (forall lo st1 a1 st2 a2,
      In (CallSearch lo st1 80 (Some a1)) (trace (run g now inputDate)) ->
      In (CallSearch lo st2 400 (Some a2)) (trace (run g now inputDate)) ->
      validAnswer truthy DateOf (CallSearch lo st1 80 (Some a1)) = None ->
      validAnswer truthy DateOf (CallSearch lo st2 400 (Some a2)) = None ->
      exists l, norm360 l = lo
                /\ outcome (run g now inputDate) = inl (FindFailed l))
  /\ (forall sp, g = AstronomyObject (Some sp) (Some notFound) ->
        (exists e, outcome (run g now inputDate) = inl e)
        /\ forall t, getTime (coerce DateOf inputDate) = Some t ->
             outcome (run g now inputDate)
             = inl (match firstIdx (mkOracle sp (@notFound Raw)) t with
                    | Some i0 => FindFailed (lonOf i0)
                    | None => readError (mkOracle sp (@notFound Raw)) t
                    end)).
Proof.
  split.
  - intros lo st1 a1 st2 a2 _ Hin _ Hno.
    destruct (run_shape g inputDate) as [[e He] | (sp & ssl & t & -> & Hc)].
    + rewrite He in Hin. contradiction.
    + rewrite (run_valid sp ssl now inputDate t Hc) in *.
      unfold resolution in *.
      destruct (firstIdx (mkOracle sp ssl) t) as [i0 |].
      * cbn [trace outcome fst snd] in *.
        destruct Hin as [Hin | Hin]; [discriminate |].
        destruct (searches_exhausted truthy DateOf _ _ _ _ _ _ Hin Hno) as (l & -> & Hl).
        now exists l.
      * cbn [trace fst] in Hin. destruct Hin as [Hin | []]. discriminate.
  - intros sp ->.
    assert (V : forall t, getTime (coerce DateOf inputDate) = Some t ->
                outcome (run (AstronomyObject (Some sp) (Some notFound))
                           now inputDate)
                = inl (match firstIdx (mkOracle sp (@notFound Raw)) t with
                       | Some i0 => FindFailed (lonOf i0)
                       | None => readError (mkOracle sp (@notFound Raw)) t
                       end)).
    { intros t Hc. rewrite (run_valid sp _ now inputDate t Hc).
      unfold resolution.
      destruct (firstIdx (mkOracle sp (@notFound Raw)) t) as [i0 |]; [| reflexivity].
      cbn [outcome snd]. unfold plan. cbn [firstFailure].
      reflexivity. }
    split; [| exact V].
    destruct (getTime (coerce DateOf inputDate)) as [t |] eqn:Hc.
    + eexists. now apply V.
    + exists InvalidInputDate.
      rewrite (run_invalid sp _ now inputDate); [reflexivity | exact Hc].
Qed.

(* ------------------------------------------------------------------ *)
(** ** Self-correction and the current window *)

(** C3.  Let [i0] be the table index the longitude read maps to and [s0]
    the boundary found for it.  When [s0 <= t] (equality included) there
    is no correction: the boundary searches are those for [i0], the term
    before and the term after, and the current term is [i0], starting at
    [s0] floored.  When [s0 > t] the index steps back once, to
    [(i0 + 23) mod 24]: one more boundary search is made, for that term,
    and the current term is that one, starting at the instant that search
    returned, floored, whatever that instant is; previous and next are
    taken around it. *)
Theorem self_correction_once
        (sp : Date -> option SunAnswer) (ssl : Number -> Date -> Z -> option AstroValue)
        (now : Date) (inputDate : Input) (t i0 s0 : Z) :
  getTime (coerce DateOf inputDate) = Some t ->
  let o := mkOracle sp ssl in
  firstIdx o t = Some i0 ->
  let i1 := prevIdx i0 in
  let R := run (AstronomyObject (Some sp) (Some ssl)) now inputDate in
  yields truthy DateOf o (lonOf i0) t s0 ->
  i1 = (i0 + 23) mod 24
  /\ (s0 <= t ->
      trace R = CallSunPosition (DateAt t) (sp (DateAt t))
                :: searches truthy DateOf o t [i0; prevIdx i0; nextIdx i0]
      /\ forall r, outcome R = inr r ->
           Current.name (current r) = name (termOf i0)
           /\ Current.lon (current r) = lonOf i0
           /\ Current.startTime (current r) = floorToMinute (DateAt s0)
           /\ Adjacent.name (previous r) = name (termOf (prevIdx i0))
           /\ Adjacent.name (next r) = name (termOf (nextIdx i0)))
  /\ (t < s0 ->
      trace R = CallSunPosition (DateAt t) (sp (DateAt t))
                :: searches truthy DateOf o t [i0; i1; prevIdx i1; nextIdx i1]
      /\ forall r, outcome R = inr r ->
           Current.name (current r) = name (termOf i1)
           /\ Current.lon (current r) = lonOf i1
           /\ (exists s1, yields truthy DateOf o (lonOf i1) t s1
                          /\ Current.startTime (current r) = floorToMinute (DateAt s1))
           /\ Adjacent.name (previous r) = name (termOf (prevIdx i1))
           /\ Adjacent.name (next r) = name (termOf (nextIdx i1))).
Proof.
  intros Hc o F0 i1 R H0.
  pose proof Hc as Rt. apply getTime_Some in Rt. destruct Rt as [_ Rt].
  apply (yields_boundary truthy DateOf _ _ _ _ Rt) in H0.
  split.
  { apply prevIdx_mod. unfold firstIdx in F0.
    now destruct (table_entry _ _ F0) as [Hi _]. }
  subst R. rewrite (run_valid sp ssl now inputDate t Hc).
  unfold resolution. fold o. rewrite F0. cbn [trace outcome fst snd].
  unfold plan, assemble, currentIdx, corrected. subst i1.
  rewrite H0.
  pose proof (newDate_boundary _ _ _ _ H0) as N0.
  split; intros Hs.
  - replace (t <? s0) with false by (symmetry; apply Z.ltb_ge; lia).
    cbn [app]. split; [reflexivity |].
    intros r Hr.
    destruct (firstFailure truthy DateOf o t _); [discriminate |].
    injection Hr as <-.
    cbn [current previous next Current.name Current.lon Current.startTime
           Adjacent.name].
    rewrite H0, N0. repeat split; reflexivity.
  - replace (t <? s0) with true by (symmetry; apply Z.ltb_lt; lia).
    cbn [app]. split; [reflexivity |].
    intros r Hr.
    destruct (firstFailure truthy DateOf o t _) eqn:F; [discriminate |].
    injection Hr as <-.
    cbn [current previous next Current.name Current.lon Current.startTime
           Adjacent.name].
    assert (I : In (prevIdx i0)
                  [i0; prevIdx i0; prevIdx (prevIdx i0); nextIdx (prevIdx i0)])
      by (right; left; reflexivity).
    destruct (firstFailure_none truthy DateOf o t _ F _ I) as [s1 H1].
    rewrite H1, (newDate_boundary _ _ _ _ H1). repeat split; try reflexivity.
    exists s1. split; [now apply (yields_boundary truthy DateOf _ _ _ _ Rt) | reflexivity].
Qed.

(** C1, as the code has it.  Let the oracle return correct boundary
    instants around the valid instant [t], which lies in term [k].
    When the longitude read at [t] maps to term [k] or to the term after
    it, the resolution returns term [k] with
    [startTime <= t < endTime + 1 minute], and [t < endTime] exactly when
    [t] is before the minute in which term [k] ends.  When the read
    still maps to the term before [k], every result is that term, and
    its window has ended by [t]: [endTime <= t], [endTime] being the
    start of term [k] floored to the minute. *)
Theorem current_window_up_to_the_minute
        (sp : Date -> option SunAnswer) (ssl : Number -> Date -> Z -> option AstroValue)
        (now : Date) (inputDate : Input) (t k bPrev bCur bNext : Z) :
  getTime (coerce DateOf inputDate) = Some t ->
  BoundariesCorrectAt truthy DateOf (mkOracle sp ssl) t k bPrev bCur bNext ->
  let o := mkOracle sp ssl in
  let R := run (AstronomyObject (Some sp) (Some ssl)) now inputDate in
  (firstIdx o t = Some k \/ firstIdx o t = Some (nextIdx k) ->
   exists r s e,
     outcome R = inr r
     /\ Current.name (current r) = name (termOf k)
     /\ Current.startTime (current r) = DateAt s
     /\ Current.endTime (current r) = DateAt e
     /\ s = bCur / MS_PER_MIN * MS_PER_MIN
     /\ e = bNext / MS_PER_MIN * MS_PER_MIN
     /\ s <= t < e + MS_PER_MIN
     /\ (t < e <-> t < bNext / MS_PER_MIN * MS_PER_MIN))
  /\ (firstIdx o t = Some (prevIdx k) ->
      forall r, outcome R = inr r ->
        Current.name (current r) = name (termOf (prevIdx k))
        /\ exists s e,
             Current.startTime (current r) = DateAt s
             /\ Current.endTime (current r) = DateAt e
             /\ s = bPrev / MS_PER_MIN * MS_PER_MIN
             /\ e = bCur / MS_PER_MIN * MS_PER_MIN
             /\ s <= e <= t).
Proof.
  intros Hc HB o R.
  pose proof Hc as Rt. apply getTime_Some in Rt. destruct Rt as [_ Rt].
  pose proof HB as [Hk [Hlo Hhi] [Ap An] Hcur Hprev Hnext].
  apply (yields_boundary truthy DateOf _ _ _ _ Rt) in Hcur.
  apply (yields_boundary truthy DateOf _ _ _ _ Rt) in Hprev.
  apply (yields_boundary truthy DateOf _ _ _ _ Rt) in Hnext.
  apply boundary_in_range in Hcur, Hprev, Hnext.
  pose proof (floor_minute_bounds bCur) as Fc.
  pose proof (floor_minute_bounds bNext) as Fn.
  pose proof (floor_minute_bounds bPrev) as Fp.
  split.
  - intros Hread.
    eexists. exists (bCur / MS_PER_MIN * MS_PER_MIN), (bNext / MS_PER_MIN * MS_PER_MIN).
    split; [subst R; apply (correct_resolution sp ssl now inputDate t k bPrev bCur bNext Hc HB Hread) |].
    cbn [current Current.name Current.startTime Current.endTime].
    rewrite !floorToMinute_at by assumption.
    repeat split; try reflexivity; try lia; intros; assumption.
  - intros Hread r Hr.
    subst R.
    rewrite (lagging_resolution sp ssl now inputDate t k bPrev bCur bNext r Hc HB Hread Hr).
    cbn [Current.name Current.startTime Current.endTime].
    split; [reflexivity |].
    exists (bPrev / MS_PER_MIN * MS_PER_MIN), (bCur / MS_PER_MIN * MS_PER_MIN).
    rewrite !floorToMinute_at by assumption.
    pose proof (floor_minute_mono bPrev bCur ltac:(rewrite MS_PER_MIN_value in *; lia)).
    repeat split; try reflexivity; lia.
Qed.


End ResolverFacts.

(* ------------------------------------------------------------------ *)
(** ** The concrete oracles at work *)

(** On [Examples.lateRun] the oracle is asked 9 times: the bound of 6
    calls does not hold. *)
Lemma nine_oracle_calls :
  List.length (trace Examples.lateRun) = 9%nat
  /\ ~ (List.length (trace Examples.lateRun) <= 6)%nat.
Proof.
  assert (H : List.length (trace Examples.lateRun) = 9%nat) by (vm_compute; reflexivity).
  split; [exact H | rewrite H; lia].
Qed.

Lemma invalid_input_rejected_before_oracle_witness :
  getTime (coerce Examples.numberToDate (InputDate InvalidDate)) = None
  /\ trace (getSolarTermInfo Examples.numberTruthy Examples.numberToDate
              Examples.lateOracle (DateAt 1500) (InputDate InvalidDate)) = []
  /\ outcome (getSolarTermInfo Examples.numberTruthy Examples.numberToDate
                Examples.lateOracle (DateAt 1500) (InputDate InvalidDate))
     = inl InvalidInputDate.
Proof.
  assert (H : getTime (coerce Examples.numberToDate (InputDate InvalidDate)) = None)
    by reflexivity.
  destruct (invalid_input_rejected_before_oracle Examples.numberTruthy
              Examples.numberToDate
              Examples.lateOracle (DateAt 1500) (InputDate InvalidDate) H)
    as (Ht & _ & Ho).
  split; [exact H | split; [exact Ht |]].
  eapply Ho. reflexivity.
Defined.

(** On [Examples.lateRun] the clock reads 1.5 s past the minute and so
    does meta.computedAt: not every time field is floored. *)
Lemma computedAt_not_floored :
  exists r, outcome Examples.lateRun = inr r
            /\ Meta.computedAt (meta r) = DateAt 1500
            /\ getUTCSeconds (Meta.computedAt (meta r)) = Some 1
            /\ getUTCMilliseconds (Meta.computedAt (meta r)) = Some 500
            /\ ~ wholeMinute (Meta.computedAt (meta r)).
Proof.
  eexists. split; [vm_compute; reflexivity |].
  repeat split; try reflexivity.
  intros [Hs _]. vm_compute in Hs. discriminate.
Qed.

Lemma boundary_times_floored_to_minute_witness :
  exists r, outcome Examples.lateRun = inr r
            /\ wholeMinute (Current.startTime (current r))
            /\ wholeMinute (Current.endTime (current r))
            /\ wholeMinute (Adjacent.startTime (previous r))
            /\ wholeMinute (Adjacent.startTime (next r))
            /\ Meta.computedAt (meta r) = DateAt 1500.
Proof.
  assert (H : {r | outcome Examples.lateRun = inr r})
    by (eexists; vm_compute; reflexivity).
  destruct H as [r H]. exists r. split; [exact H |].
  exact (proj2 (boundary_times_floored_to_minute Examples.numberTruthy
                  Examples.numberToDate _ _ _ _ H)).
Defined.

(** Ten seconds before Qingming the boundaries of [Spring2024.oracle]
    are those of Chunfen (index 3), and its longitude read maps to that
    index. *)
Lemma spring_boundaries_correct :
  BoundariesCorrectAt Examples.numberTruthy Examples.numberToDate Spring2024.oracle
    Spring2024.tenSecondsBefore 3
    Spring2024.jingzhe Spring2024.chunfen Spring2024.qingming.
Proof.
  constructor.
  - lia.
  - unfold Spring2024.chunfen, Spring2024.tenSecondsBefore, Spring2024.qingming. lia.
  - unfold Spring2024.jingzhe, Spring2024.chunfen, Spring2024.qingming.
    rewrite MS_PER_MIN_value. lia.
  - unfold yields. vm_compute. reflexivity.
  - unfold yields. vm_compute. reflexivity.
  - unfold yields. vm_compute. reflexivity.
Qed.

Lemma spring_read : firstIdx Spring2024.oracle Spring2024.tenSecondsBefore = Some 3.
Proof. vm_compute. reflexivity. Qed.

(** Forty seconds after Qingming the boundaries are those of Qingming
    (index 4), whatever the longitude read says. *)
Lemma lagging_boundaries_correct :
  BoundariesCorrectAt Examples.numberTruthy Examples.numberToDate
    Spring2024.laggingOracle
    Spring2024.fortySecondsAfter 4
    Spring2024.chunfen Spring2024.qingming Spring2024.guyu.
Proof.
  constructor.
  - lia.
  - unfold Spring2024.guyu, Spring2024.fortySecondsAfter, Spring2024.qingming. lia.
  - unfold Spring2024.guyu, Spring2024.chunfen, Spring2024.qingming.
    rewrite MS_PER_MIN_value. lia.
  - unfold yields. vm_compute. reflexivity.
  - unfold yields. vm_compute. reflexivity.
  - unfold yields. vm_compute. reflexivity.
Qed.

(** The eager longitude read overshoots by one term and is corrected:
    five oracle calls, and the current term is still Chunfen. *)
Example overshoot_is_corrected :
  let R := getSolarTermInfo Examples.numberTruthy Examples.numberToDate
             Spring2024.eagerAstronomy
             Spring2024.clock (InputDate (DateAt Spring2024.tenSecondsBefore)) in
  List.length (trace R) = 5%nat
  /\ exists r, outcome R = inr r
               /\ Current.name (current r) = "春分"%string
               /\ Adjacent.name (previous r) = "惊蛰"%string
               /\ Adjacent.name (next r) = "清明"%string.
Proof.
  cbv zeta. split; [vm_compute; reflexivity |].
  eexists. split; [vm_compute; reflexivity |].
  repeat split; reflexivity.
Qed.

(** Ten seconds before Qingming the boundaries are correct, the
    longitude read maps to the right term, the resolution succeeds, and
    current.endTime (07:02:00) is not after the query instant
    (07:02:10): the current window does not contain it.  Forty seconds
    after Qingming began (07:02:20), with the same boundaries and a
    longitude read that still says 14.9999 degrees, the resolution at
    07:03:00 returns Chunfen, whose window ended at 07:02:00: the read
    is not corrected forward. *)
Lemma current_window_misses_instant :
  (BoundariesCorrectAt Examples.numberTruthy Examples.numberToDate Spring2024.oracle
     Spring2024.tenSecondsBefore 3
     Spring2024.jingzhe Spring2024.chunfen Spring2024.qingming
   /\ firstIdx Spring2024.oracle Spring2024.tenSecondsBefore = Some 3
   /\ exists r,
        outcome (Spring2024.resolve Spring2024.tenSecondsBefore) = inr r
        /\ Current.endTime (current r) = DateAt 1712214120000
        /\ ~ containsInstant (current r) Spring2024.tenSecondsBefore)
  /\ (BoundariesCorrectAt Examples.numberTruthy Examples.numberToDate
        Spring2024.laggingOracle
        Spring2024.fortySecondsAfter 4
        Spring2024.chunfen Spring2024.qingming Spring2024.guyu
      /\ firstIdx Spring2024.laggingOracle Spring2024.fortySecondsAfter = Some 3
      /\ exists r,
           outcome (getSolarTermInfo Examples.numberTruthy Examples.numberToDate
                      Spring2024.laggingAstronomy Spring2024.clock
                      (InputDate (DateAt Spring2024.fortySecondsAfter))) = inr r
           /\ Current.name (current r) = "春分"%string
           /\ Current.endTime (current r) = DateAt 1712214120000
           /\ ~ containsInstant (current r) Spring2024.fortySecondsAfter).
Proof.
  split.
  - split; [exact spring_boundaries_correct | split; [exact spring_read |]].
    eexists. split; [vm_compute; reflexivity |].
    split; [reflexivity |].
    unfold containsInstant, Spring2024.tenSecondsBefore.
    vm_compute. intros [_ H]. discriminate.
  - split; [exact lagging_boundaries_correct | split; [vm_compute; reflexivity |]].
    eexists. split; [vm_compute; reflexivity |].
    split; [reflexivity | split; [reflexivity |]].
    unfold containsInstant, Spring2024.fortySecondsAfter.
    vm_compute. intros [_ H]. discriminate.
Qed.

Lemma current_window_up_to_the_minute_witness :
  exists r s e,
    outcome (Spring2024.resolve Spring2024.tenSecondsBefore) = inr r
    /\ Current.name (current r) = name (termOf 3)
    /\ Current.startTime (current r) = DateAt s
    /\ Current.endTime (current r) = DateAt e
    /\ s = Spring2024.chunfen / MS_PER_MIN * MS_PER_MIN
    /\ e = Spring2024.qingming / MS_PER_MIN * MS_PER_MIN
    /\ s <= Spring2024.tenSecondsBefore < e + MS_PER_MIN
    /\ (Spring2024.tenSecondsBefore < e
        <-> Spring2024.tenSecondsBefore < Spring2024.qingming / MS_PER_MIN * MS_PER_MIN).
Proof.
  apply (proj1 (current_window_up_to_the_minute Examples.numberTruthy
           Examples.numberToDate
           Spring2024.sunPosition Spring2024.searchSunLongitude Spring2024.clock
           (InputDate (DateAt Spring2024.tenSecondsBefore))
           Spring2024.tenSecondsBefore 3
           Spring2024.jingzhe Spring2024.chunfen Spring2024.qingming
           eq_refl spring_boundaries_correct)).
  left. exact spring_read.
Defined.


(** A query exactly at the Qingming instant: the boundary found equals
    the query instant, no correction, the current term is Qingming. *)
Lemma self_correction_once_witness :
  firstIdx Spring2024.oracle Spring2024.qingming = Some 4
  /\ yields Examples.numberTruthy Examples.numberToDate Spring2024.oracle
       (lonOf 4) Spring2024.qingming Spring2024.qingming
  /\ List.length (trace (Spring2024.resolve Spring2024.qingming)) = 4%nat
  /\ forall r, outcome (Spring2024.resolve Spring2024.qingming) = inr r ->
       Current.name (current r) = "清明"%string
       /\ Current.startTime (current r) = DateAt 1712214120000.
Proof.
  assert (F0 : firstIdx Spring2024.oracle Spring2024.qingming = Some 4)
    by (vm_compute; reflexivity).
  assert (Y : yields Examples.numberTruthy Examples.numberToDate Spring2024.oracle
                (lonOf 4) Spring2024.qingming Spring2024.qingming)
    by (unfold yields; vm_compute; reflexivity).
  destruct (self_correction_once Examples.numberTruthy Examples.numberToDate
              Spring2024.sunPosition Spring2024.searchSunLongitude Spring2024.clock
              (InputDate (DateAt Spring2024.qingming))
              Spring2024.qingming 4 Spring2024.qingming eq_refl F0 Y)
    as (_ & NoCorr & _).
  destruct (NoCorr (Z.le_refl _)) as [T F].
  split; [exact F0 | split; [exact Y | split]].
  - unfold Spring2024.resolve, Spring2024.astronomy. rewrite T.
    vm_compute. reflexivity.
  - intros r Hr. destruct (F r Hr) as (N & _ & S & _).
    split; [rewrite N | rewrite S]; vm_compute; reflexivity.
Defined.

(** A boundary search centred on the first time value: 40 days (and 200
    days) before it there is no time value, and both windows are asked
    from an Invalid Date.  With a search function that throws on such a
    window the primary attempt brings no instant and there is no second
    attempt: the search throws what the oracle threw. *)
Lemma window_start_before_first_instant :
  let R := findSunLongitudeEvent Examples.numberTruthy Examples.numberToDate
             Spring2024.oracle (Fin 15) (DateAt firstInstant) in
  let S := findSunLongitudeEvent Examples.numberTruthy Examples.numberToDate
             Spring2024.strictOracle (Fin 15) (DateAt firstInstant) in
  getTime (DateAt firstInstant) = Some firstInstant
  /\ trace R = [CallSearch (Fin 15) InvalidDate 80 (Some Falsy);
                CallSearch (Fin 15) InvalidDate 400 (Some Falsy)]
  /\ getTime InvalidDate <> Some (firstInstant - 40 * MS_PER_DAY)
  /\ InvalidDate <> DateAt (firstInstant - 40 * MS_PER_DAY)
  /\ S = ([CallSearch (Fin 15) InvalidDate 80 None], inl OracleError).
Proof.
  cbv zeta. split; [reflexivity | split; [vm_compute; reflexivity |]].
  split; [discriminate | split; [discriminate | vm_compute; reflexivity]].
Qed.

(* ================================================================== *)
(** * Part IV: further facts *)

(* ------------------------------------------------------------------ *)
(** ** The index mapping and the table *)

(** The remainder of a double by 360 is a double: it is exact. *)
Lemma Qrem_360_representable (q : Q) :
  representable q -> representable (Double.Qrem q 360).
Proof.
  intros (z & e & Hq & Hz & He).
  set (n := Double.Qtrunc (q / 360)).
  assert (Er : (Double.Qrem q 360 == q - inject_Z n * 360)%Q) by reflexivity.
  destruct (Qrem_360_bounds q) as [Bp Bn].
  destruct (Z_le_gt_dec 0 e) as [E0 | E0].
  - (* a whole number *)
    assert (P : (Double.pow2 e == inject_Z (2 ^ e))%Q) by (apply pow2_inject; lia).
    apply (representable_comp (inject_Z (z * 2 ^ e - n * 360))).
    + rewrite Er, Hq, P. unfold Zminus.
      rewrite inject_Z_plus, inject_Z_opp, !inject_Z_mult.
      change (inject_Z 360) with 360%Q. ring.
    + apply representable_Z.
      assert (Ev : (Double.Qrem q 360 == inject_Z (z * 2 ^ e - n * 360))%Q).
      { rewrite Er, Hq, P. unfold Zminus.
        rewrite inject_Z_plus, inject_Z_opp, !inject_Z_mult.
        change (inject_Z 360) with 360%Q. ring. }
      assert (B : (-360 < Double.Qrem q 360 /\ Double.Qrem q 360 < 360)%Q).
      { destruct (Qlt_le_dec q 0) as [N | N].
        - destruct (Bn ltac:(lra)). split; lra.
        - destruct (Bp N). split; lra. }
      rewrite Ev in B. destruct B as [B1 B2].
      change (-360)%Q with (inject_Z (-360)) in B1.
      change 360%Q with (inject_Z 360) in B2.
      rewrite <- Zlt_Qlt in B1, B2. lia.
  - (* a multiple of 2^e, e < 0 *)
    assert (K : (Double.pow2 (- e) * Double.pow2 e == 1)%Q).
    { rewrite <- pow2_plus. replace (- e + e) with 0 by lia. reflexivity. }
    assert (Pk : (Double.pow2 (- e) == inject_Z (2 ^ (- e)))%Q)
      by (apply pow2_inject; lia).
    pose proof (pow2_pos e) as Pe.
    exists (z - n * 360 * 2 ^ (- e)), e.
    assert (Ev : (Double.Qrem q 360
                  == inject_Z (z - n * 360 * 2 ^ (- e)) * Double.pow2 e)%Q).
    { rewrite Er, Hq. unfold Zminus.
      rewrite inject_Z_plus, inject_Z_opp, !inject_Z_mult, <- Pk.
      change (inject_Z 360) with 360%Q.
      transitivity (inject_Z z * Double.pow2 e
                    - inject_Z n * 360 * (Double.pow2 (- e) * Double.pow2 e))%Q;
        [rewrite K; ring | ring]. }
    split; [exact Ev | split; [| exact He]].
    (* the remainder is no larger than the dividend *)
    assert (A : (Qabs (Double.Qrem q 360) <= Qabs q)%Q).
    { destruct (Qlt_le_dec q 0) as [N | N].
      - destruct (Bn ltac:(lra)) as [_ R0].
        destruct (Qtrunc_nonpos (q / 360)) as [T _].
        { assert (q == (q / 360) * 360)%Q by field. lra. }
        fold n in T.
        assert (n <= 0).
        { destruct (Z_le_gt_dec n 0) as [L | G]; [exact L | exfalso].
          assert (1 <= n) by lia.
          assert (G' : (1 <= inject_Z n)%Q)
            by (change 1%Q with (inject_Z 1); rewrite <- Zle_Qle; lia).
          clear - G' T N R0 Er.
          assert (q == (q / 360) * 360)%Q by field. 
          assert (q / 360 < 0)%Q by lra.
          destruct (Qtrunc_nonpos (q / 360) ltac:(lra)) as [T1 T2].
          unfold n in G'. lra. }
        assert (N0 : (inject_Z n <= 0)%Q)
          by (change 0%Q with (inject_Z 0); rewrite <- Zle_Qle; lia).
        rewrite (Qabs_neg (Double.Qrem q 360)) by exact R0.
        rewrite (Qabs_neg q) by lra. rewrite Er. lra.
      - destruct (Bp N) as [R0 _].
        destruct (Qtrunc_nonneg (q / 360)) as [T _].
        { assert (q == (q / 360) * 360)%Q by field. lra. }
        fold n in T.
        assert (N0 : (0 <= inject_Z n)%Q).
        { destruct (Z_le_gt_dec 0 n) as [L | G].
          - change 0%Q with (inject_Z 0). rewrite <- Zle_Qle. exact L.
          - exfalso.
            destruct (Qtrunc_nonneg (q / 360)) as [_ T2].
            { assert (q == (q / 360) * 360)%Q by field. lra. }
            fold n in T2.
            assert (G' : (inject_Z n <= -1)%Q)
              by (change (-1)%Q with (inject_Z (-1)); rewrite <- Zle_Qle; lia).
            assert (q == (q / 360) * 360)%Q by field. lra. }
        rewrite (Qabs_pos (Double.Qrem q 360)) by exact R0.
        rewrite (Qabs_pos q) by exact N. rewrite Er. lra. }
    rewrite Ev, Hq in A. rewrite !Qabs_Qmult in A.
    rewrite (Qabs_pos (Double.pow2 e)) in A by lra.
    assert (A' : (Qabs (inject_Z (z - n * 360 * 2 ^ (- e))) <= Qabs (inject_Z z))%Q).
    { apply Qmult_le_r with (z := Double.pow2 e); assumption. }
    assert (Abs : forall x, (Qabs (inject_Z x) == inject_Z (Z.abs x))%Q)
      by (intros x; unfold Qabs, inject_Z; reflexivity).
    rewrite !Abs in A'. rewrite <- Zle_Qle in A'. lia.
Qed.

(** [norm360] of a double is a double. *)
Lemma norm360_isDouble (x : Number) : isDouble x -> isDouble (norm360 x).
Proof.
  destruct x as [| s | | q]; try exact (fun _ => I).
  intros [R B]. unfold norm360. cbv zeta. rewrite rem_fin.
  destruct (Qeq_bool q 0) eqn:Z0.
  { rewrite lt_fin_0. apply Qeq_bool_iff in Z0.
    replace (Qle_bool 0 q) with true by (symmetry; apply Qle_bool_iff; lra).
    cbn [negb]. split; assumption. }
  destruct (Qeq_bool (Double.Qrem q 360) 0) eqn:Z1.
  { destruct (negb (Qle_bool 0 q)); cbn [Double.zero isDouble]; [exact I |].
    split; [apply representable_0 | change (0 < Double.pow2 1024)%Q; apply pow2_pos]. }
  rewrite lt_fin_0.
  pose proof (Qred_correct (Double.Qrem q 360)) as Ered.
  assert (D : isDouble (Fin (Qred (Double.Qrem q 360)))).
  { split.
    - apply (representable_comp (Double.Qrem q 360)); [now symmetry |].
      now apply Qrem_360_representable.
    - rewrite Ered.
      destruct (Qrem_360_bounds q) as [Bp Bn]. pose proof headroom as Hd.
      pose proof (pow2_pos 970) as P970.
      destruct (Qlt_le_dec q 0) as [N | N].
      + destruct (Bn ltac:(lra)). rewrite Qabs_neg by lra. lra.
      + destruct (Bp N). rewrite Qabs_pos by lra. lra. }
  destruct (negb (Qle_bool 0 (Qred (Double.Qrem q 360)))); [| exact D].
  rewrite add_fin.
  destruct (Qeq_bool (Qred (Double.Qrem q 360) + 360) 0).
  - destruct (_ && _); cbn [Double.zero isDouble]; [exact I |].
    split; [apply representable_0 | change (0 < Double.pow2 1024)%Q; apply pow2_pos].
  - apply round64_isDouble.
Qed.

(** A number that [norm360] sends to a finite one is finite. *)
Lemma norm360_finite (x : Number) : finite (norm360 x) = true -> finite x = true.
Proof.
  destruct x as [| s | | q]; intros H; try reflexivity; vm_compute in H; discriminate.
Qed.

Lemma between_finite (lo hi : Q) (x : Number) : between lo hi x -> finite x = true.
Proof. destruct x; try contradiction; reflexivity. Qed.

(** A whole number of the table is a table index. *)
Lemma tableIndex_whole (x : Number) (i : Z) :
  0 <= i <= 23 -> isWhole x i -> tableIndex x = Some i.
Proof.
  intros Hi [-> | [-> ->]]; [now apply tableIndex_index | reflexivity].
Qed.

Lemma tableIndex_finite (x : Number) (i : Z) : tableIndex x = Some i -> finite x = true.
Proof. destruct x; try discriminate; reflexivity. Qed.

Lemma termIndexFromElon_finite (x : Number) :
  finite (termIndexFromElon x) = true -> finite x = true.
Proof.
  destruct x as [| [|] | | q]; intros H; try reflexivity; vm_compute in H; discriminate.
Qed.

(** X2.  The table longitudes are [(315 + 15 i) mod 360]; [norm360]
    leaves them as they are and [termIndexFromElon] maps the longitude of
    entry [i] back to [i], under which the table has that entry. *)
Theorem termIndex_inverts_table (i : Z) :
  0 <= i <= 23 ->
  lonOf i = Fin (inject_Z ((315 + 15 * i) mod 360))
  /\ norm360 (lonOf i) = lonOf i
  /\ termIndexFromElon (lonOf i) = indexNumber i
  /\ tableIndex (termIndexFromElon (lonOf i)) = Some i
  /\ termAt (termIndexFromElon (lonOf i)) = Some (termOf i).
Proof.
  intros Hi. destruct (table_longitudes i Hi) as [N T].
  split.
  - apply identical_eq.
    apply (on_table (fun i => identical (lonOf i)
                                (Fin (inject_Z ((315 + 15 * i) mod 360)))));
      [vm_compute; reflexivity | exact Hi].
  - split; [exact N | split; [exact T |]]. rewrite T.
    split; [now apply tableIndex_index | now apply termAt_index].
Qed.

Lemma termIndex_inverts_table_witness :
  lonOf 21 = Fin 270
  /\ termIndexFromElon (Fin 270) = Fin 21
  /\ option_map name (termAt (termIndexFromElon (Fin 270))) = Some "冬至"%string.
Proof.
  destruct (termIndex_inverts_table 21 ltac:(lia)) as (L & _ & T & _ & A).
  split; [exact L | split; [exact T |]].
  change (Fin 270) with (lonOf 21). rewrite A. reflexivity.
Defined.

(** X4.  On the table indices the two index steps of the resolver,
    [(idx + 23) % 24] and [(idx + 1) % 24], computed on numbers, are the
    steps on whole numbers; they stay in the table, so that the table
    lookups after them are defined; they undo each other, never stand
    still, and 24 steps forward come back to the start (23 steps to 0). *)
Theorem index_steps_cycle (i : Z) :
  0 <= i <= 23 ->
  termAt (indexNumber (prevIdx i)) = Some (termOf (prevIdx i))
  /\ termAt (indexNumber (nextIdx i)) = Some (termOf (nextIdx i))
  /\ stepBack (indexNumber i) = indexNumber (prevIdx i)
  /\ stepForward (indexNumber i) = indexNumber (nextIdx i)
  /\ 0 <= prevIdx i <= 23 /\ 0 <= nextIdx i <= 23
  /\ prevIdx (nextIdx i) = i /\ nextIdx (prevIdx i) = i
  /\ nextIdx i <> i /\ prevIdx i <> nextIdx i
  /\ Nat.iter 24 (fun j => nextIdx j) i = i
  /\ (nextIdx i = 0 <-> i = 23).
Proof.
  intros Hi.
  pose proof (on_table
                (fun i => (0 <=? prevIdx i) && (prevIdx i <=? 23)
                          && (0 <=? nextIdx i) && (nextIdx i <=? 23)
                          && (prevIdx (nextIdx i) =? i) && (nextIdx (prevIdx i) =? i)
                          && negb (nextIdx i =? i) && negb (prevIdx i =? nextIdx i)
                          && (Nat.iter 24 (fun j => nextIdx j) i =? i)
                          && Bool.eqb (nextIdx i =? 0) (i =? 23))
                ltac:(vm_compute; reflexivity) i Hi) as H.
  cbv beta in H.
  repeat (apply andb_true_iff in H; let H' := fresh "H" in destruct H as [H H']).
  repeat match goal with
         | h : negb _ = true |- _ => apply negb_true_iff in h
         | h : (_ =? _) = true |- _ => apply Z.eqb_eq in h
         | h : (_ =? _) = false |- _ => apply Z.eqb_neq in h
         | h : (_ <=? _) = true |- _ => apply Z.leb_le in h
         end.
  destruct (steps_of_index i Hi) as [Sb Sf].
  split; [apply termAt_index; lia |]. split; [apply termAt_index; lia |].
  split; [exact Sb |]. split; [exact Sf |].
  repeat split; try assumption.
  - intros E. apply Z.eqb_eq in E. rewrite E in *.
    apply Bool.eqb_prop in H0. symmetry in H0. now apply Z.eqb_eq.
  - intros E. apply Z.eqb_eq in E. rewrite E in *.
    apply Bool.eqb_prop in H0. now apply Z.eqb_eq.
Qed.

Lemma index_steps_cycle_witness :
  prevIdx (nextIdx 23) = 23 /\ nextIdx 23 = 0
  /\ stepForward (Fin 23) = Fin 0.
Proof.
  destruct (index_steps_cycle 23 ltac:(lia))
    as (_ & _ & _ & F & _ & _ & A & _ & _ & _ & _ & B).
  split; [exact A | split; [apply B; reflexivity | exact F]].
Defined.

(* ------------------------------------------------------------------ *)
(** ** Flooring to the minute *)

(** X5.  Flooring to the minute is idempotent; the Dates it leaves
    unchanged are the invalid one and those with zero seconds and zero
    milliseconds. *)
Theorem floorToMinute_idempotent (d : Date) :
  floorToMinute (floorToMinute d) = floorToMinute d
  /\ (floorToMinute d = d <-> d = InvalidDate \/ wholeMinute d).
Proof.
  destruct d as [| t]; [split; [reflexivity | split; auto] |].
  destruct (inTimeRange t) eqn:R.
  - rewrite (floorToMinute_at t R).
    rewrite (floorToMinute_at _ (floor_minute_in_range t R)).
    pose proof (floor_minute_bounds t) as [B M].
    pose proof (Z.div_mod t MS_PER_MIN ltac:(rewrite MS_PER_MIN_value; lia)) as D.
    split.
    + f_equal. rewrite MS_PER_MIN_value in *. rewrite Z.div_mul by lia. reflexivity.
    + rewrite (wholeMinute_mod t R). split.
      * intros E. right. injection E as E. lia.
      * intros [E | E]; [discriminate | f_equal; lia].
  - assert (G : getTime (DateAt t) = None) by (cbn [getTime]; now rewrite R).
    rewrite (floorToMinute_invalid _ G). split; [reflexivity |].
    split; [discriminate |].
    intros [E | [E _]]; [discriminate |].
    unfold getUTCSeconds in E. rewrite G in E. discriminate.
Qed.

(** X6.  Flooring to the minute keeps the order of instants and moves an
    instant back by less than a minute, never forward, also before the
    epoch. *)
Theorem floorToMinute_monotone (a b : Z) :
  inTimeRange a = true -> inTimeRange b = true ->
  a <= b ->
  exists a' b',
    floorToMinute (DateAt a) = DateAt a' /\ floorToMinute (DateAt b) = DateAt b'
    /\ a' <= b' /\ a' <= a < a' + MS_PER_MIN.
Proof.
  intros Ra Rb H. exists (a / MS_PER_MIN * MS_PER_MIN), (b / MS_PER_MIN * MS_PER_MIN).
  rewrite !floorToMinute_at by assumption.
  repeat split; try apply floor_minute_bounds. now apply floor_minute_mono.
Qed.

Lemma floorToMinute_monotone_witness :
  exists a' b',
    floorToMinute (DateAt (-1)) = DateAt a' /\ floorToMinute (DateAt 0) = DateAt b'
    /\ a' <= b' /\ a' <= -1 < a' + MS_PER_MIN.
Proof. apply (floorToMinute_monotone (-1) 0); [reflexivity | reflexivity | lia]. Defined.

(* ------------------------------------------------------------------ *)
(** ** Padding and the formatters *)

Local Open Scope string_scope.

(** Padding the numeral of a decimal integer: two characters at least,
    and the value reads back. *)
Lemma pad_of_int (d : Decimal.int) :
  d <> Decimal.Pos Decimal.Nil -> d <> Decimal.Neg Decimal.Nil ->
  parseDecimal (padStart (NilZero.string_of_int d) 2 "0") = Some (Z.of_int d)
  /\ (2 <= String.length (padStart (NilZero.string_of_int d) 2 "0"))%nat.
Proof.
  intros Hp Hn. pose proof (NilZero.isi d Hp Hn) as R.
  unfold parseDecimal.
  destruct d as [u | u]; destruct u as [| r | r | r | r | r | r | r | r | r | r];
    try congruence;
    try (destruct r; (split; [reflexivity | simpl; lia]) ||
         (unfold padStart; cbn [NilZero.string_of_int NilZero.string_of_uint
                                  NilEmpty.string_of_uint String.length Nat.leb];
          cbn [NilZero.string_of_int NilZero.string_of_uint
                 NilEmpty.string_of_uint] in R;
          rewrite R; split; [reflexivity | lia])).
Qed.

Lemma to_int_proper (z : Z) :
  Z.to_int z <> Decimal.Pos Decimal.Nil /\ Z.to_int z <> Decimal.Neg Decimal.Nil.
Proof.
  destruct z as [| p | p]; simpl; split; try discriminate;
    intros E; injection E as E; now apply (DecimalPos.Unsigned.to_uint_nonnil p).
Qed.

(** Checking a property on the whole numbers below [n]. *)
Lemma on_range (n : nat) (P : Z -> bool) :
  forallb P (map Z.of_nat (seq 0 n)) = true ->
  forall z, 0 <= z < Z.of_nat n -> P z = true.
Proof.
  intros H z Hz. rewrite forallb_forall in H. apply H.
  apply in_map_iff. exists (Z.to_nat z). split; [lia | apply in_seq; lia].
Qed.

(** Up to 2^53 [String(n)] is the decimal numeral. *)
Lemma numberToString_decimal (z : Z) :
  Z.abs z <= 2 ^ 53 -> numberToString (Some z) = decimal z.
Proof.
  intros H. unfold numberToString.
  replace (Z.abs z <=? 2 ^ 53)%Z with true by (symmetry; apply Z.leb_le; exact H).
  reflexivity.
Qed.

Lemma numberToString_reads_back (z : Z) :
  Z.abs z <= 2 ^ 53 -> parseDecimal (numberToString (Some z)) = Some z.
Proof.
  intros H. rewrite (numberToString_decimal z H).
  unfold parseDecimal, decimal. destruct (to_int_proper z) as [Hp Hn].
  rewrite (NilZero.isi _ Hp Hn). cbn [option_map]. now rewrite DecimalZ.of_to.
Qed.

Lemma pad_decimal (z : Z) :
  Z.abs z <= 2 ^ 53 ->
  parseDecimal (pad (Some z)) = Some z /\ (2 <= String.length (pad (Some z)))%nat.
Proof.
  intros H. unfold pad. rewrite (numberToString_decimal z H). unfold decimal.
  destruct (to_int_proper z) as [Hp Hn].
  destruct (pad_of_int (Z.to_int z) Hp Hn) as [A B].
  rewrite DecimalZ.of_to in A. now split.
Qed.

Lemma pad_two (z : Z) : 0 <= z <= 99 -> String.length (pad (Some z)) = 2%nat.
Proof.
  intros Hz. apply Nat.eqb_eq.
  apply (on_range 100 (fun z => (String.length (pad (Some z)) =? 2)%nat));
    [vm_compute; reflexivity | lia].
Qed.

(** X7.  For a whole number of magnitude up to 2^53, which [String]
    prints as its decimal numeral, [pad] loses nothing: the padded
    numeral reads back as the number, so distinct numbers pad to distinct
    strings; it is at least two characters long, and exactly two for
    0..99.  From 1e21 on [String] prints a whole number in exponent
    notation, which does not read back as a decimal numeral. *)
Theorem pad_reads_back (z : Z) :
  (Z.abs z <= 2 ^ 53 ->
   parseDecimal (pad (Some z)) = Some z
   /\ (2 <= String.length (pad (Some z)))%nat
   /\ (0 <= z <= 99 -> String.length (pad (Some z)) = 2%nat)
   /\ forall z', Z.abs z' <= 2 ^ 53 -> pad (Some z) = pad (Some z') -> z = z')
  /\ pad (Some (10 ^ 21)) = "1e+21"
  /\ parseDecimal (pad (Some (10 ^ 21))) = None
  /\ pad None = "NaN".
Proof.
  split; [| split; [vm_compute; reflexivity | split; vm_compute; reflexivity]].
  intros H. destruct (pad_decimal z H) as [A B].
  split; [exact A | split; [exact B | split]].
  - apply pad_two.
  - intros z' H' E. destruct (pad_decimal z' H') as [A' _]. rewrite E in A. congruence.
Qed.

Lemma pad_reads_back_witness :
  pad (Some 7) = "07" /\ parseDecimal (pad (Some 7)) = Some 7
  /\ String.length (pad (Some 123)) = 3%nat.
Proof.
  destruct (proj1 (pad_reads_back 7) ltac:(vm_compute; discriminate)) as (A & _ & _ & _).
  split; [reflexivity | split; [exact A | reflexivity]].
Defined.

Section FormattingFacts.

Context {Raw : Type} (DateOf : Raw -> Date).
Variables (YearFromDay MonthFromDay DateFromDay : Z -> Z) (LocalTZA : Z -> Z).

Abbreviation format :=
  (formatLocalMinute DateOf YearFromDay MonthFromDay DateFromDay LocalTZA).

(** X8.  On an input that coerces to an invalid Date [formatLocalMinute]
    does not throw: every field reads NaN. *)
Theorem formatLocalMinute_invalid (date : @Input Raw) :
  getTime (coerce DateOf date) = None ->
  format date = "NaN-NaN-NaN NaN:NaN".
Proof.
  intros H. unfold formatLocalMinute, getFullYear, getMonth, getDate, getHours,
    getMinutes. cbv zeta. rewrite H. reflexivity.
Qed.

(** The calendar fields only depend on the minute count of local time. *)
Lemma fields_of_minute (x y : Z) :
  x / MS_PER_MIN = y / MS_PER_MIN ->
  Day x = Day y /\ HourFromTime x = HourFromTime y /\ MinFromTime x = MinFromTime y.
Proof.
  intros E. unfold Day, HourFromTime, MinFromTime, msPerDay, msPerHour.
  rewrite MS_PER_MIN_value in *.
  replace 86400000 with (60000 * 1440) by reflexivity.
  replace 3600000 with (60000 * 60) by reflexivity.
  rewrite <- !Z.div_div by lia. now rewrite E.
Qed.

(** X9.  Where the local offset is a whole number of minutes, the same
    at an instant and at its minute, flooring the instant to the minute
    does not change what [formatLocalMinute] prints. *)
Theorem formatLocalMinute_of_floor (t : Z) :
  LocalTZA t mod MS_PER_MIN = 0 ->
  LocalTZA (t / MS_PER_MIN * MS_PER_MIN) = LocalTZA t ->
  format (InputDate (floorToMinute (DateAt t))) = format (InputDate (DateAt t)).
Proof.
  intros Hz Hsame.
  destruct (inTimeRange t) eqn:R.
  - rewrite (floorToMinute_at t R).
    unfold formatLocalMinute, getFullYear, getMonth, getDate, getHours, getMinutes.
    cbv zeta. cbn [coerce].
    rewrite (getTime_DateAt t R), (getTime_DateAt _ (floor_minute_in_range t R)).
    cbn [option_map]. unfold LocalTime. rewrite Hsame.
    assert (E : (t / MS_PER_MIN * MS_PER_MIN + LocalTZA t) / MS_PER_MIN
                = (t + LocalTZA t) / MS_PER_MIN).
    { rewrite MS_PER_MIN_value in *.
      apply Z.mod_divide in Hz; [| lia]. destruct Hz as [k ->].
      rewrite !Z.div_add by lia. rewrite Z.div_mul by lia. reflexivity. }
    destruct (fields_of_minute _ _ E) as (-> & -> & ->). reflexivity.
  - assert (G : getTime (DateAt t) = None) by (cbn [getTime]; now rewrite R).
    rewrite (floorToMinute_invalid _ G).
    rewrite (formatLocalMinute_invalid (InputDate (DateAt t)) G).
    reflexivity.
Qed.

(** Strings: lengths and substrings across a concatenation. *)
Lemma append_length (a b : string) :
  String.length (a ++ b) = (String.length a + String.length b)%nat.
Proof. induction a as [| c a IH]; simpl; [reflexivity | now rewrite IH]. Qed.

Lemma substring_head (a b : string) :
  substring 0 (String.length a) (a ++ b) = a.
Proof. induction a as [| c a IH]; simpl; [now destruct b | now rewrite IH]. Qed.

Lemma substring_past (a b : string) (k m : nat) :
  substring (String.length a + k) m (a ++ b) = substring k m b.
Proof. induction a as [| c a IH]; simpl; [reflexivity | exact IH]. Qed.

Lemma substring_at (a b : string) (m : nat) :
  substring (String.length a) m (a ++ b) = substring 0 m b.
Proof. rewrite <- (substring_past a b 0 m). f_equal. lia. Qed.

Lemma two_chars (s : string) :
  String.length s = 2%nat -> exists c1 c2, s = String c1 (String c2 "").
Proof.
  destruct s as [| c1 [| c2 [| c3 s]]]; simpl; intros H; try discriminate.
  now exists c1, c2.
Qed.

(** X10.  The layout of what [formatLocalMinute] prints for a valid
    instant whose month is in 0..11 and day in 1..31: the year as
    [String] prints it, then twelve characters, "-MM-DD HH:mm"; each
    field reads back from its place, the month as month + 1 (the year
    when its magnitude is at most 2^53, where it is printed as a decimal
    numeral). *)
Theorem formatLocalMinute_layout (t : Z) :
  getTime (DateAt t) = Some t ->
  let day := Day (LocalTime LocalTZA t) in
  0 <= MonthFromDay day <= 11 ->
  1 <= DateFromDay day <= 31 ->
  let s := format (InputDate (DateAt t)) in
  let n := String.length (numberToString (Some (YearFromDay day))) in
  String.length s = (n + 12)%nat
  /\ substring 0 n s = numberToString (Some (YearFromDay day))
  /\ (Z.abs (YearFromDay day) <= 2 ^ 53 ->
      parseDecimal (substring 0 n s) = Some (YearFromDay day))
  /\ parseDecimal (substring (n + 1) 2 s) = Some (MonthFromDay day + 1)
  /\ parseDecimal (substring (n + 4) 2 s) = Some (DateFromDay day)
  /\ parseDecimal (substring (n + 7) 2 s) = Some (HourFromTime (LocalTime LocalTZA t))
  /\ parseDecimal (substring (n + 10) 2 s) = Some (MinFromTime (LocalTime LocalTZA t))
  /\ substring n 1 s = "-" /\ substring (n + 3) 1 s = "-"
  /\ substring (n + 6) 1 s = " " /\ substring (n + 9) 1 s = ":".
Proof.
  intros Ht day Hm Hd s n. subst s.
  unfold formatLocalMinute, getFullYear, getMonth, getDate, getHours, getMinutes.
  cbv zeta. cbn [coerce]. rewrite Ht. cbn [option_map numAdd]. fold day.
  set (y := numberToString (Some (YearFromDay day))) in *. subst n.
  pose proof (Z.mod_pos_bound (LocalTime LocalTZA t / msPerHour) 24 ltac:(lia)) as Bh.
  pose proof (Z.mod_pos_bound (LocalTime LocalTZA t / MS_PER_MIN) 60 ltac:(lia)) as Bm.
  fold (HourFromTime (LocalTime LocalTZA t)) in Bh.
  fold (MinFromTime (LocalTime LocalTZA t)) in Bm.
  assert (Big : 99 <= 2 ^ 53) by (vm_compute; discriminate).
  destruct (pad_decimal (MonthFromDay day + 1) ltac:(lia)) as (P1 & _).
  destruct (pad_decimal (DateFromDay day) ltac:(lia)) as (P2 & _).
  destruct (pad_decimal (HourFromTime (LocalTime LocalTZA t)) ltac:(lia)) as (P3 & _).
  destruct (pad_decimal (MinFromTime (LocalTime LocalTZA t)) ltac:(lia)) as (P4 & _).
  pose proof (pad_two (MonthFromDay day + 1) ltac:(lia)) as L1.
  pose proof (pad_two (DateFromDay day) ltac:(lia)) as L2.
  pose proof (pad_two (HourFromTime (LocalTime LocalTZA t)) ltac:(lia)) as L3.
  pose proof (pad_two (MinFromTime (LocalTime LocalTZA t)) ltac:(lia)) as L4.
  destruct (two_chars _ L1) as (a1 & a2 & E1).
  destruct (two_chars _ L2) as (b1 & b2 & E2).
  destruct (two_chars _ L3) as (c1 & c2 & E3).
  destruct (two_chars _ L4) as (d1 & d2 & E4).
  rewrite E1, E2, E3, E4 in *. cbn [append].
  rewrite append_length.
  rewrite !substring_past, substring_at, substring_head.
  cbn [substring String.length].
  rewrite P1, P2, P3, P4.
  repeat split; try reflexivity; try lia.
  intros Hy. now apply numberToString_reads_back.
Qed.

End FormattingFacts.

Lemma formatLocalMinute_layout_witness :
  String.length (Beijing.format (DateAt Spring2024.qingming)) = 16%nat
  /\ parseDecimal (substring 5 2 (Beijing.format (DateAt Spring2024.qingming)))
     = Some 4
  /\ parseDecimal (substring 11 2 (Beijing.format (DateAt Spring2024.qingming)))
     = Some 15.
Proof.
  destruct (formatLocalMinute_layout Examples.numberToDate
              Beijing.yearFromDay Beijing.monthFromDay Beijing.dateFromDay
              Beijing.localTZA Spring2024.qingming
              eq_refl
              ltac:(vm_compute; split; discriminate)
              ltac:(vm_compute; split; discriminate))
    as (L & _ & _ & M & _ & H & _).
  split; [exact L | split; [exact M | exact H]].
Defined.

Lemma formatLocalMinute_invalid_witness :
  Beijing.format InvalidDate = "NaN-NaN-NaN NaN:NaN".
Proof.
  apply (formatLocalMinute_invalid Examples.numberToDate). reflexivity.
Defined.

(** Qingming 2024 in Beijing: the boundary instant and its minute print
    alike, 15:02 local time. *)
Lemma formatLocalMinute_of_floor_witness :
  Beijing.format (floorToMinute (DateAt Spring2024.qingming))
  = Beijing.format (DateAt Spring2024.qingming)
  /\ Beijing.format (DateAt Spring2024.qingming) = "2024-04-04 15:02".
Proof.
  split; [| vm_compute; reflexivity].
  apply (formatLocalMinute_of_floor Examples.numberToDate); reflexivity.
Defined.

Local Close Scope string_scope.

(* ------------------------------------------------------------------ *)
(** ** Resolutions *)

(** Consecutive table entries are 15 degrees apart around the circle,
    in the arithmetic of numbers. *)
Lemma table_neighbours (i : Z) :
  0 <= i <= 23 ->
  lonOf (nextIdx i) = norm360 (Double.add (lonOf i) (Fin 15))
  /\ lonOf (prevIdx i) = norm360 (Double.sub (lonOf i) (Fin 15)).
Proof.
  intros Hi.
  pose proof (on_table
                (fun i => identical (lonOf (nextIdx i))
                            (norm360 (Double.add (lonOf i) (Fin 15)))
                          && identical (lonOf (prevIdx i))
                               (norm360 (Double.sub (lonOf i) (Fin 15))))
                ltac:(vm_compute; reflexivity) i Hi) as H.
  cbv beta in H. apply andb_true_iff in H. destruct H as [H1 H2].
  split; now apply identical_eq.
Qed.

Section ResolutionFacts.

Context {Raw : Type} (truthy : Raw -> bool) (DateOf : Raw -> Date).

Abbreviation resolve := (getSolarTermInfo truthy DateOf).

Lemma firstIdx_in_table (o : @Oracle Raw) (t i0 : Z) :
  firstIdx o t = Some i0 -> 0 <= i0 <= 23.
Proof. intros H. now destruct (table_entry _ _ H) as [Hi _]. Qed.

Lemma currentIdx_in_table (o : @Oracle Raw) (t i0 : Z) :
  0 <= i0 <= 23 -> 0 <= currentIdx truthy DateOf o t i0 <= 23.
Proof.
  intros H. unfold currentIdx.
  destruct (corrected truthy DateOf o t i0); [now apply prevIdx_range | exact H].
Qed.

Lemma plan_in_table (o : @Oracle Raw) (t i0 i : Z) :
  0 <= i0 <= 23 -> In i (plan truthy DateOf o t i0) -> 0 <= i <= 23.
Proof.
  intros H0. pose proof (currentIdx_in_table o t i0 H0) as Hc.
  unfold plan. intros [<- | Hin]; [exact H0 |].
  apply in_app_or in Hin. destruct Hin as [Hin | Hin].
  - destruct (corrected truthy DateOf o t i0); [| contradiction].
    destruct Hin as [<- | []]. now apply prevIdx_range.
  - destruct Hin as [<- | [<- | []]];
      [now apply prevIdx_range | now apply nextIdx_range].
Qed.

(** Every call of a run of searches is the primary or the fallback call
    of one of its indices. *)
Lemma searches_members (o : @Oracle Raw) (t : Z) (idxs : list Z) (c : OracleCall) :
  In c (searches truthy DateOf o t idxs) ->
  exists i, In i idxs
            /\ (c = primaryCall o (lonOf i) t \/ c = fallbackCall o (lonOf i) t).
Proof.
  induction idxs as [| j rest IH]; [contradiction |].
  cbn [searches]. intros Hin. apply in_app_or in Hin. destruct Hin as [Hin | Hin].
  - exists j. split; [now left |]. unfold searchCalls in Hin.
    destruct (validAnswer truthy DateOf (primaryCall o (lonOf j) t));
      [| destruct (threw (primaryCall o (lonOf j) t))];
      cbn [In] in Hin; intuition auto.
  - destruct (boundary truthy DateOf o (lonOf j) t); [| contradiction].
    destruct (IH Hin) as (i & Hi & Hc). exists i. split; [now right | exact Hc].
Qed.

(** A run of searches that fails with the error naming a longitude ends
    with the two calls of the failing search, which both returned
    without a valid instant. *)
Lemma firstFailure_some (o : @Oracle Raw) (t : Z) (idxs : list Z) (l : Number) :
  firstFailure truthy DateOf o t idxs = Some (FindFailed l) ->
  exists i pre,
    In i idxs /\ l = lonOf i
    /\ searches truthy DateOf o t idxs = pre ++ [primaryCall o l t; fallbackCall o l t]
    /\ validAnswer truthy DateOf (primaryCall o l t) = None
    /\ validAnswer truthy DateOf (fallbackCall o l t) = None
    /\ threw (primaryCall o l t) = false
    /\ threw (fallbackCall o l t) = false.
Proof.
  induction idxs as [| j rest IH]; [discriminate |].
  cbn [firstFailure searches]. unfold boundary at 1 2, searchCalls, failure.
  destruct (validAnswer truthy DateOf (primaryCall o (lonOf j) t)) as [b |] eqn:P.
  - intros H. destruct (IH H) as (i & pre & Hi & -> & -> & V).
    exists i, (primaryCall o (lonOf j) t :: pre). repeat split; try apply V. now right.
  - destruct (threw (primaryCall o (lonOf j) t)) eqn:T1; [discriminate |].
    destruct (validAnswer truthy DateOf (fallbackCall o (lonOf j) t)) as [b |] eqn:F.
    + intros H. destruct (IH H) as (i & pre & Hi & -> & -> & V).
      exists i, (primaryCall o (lonOf j) t :: fallbackCall o (lonOf j) t :: pre).
      repeat split; try apply V. now right.
    + destruct (threw (fallbackCall o (lonOf j) t)) eqn:T2; [discriminate |].
      intros H. injection H as <-. exists j, []. rewrite app_nil_r.
      repeat split; auto. now left.
Qed.

(** The exceptions of a run of searches, and the call that threw. *)
Lemma firstFailure_error (o : @Oracle Raw) (t : Z) (idxs : list Z) (e : Error) :
  firstFailure truthy DateOf o t idxs = Some e ->
  (exists l, e = FindFailed l)
  \/ (e = OracleError
      /\ exists pre c, searches truthy DateOf o t idxs = pre ++ [c] /\ threw c = true).
Proof.
  induction idxs as [| j rest IH]; [discriminate |].
  cbn [firstFailure searches]. unfold boundary at 1 2, searchCalls, failure.
  destruct (validAnswer truthy DateOf (primaryCall o (lonOf j) t)) as [b |] eqn:P.
  - intros H. destruct (IH H) as [L | (-> & pre & c & -> & T)]; [now left | right].
    split; [reflexivity |]. now exists (primaryCall o (lonOf j) t :: pre), c.
  - destruct (threw (primaryCall o (lonOf j) t)) eqn:T1.
    + intros H. injection H as <-. right. split; [reflexivity |].
      exists [], (primaryCall o (lonOf j) t). rewrite app_nil_r. now split.
    + destruct (validAnswer truthy DateOf (fallbackCall o (lonOf j) t)) as [b |] eqn:F.
      * intros H. destruct (IH H) as [L | (-> & pre & c & -> & T)]; [now left | right].
        split; [reflexivity |].
        now exists (primaryCall o (lonOf j) t :: fallbackCall o (lonOf j) t :: pre), c.
      * destruct (threw (fallbackCall o (lonOf j) t)) eqn:T2.
        -- intros H. injection H as <-. right. split; [reflexivity |].
           exists [primaryCall o (lonOf j) t], (fallbackCall o (lonOf j) t).
           rewrite app_nil_r. now split.
        -- intros H. injection H as <-. left. now exists (lonOf j).
Qed.

(** The exception of a run that asks nothing is one of the three early
    ones. *)
Lemma errors_shape (g : AstronomyGlobal) (inputDate : Input) (e : Error) :
  (forall now, resolve g now inputDate = ([], inl e)) ->
  e = MissingAstronomy \/ e = AstronomyFunctionsNotFound \/ e = InvalidInputDate.
Proof.
  intros H. specialize (H InvalidDate).
  destruct g as [| [sp |] [ssl |]];
    try (cbn in H; injection H as <-; auto; fail).
  destruct (getTime (coerce DateOf inputDate)) as [t |] eqn:Hc.
  - rewrite (run_valid truthy DateOf sp ssl _ inputDate t Hc) in H.
    unfold resolution in H. destruct (firstIdx _ t); discriminate.
  - rewrite (run_invalid truthy DateOf sp ssl _ inputDate Hc) in H.
    injection H as <-. auto.
Qed.

(** The exceptions of a resolution that has read the longitude. *)
Lemma late_errors (o : @Oracle Raw) (now : Date) (t : Z) (e : Error) :
  outcome (resolution truthy DateOf o now t) = inl e ->
  e = TypeError \/ e = OracleError \/ exists l, e = FindFailed l.
Proof.
  unfold resolution. destruct (firstIdx o t) as [i0 |]; cbn [outcome snd].
  - destruct (firstFailure truthy DateOf o t _) as [e' |] eqn:F; [| discriminate].
    intros H. injection H as <-.
    destruct (firstFailure_error o t _ _ F) as [L | [-> _]]; auto.
  - intros H. injection H as <-. unfold readError.
    destruct (SunPosition o (DateAt t)); auto.
Qed.

(** The longitude read of a finite double maps to a table index. *)
Lemma firstIdx_of_double (o : @Oracle Raw) (t : Z) (x : Number) :
  SunPosition o (DateAt t) = Some (SunObject (Some x)) ->
  isDouble x -> finite x = true ->
  exists i, 0 <= i <= 23 /\ firstIdx o t = Some i.
Proof.
  intros Hs D F. unfold firstIdx, elonAt. rewrite Hs. cbn [toNumber].
  pose proof (norm360_isDouble x D) as D'.
  pose proof (between_finite _ _ _ (norm360_between x F)) as F'.
  destruct (termIndexFromElon_double (norm360 x) F' D') as (i & Hi & W).
  exists i. split; [exact Hi | now apply tableIndex_whole].
Qed.

(** X13.  The three checks that precede the oracle come in this order:
    a missing [Astronomy], one without both functions, an invalid input.
    Each error is thrown exactly in its situation, whatever the later
    checks would say, and nothing has been asked then. *)
Theorem errors_before_the_oracle
        (g : AstronomyGlobal) (now : Date) (inputDate : Input) :
  (outcome (resolve g now inputDate) = inl MissingAstronomy <-> g = Undefined)
  /\ (outcome (resolve g now inputDate) = inl AstronomyFunctionsNotFound
      <-> exists sp ssl, g = AstronomyObject sp ssl /\ (sp = None \/ ssl = None))
  /\ (outcome (resolve g now inputDate) = inl InvalidInputDate
      <-> (exists sp ssl, g = AstronomyObject (Some sp) (Some ssl))
          /\ getTime (coerce DateOf inputDate) = None)
  /\ ((g = Undefined \/ (exists sp ssl, g = AstronomyObject sp ssl
                                        /\ (sp = None \/ ssl = None))
       \/ getTime (coerce DateOf inputDate) = None)
      -> trace (resolve g now inputDate) = []).
Proof.
  assert (V : forall sp ssl t, getTime (coerce DateOf inputDate) = Some t ->
              forall e, outcome (resolve (AstronomyObject (Some sp) (Some ssl))
                                   now inputDate) = inl e ->
                        e = TypeError \/ e = OracleError \/ exists l, e = FindFailed l).
  { intros sp ssl t Hc e.
    rewrite (run_valid truthy DateOf sp ssl now inputDate t Hc).
    apply late_errors. }
  destruct g as [| [sp |] [ssl |]].
  - (* no Astronomy *)
    repeat split; try discriminate; try reflexivity;
      try (intros (sp & ssl & H & _); discriminate);
      try (intros [(sp & ssl & H) _]; discriminate).
  - (* both functions *)
    destruct (getTime (coerce DateOf inputDate)) as [t |] eqn:Hc.
    + repeat split; try discriminate;
        try (intros H; destruct (V sp ssl t eq_refl _ H) as [E | [E | [l E]]];
             discriminate);
        try (intros (sp' & ssl' & H & [-> | ->]); discriminate);
        try (intros [_ H]; discriminate);
        try match goal with
            | H : outcome _ = inl _ |- _ =>
                destruct (V _ _ _ eq_refl _ H) as [E | [E | [l E]]]; discriminate
            end.
      intros [H1 | [(sp' & ssl' & H2 & [-> | ->]) | H3]]; discriminate.
    + rewrite (run_invalid truthy DateOf sp ssl now inputDate Hc).
      repeat split; try discriminate; try reflexivity.
      * intros (sp' & ssl' & H & [-> | ->]); discriminate.
      * now exists sp, ssl.
  - (* no SearchSunLongitude *)
    repeat split; try discriminate; try reflexivity;
      try (intros [(sp' & ssl' & H) _]; discriminate).
    intros _. exists (Some sp), None. auto.
  - (* no SunPosition *)
    repeat split; try discriminate; try reflexivity;
      try (intros [(sp' & ssl' & H) _]; discriminate).
    intros _. exists None, (Some ssl). auto.
  - (* neither *)
    repeat split; try discriminate; try reflexivity;
      try (intros [(sp' & ssl' & H) _]; discriminate).
    intros _. exists None, None. auto.
Qed.

(** X14.  The exceptions of a resolution whose longitude read returned.
    It fails with a TypeError, on the read of [.elon] or on the table
    lookup ([SOLAR_TERMS[idx]] is undefined), exactly when the read maps
    to no table index; the longitude read is then the only oracle call
    made.  That is so when [SunPosition] returns nothing an [.elon] can
    be read of and when the [.elon] is missing or NaN; it is never so
    when the [.elon] is a finite double.  When the resolution throws the
    boundary-not-found error for a longitude, that longitude is one of
    the table and the last two oracle calls were the primary and the
    fallback call for it, which both returned without a valid instant. *)
Theorem boundary_error_after_both_windows
        (g : AstronomyGlobal) (now : Date) (inputDate : Input) :
  (outcome (resolve g now inputDate) = inl TypeError
   <-> exists sp ssl t,
         g = AstronomyObject (Some sp) (Some ssl)
         /\ getTime (coerce DateOf inputDate) = Some t
         /\ sp (DateAt t) <> None
         /\ firstIdx (mkOracle sp ssl) t = None)
  /\ (outcome (resolve g now inputDate) = inl TypeError ->
      exists date answer,
        trace (resolve g now inputDate) = [CallSunPosition date (Some answer)])
  /\ (forall sp ssl t,
        g = AstronomyObject (Some sp) (Some ssl) ->
        getTime (coerce DateOf inputDate) = Some t ->
        (sp (DateAt t) = Some NoObject \/ sp (DateAt t) = Some (SunObject None)
         \/ sp (DateAt t) = Some (SunObject (Some NaN)) ->
         outcome (resolve g now inputDate) = inl TypeError)
        /\ (forall x, sp (DateAt t) = Some (SunObject (Some x)) ->
                      isDouble x -> finite x = true ->
                      outcome (resolve g now inputDate) <> inl TypeError))
  /\ forall l, outcome (resolve g now inputDate) = inl (FindFailed l) ->
       exists sp ssl t i pre,
         g = AstronomyObject (Some sp) (Some ssl)
         /\ getTime (coerce DateOf inputDate) = Some t
         /\ 0 <= i <= 23 /\ l = lonOf i
         /\ trace (resolve g now inputDate)
            = pre ++ [primaryCall (mkOracle sp ssl) l t;
                      fallbackCall (mkOracle sp ssl) l t]
         /\ validAnswer truthy DateOf (primaryCall (mkOracle sp ssl) l t) = None
         /\ validAnswer truthy DateOf (fallbackCall (mkOracle sp ssl) l t) = None
         /\ threw (primaryCall (mkOracle sp ssl) l t) = false
         /\ threw (fallbackCall (mkOracle sp ssl) l t) = false.
Proof.
  destruct (run_shape truthy DateOf g inputDate) as [[e He] | (sp & ssl & t & -> & Hc)].
  - destruct (errors_shape g inputDate e He) as [E | [E | E]];
      rewrite He; cbn [outcome snd]; subst e.
    all: split; [split; [discriminate |] |].
    all: try (intros (sp & ssl & t & -> & Hc & _);
              specialize (He now);
              rewrite (run_valid truthy DateOf sp ssl now inputDate t Hc) in He;
              unfold resolution in He; destruct (firstIdx _ t); discriminate).
    all: split; [discriminate |].
    all: split; [| intros l H; discriminate].
    all: intros sp ssl t -> Hc; specialize (He now);
      rewrite (run_valid truthy DateOf sp ssl now inputDate t Hc) in He;
      unfold resolution in He; destruct (firstIdx _ t); discriminate.
  - rewrite (run_valid truthy DateOf sp ssl now inputDate t Hc).
    set (o := mkOracle sp ssl).
    assert (T : outcome (resolution truthy DateOf o now t) = inl TypeError
                <-> sp (DateAt t) <> None /\ firstIdx o t = None).
    { unfold resolution. destruct (firstIdx o t) as [i0 |]; cbn [outcome snd].
      - destruct (firstFailure truthy DateOf o t _) as [e |] eqn:F.
        + split; [| intros [_ H]; discriminate].
          intros H. injection H as ->.
          destruct (firstFailure_error o t _ _ F) as [[l L] | [L _]]; discriminate.
        + split; [discriminate | intros [_ H]; discriminate].
      - unfold readError. cbn [SunPosition o].
        destruct (sp (DateAt t)); split; try discriminate.
        + intros _. split; [discriminate | reflexivity].
        + reflexivity.
        + intros [H _]. now destruct H. }
    split; [| split; [| split]].
    + rewrite T. split.
      * intros [S F]. now exists sp, ssl, t.
      * intros (sp' & ssl' & t' & E & Hc' & S & F). injection E as <- <-.
        rewrite Hc in Hc'. injection Hc' as <-. now split.
    + rewrite T. intros [S F]. unfold resolution. rewrite F. cbn [SunPosition o].
      destruct (sp (DateAt t)) as [a |]; [| now destruct S].
      now exists (DateAt t), a.
    + intros sp' ssl' t' E Hc'. injection E as <- <-.
      rewrite Hc in Hc'. injection Hc' as <-. fold o. split.
      * intros H. apply T. unfold firstIdx, elonAt. cbn [SunPosition o].
        destruct H as [-> | [-> | ->]]; (split; [discriminate | apply no_index_of_NaN]).
      * intros x Hs D F H. apply T in H. destruct H as [_ H].
        destruct (firstIdx_of_double o t x Hs D F) as (i & _ & Hi).
        rewrite Hi in H. discriminate.
    + intros l H. unfold resolution in H |- *.
      destruct (firstIdx o t) as [i0 |] eqn:F0.
      2:{ cbn [outcome snd] in H. unfold readError in H.
          destruct (SunPosition o (DateAt t)); discriminate. }
      cbn [outcome trace fst snd] in H |- *.
      destruct (firstFailure truthy DateOf o t (plan truthy DateOf o t i0))
        as [l' |] eqn:F; [| discriminate].
      injection H as ->.
      destruct (firstFailure_some o t _ _ F)
        as (i & pre & Hi & -> & -> & V1 & V2 & T1 & T2).
      exists sp, ssl, t, i, (CallSunPosition (DateAt t) (sp (DateAt t)) :: pre).
      repeat split; auto;
        apply (plan_in_table o t i0 i (firstIdx_in_table o t i0 F0) Hi).
Qed.

(** X21.  What a function of the oracle throws propagates: a call that
    threw is the last call of the resolution, which throws the same; and
    a resolution that throws the oracle's exception ends with the call
    that threw. *)
Theorem oracle_exception_propagates
        (g : AstronomyGlobal) (now : Date) (inputDate : Input) :
  (forall c, In c (trace (resolve g now inputDate)) -> threw c = true ->
     outcome (resolve g now inputDate) = inl OracleError
     /\ exists pre, trace (resolve g now inputDate) = pre ++ [c])
  /\ (outcome (resolve g now inputDate) = inl OracleError ->
      exists pre c, trace (resolve g now inputDate) = pre ++ [c] /\ threw c = true).
Proof.
  destruct (run_shape truthy DateOf g inputDate) as [[e He] | (sp & ssl & t & -> & Hc)].
  - rewrite He. cbn [trace outcome fst snd]. split; [intros c [] |].
    intros H. injection H as ->.
    destruct (errors_shape g inputDate OracleError He) as [E | [E | E]];
      discriminate.
  - rewrite (run_valid truthy DateOf sp ssl now inputDate t Hc).
    set (o := mkOracle sp ssl). unfold resolution.
    destruct (firstIdx o t) as [i0 |] eqn:F0; cbn [trace outcome fst snd].
    + assert (S : sp (DateAt t) <> None).
      { intros E. unfold firstIdx, elonAt in F0. cbn [SunPosition o] in F0.
        rewrite E, no_index_of_NaN in F0. discriminate. }
      split.
      * intros c [<- | Hin] Hth.
        { cbn [threw SunPosition o] in Hth. destruct (sp (DateAt t)); [discriminate |].
          now destruct S. }
        destruct (searches_thrown truthy DateOf o t _ c Hin Hth) as [-> [pre ->]].
        split; [reflexivity |].
        now exists (CallSunPosition (DateAt t) (SunPosition o (DateAt t)) :: pre).
      * destruct (firstFailure truthy DateOf o t _) as [e |] eqn:F; [| discriminate].
        intros H. injection H as ->.
        destruct (firstFailure_error o t _ _ F) as [[l L] | (_ & pre & c & -> & T)];
          [discriminate |].
        now exists (CallSunPosition (DateAt t) (SunPosition o (DateAt t)) :: pre), c.
    + unfold readError. cbn [SunPosition o]. split.
      * intros c [<- | []] Hth. cbn [threw] in Hth.
        destruct (sp (DateAt t)); [discriminate |].
        split; [reflexivity | now exists []].
      * destruct (sp (DateAt t)) eqn:E; [discriminate |]. intros _.
        exists [], (CallSunPosition (DateAt t) None). now split.
Qed.

(** X15.  What the resolver asks the oracle: the longitude at the query
    instant itself, and then only searches for one of the 24 table
    longitudes (which normalising leaves as they are), over 80 days from
    [new Date(t - 40 days)] or over 400 days from
    [new Date(t - 200 days)]: the instant 40 (200) days before the query
    instant, unless that lies before the first time value. *)
Theorem oracle_questions
        (g : AstronomyGlobal) (now : Date) (inputDate : Input) (c : OracleCall) :
  In c (trace (resolve g now inputDate)) ->
  exists sp ssl t,
    g = AstronomyObject (Some sp) (Some ssl)
    /\ getTime (coerce DateOf inputDate) = Some t
    /\ (c = CallSunPosition (DateAt t) (sp (DateAt t))
        \/ exists i start limitDays,
             0 <= i <= 23
             /\ c = CallSearch (lonOf i) start limitDays (ssl (lonOf i) start limitDays)
             /\ ((start = newDate (Some (t - 40 * MS_PER_DAY)) /\ limitDays = 80
                  /\ (firstInstant <= t - 40 * MS_PER_DAY ->
                      start = DateAt (t - 40 * MS_PER_DAY)))
                 \/ (start = newDate (Some (t - 200 * MS_PER_DAY)) /\ limitDays = 400
                     /\ (firstInstant <= t - 200 * MS_PER_DAY ->
                         start = DateAt (t - 200 * MS_PER_DAY))))).
Proof.
  intros Hin.
  destruct (run_shape truthy DateOf g inputDate) as [[e He] | (sp & ssl & t & -> & Hc)].
  - rewrite He in Hin. contradiction.
  - exists sp, ssl, t. split; [reflexivity | split; [exact Hc |]].
    rewrite (run_valid truthy DateOf sp ssl now inputDate t Hc) in Hin.
    pose proof Hc as R. apply getTime_Some in R. destruct R as [_ R].
    apply inTimeRange_iff in R.
    unfold resolution in Hin.
    destruct (firstIdx (mkOracle sp ssl) t) as [i0 |] eqn:F0; cbn [trace fst] in Hin.
    + destruct Hin as [<- | Hin]; [now left | right].
      destruct (searches_members _ _ _ _ Hin) as (i & Hi & Hcall).
      apply (plan_in_table _ t i0 i (firstIdx_in_table _ t i0 F0)) in Hi.
      destruct (table_longitudes i Hi) as (Enorm & _).
      unfold primaryCall, fallbackCall in Hcall. cbv zeta in Hcall.
      rewrite Enorm in Hcall. cbn [SearchSunLongitude] in Hcall.
      destruct Hcall as [-> | ->]; exists i; eexists; eexists;
        (split; [exact Hi | split; [reflexivity |]]); [left | right];
        (split; [reflexivity | split; [reflexivity |]]);
        intros L; apply newDate_DateAt, inTimeRange_iff;
        rewrite MS_PER_DAY_value in *; unfold firstInstant, lastInstant in *; lia.
    + destruct Hin as [<- | []]. now left.
Qed.

(** Searches that amount to the same instants find the same boundaries. *)
Lemma boundary_ext (sp : Date -> option SunAnswer)
      (ssl1 ssl2 : Number -> Date -> Z -> option AstroValue) :
  (forall l s d, option_map (instantOf truthy DateOf) (ssl1 l s d)
                 = option_map (instantOf truthy DateOf) (ssl2 l s d)) ->
  forall l t, boundary truthy DateOf (mkOracle sp ssl1) l t
              = boundary truthy DateOf (mkOracle sp ssl2) l t
              /\ failure (mkOracle sp ssl1) l t = failure (mkOracle sp ssl2) l t
              /\ List.length (searchCalls truthy DateOf (mkOracle sp ssl1) l t)
                 = List.length (searchCalls truthy DateOf (mkOracle sp ssl2) l t).
Proof.
  intros H l t.
  unfold boundary, searchCalls, failure, primaryCall, fallbackCall, validAnswer, threw.
  cbv zeta. cbn [SearchSunLongitude].
  pose proof (H (norm360 l) (newDate (Some (t - 40 * MS_PER_DAY))) 80) as H1.
  pose proof (H (norm360 l) (newDate (Some (t - 200 * MS_PER_DAY))) 400) as H2.
  destruct (ssl1 (norm360 l) (newDate (Some (t - 40 * MS_PER_DAY))) 80) as [a1 |],
    (ssl2 (norm360 l) (newDate (Some (t - 40 * MS_PER_DAY))) 80) as [b1 |];
    try discriminate;
    destruct (ssl1 (norm360 l) (newDate (Some (t - 200 * MS_PER_DAY))) 400) as [a2 |],
      (ssl2 (norm360 l) (newDate (Some (t - 200 * MS_PER_DAY))) 400) as [b2 |];
    try discriminate; cbn [option_map] in *;
    try (injection H1 as ->); try (injection H2 as ->);
    try (destruct (instantOf truthy DateOf b1));
    repeat split; reflexivity.
Qed.

(** X16.  The resolver only looks at the instant an answer amounts to: a
    Date, an object holding that Date in [.date] and a truthy raw value
    that [new Date] turns into it are the same to it, and so are a falsy
    answer and one that amounts to an invalid Date.  Two search
    functions that throw on the same calls and whose answers agree in
    this sense give the same outcome after the same number of calls. *)
Theorem answers_matter_by_instant
        (sp : Date -> option SunAnswer)
        (ssl1 ssl2 : Number -> Date -> Z -> option AstroValue)
        (now : Date) (inputDate : Input) :
  (forall l s d, option_map (instantOf truthy DateOf) (ssl1 l s d)
                 = option_map (instantOf truthy DateOf) (ssl2 l s d)) ->
  outcome (resolve (AstronomyObject (Some sp) (Some ssl1)) now inputDate)
  = outcome (resolve (AstronomyObject (Some sp) (Some ssl2)) now inputDate)
  /\ List.length (trace (resolve (AstronomyObject (Some sp) (Some ssl1)) now inputDate))
     = List.length (trace (resolve (AstronomyObject (Some sp) (Some ssl2)) now inputDate)).
Proof.
  intros H.
  destruct (getTime (coerce DateOf inputDate)) as [t |] eqn:Hc.
  - rewrite !(run_valid truthy DateOf sp _ now inputDate t Hc). unfold resolution.
    set (o1 := mkOracle sp ssl1). set (o2 := mkOracle sp ssl2).
    assert (I : firstIdx o1 t = firstIdx o2 t) by reflexivity.
    rewrite I. destruct (firstIdx o2 t) as [i0 |]; [| now split].
    cbn [outcome trace fst snd List.length].
    assert (B : forall l, boundary truthy DateOf o1 l t = boundary truthy DateOf o2 l t)
      by (intros l; apply (boundary_ext sp ssl1 ssl2 H)).
    assert (Fl : forall l, failure o1 l t = failure o2 l t)
      by (intros l; apply (boundary_ext sp ssl1 ssl2 H)).
    assert (L : forall l, List.length (searchCalls truthy DateOf o1 l t)
                          = List.length (searchCalls truthy DateOf o2 l t))
      by (intros l; apply (boundary_ext sp ssl1 ssl2 H)).
    assert (E : elonAt o1 t = elonAt o2 t) by reflexivity.
    assert (C : corrected truthy DateOf o1 t i0 = corrected truthy DateOf o2 t i0)
      by (unfold corrected; now rewrite B).
    assert (K : currentIdx truthy DateOf o1 t i0 = currentIdx truthy DateOf o2 t i0)
      by (unfold currentIdx; now rewrite C).
    assert (P : plan truthy DateOf o1 t i0 = plan truthy DateOf o2 t i0)
      by (unfold plan; now rewrite C, K).
    assert (F : forall idxs,
               firstFailure truthy DateOf o1 t idxs = firstFailure truthy DateOf o2 t idxs
               /\ List.length (searches truthy DateOf o1 t idxs)
                  = List.length (searches truthy DateOf o2 t idxs)).
    { induction idxs as [| i rest [IH1 IH2]]; [now split |].
      cbn [firstFailure searches]. rewrite !length_app, B, L, IH1, Fl.
      destruct (boundary truthy DateOf o2 (lonOf i) t); split; auto. }
    rewrite P. destruct (F (plan truthy DateOf o2 t i0)) as [-> ->].
    split; [| reflexivity].
    destruct (firstFailure truthy DateOf o2 t (plan truthy DateOf o2 t i0));
      [reflexivity |].
    f_equal. unfold assemble. rewrite K, E. cbv zeta. rewrite !B. reflexivity.
  - rewrite !(run_invalid truthy DateOf sp _ now inputDate Hc). now split.
Qed.

(** Searches whose primary calls all bring a valid instant. *)
Lemma searches_all_primary (o : @Oracle Raw) (t : Z) (idxs : list Z) :
  (forall i, In i idxs -> validAnswer truthy DateOf (primaryCall o (lonOf i) t) <> None) ->
  firstFailure truthy DateOf o t idxs = None
  /\ searches truthy DateOf o t idxs = map (fun i => primaryCall o (lonOf i) t) idxs.
Proof.
  induction idxs as [| i rest IH]; intros H; [now split |].
  cbn [firstFailure searches map]. unfold boundary, searchCalls.
  destruct (validAnswer truthy DateOf (primaryCall o (lonOf i) t)) eqn:P.
  - destruct IH as [-> ->]; [intros j Hj; apply H; now right | now split].
  - exfalso. apply (H i); [now left | exact P].
Qed.

(** X17.  On a valid instant, when the longitude read maps to a table
    index and every primary search of the resolution brings a valid
    instant, the resolution succeeds, never uses a fallback window, and
    asks the oracle 4 times, or 5 times when the self-correction fires.
    When the read maps to no table index the resolution throws after the
    read: what the read threw, or a TypeError. *)
Theorem primary_answers_suffice
        (sp : Date -> option SunAnswer) (ssl : Number -> Date -> Z -> option AstroValue)
        (now : Date) (inputDate : Input) (t : Z) :
  getTime (coerce DateOf inputDate) = Some t ->
  let o := mkOracle sp ssl in
  let R := resolve (AstronomyObject (Some sp) (Some ssl)) now inputDate in
  match firstIdx o t with
  | Some i0 =>
      (forall i, In i (plan truthy DateOf o t i0) ->
                 validAnswer truthy DateOf (primaryCall o (lonOf i) t) <> None) ->
      (exists r, outcome R = inr r)
      /\ trace R = CallSunPosition (DateAt t) (sp (DateAt t))
                   :: map (fun i => primaryCall o (lonOf i) t) (plan truthy DateOf o t i0)
      /\ List.length (trace R) = (if corrected truthy DateOf o t i0 then 5 else 4)%nat
  | None => R = ([CallSunPosition (DateAt t) (sp (DateAt t))], inl (readError o t))
  end.
Proof.
  intros Hc o R. subst R.
  rewrite (run_valid truthy DateOf sp ssl now inputDate t Hc). unfold resolution.
  fold o. destruct (firstIdx o t) as [i0 |]; [| reflexivity].
  intros H. cbn [outcome trace fst snd].
  destruct (searches_all_primary o t _ H) as [-> ->].
  split; [eexists; reflexivity | split; [reflexivity |]].
  cbn [List.length]. rewrite length_map. unfold plan.
  destruct (corrected truthy DateOf o t i0); reflexivity.
Qed.

(** X18.  The three terms of a result are consecutive table entries:
    previous, current and next sit at indices [(idx + 23) % 24], [idx]
    and [(idx + 1) % 24], and their longitudes are 15 degrees apart
    around the circle. *)
Theorem result_terms_consecutive
        (g : AstronomyGlobal) (now : Date) (inputDate : Input) (r : SolarTermInfo) :
  outcome (resolve g now inputDate) = inr r ->
  exists idx,
    0 <= idx <= 23
    /\ termAt (indexNumber idx)
       = Some (mkTerm (Current.name (current r)) (Current.lon (current r)))
    /\ termAt (indexNumber (prevIdx idx))
       = Some (mkTerm (Adjacent.name (previous r)) (Adjacent.lon (previous r)))
    /\ termAt (indexNumber (nextIdx idx))
       = Some (mkTerm (Adjacent.name (next r)) (Adjacent.lon (next r)))
    /\ Adjacent.lon (next r) = norm360 (Double.add (Current.lon (current r)) (Fin 15))
    /\ Adjacent.lon (previous r)
       = norm360 (Double.sub (Current.lon (current r)) (Fin 15)).
Proof.
  intros H.
  destruct (run_success truthy DateOf g now inputDate r H)
    as (sp & ssl & t & i0 & _ & _ & F0 & -> & _).
  set (o := mkOracle sp ssl) in *.
  pose proof (currentIdx_in_table o t i0 (firstIdx_in_table o t i0 F0)) as Hi.
  exists (currentIdx truthy DateOf o t i0). unfold assemble. cbv zeta.
  cbn [current previous next Current.name Current.lon Adjacent.name Adjacent.lon].
  destruct (table_neighbours _ Hi) as (En & Ep).
  rewrite (termAt_index (currentIdx truthy DateOf o t i0)) by assumption.
  rewrite (termAt_index (prevIdx (currentIdx truthy DateOf o t i0)))
    by (now apply prevIdx_range).
  rewrite (termAt_index (nextIdx (currentIdx truthy DateOf o t i0)))
    by (now apply nextIdx_range).
  assert (Eta : forall tm : SolarTerm, Some tm = Some (mkTerm (name tm) (lon tm)))
    by (now intros []).
  split; [exact Hi |].
  split; [apply Eta |]. split; [apply Eta |]. split; [apply Eta |].
  split; [exact En | exact Ep].
Qed.

(** X19.  In every result meta.sunEclipticLongitude is the longitude
    read, normalised: a finite number in [0, 360], the end included.
    The table index it maps to is that of the current term when the
    self-correction did not fire and that of the next term when it
    did. *)
Theorem sun_longitude_near_current_term
        (g : AstronomyGlobal) (now : Date) (inputDate : Input) (r : SolarTermInfo) :
  outcome (resolve g now inputDate) = inr r ->
  let elon := Meta.sunEclipticLongitude (meta r) in
  between 0 360 elon
  /\ exists sp ssl t i0,
       g = AstronomyObject (Some sp) (Some ssl)
       /\ getTime (coerce DateOf inputDate) = Some t
       /\ elon = elonAt (mkOracle sp ssl) t
       /\ tableIndex (termIndexFromElon elon) = Some i0
       /\ (if corrected truthy DateOf (mkOracle sp ssl) t i0
           then Current.lon (current r) = lonOf (prevIdx i0)
                /\ Adjacent.lon (next r) = lonOf i0
           else Current.lon (current r) = lonOf i0).
Proof.
  intros H.
  destruct (run_success truthy DateOf g now inputDate r H)
    as (sp & ssl & t & i0 & -> & Hc & F0 & -> & _).
  set (o := mkOracle sp ssl) in *. cbv zeta.
  unfold assemble at 1. cbv zeta. cbn [meta Meta.sunEclipticLongitude].
  split.
  - pose proof (tableIndex_finite _ _ F0) as F1.
    apply termIndexFromElon_finite in F1.
    unfold elonAt in *.
    destruct (SunPosition o (DateAt t)) as [[| e] |]; try discriminate.
    apply norm360_between. now apply norm360_finite.
  - exists sp, ssl, t, i0.
    split; [reflexivity | split; [exact Hc | split; [reflexivity |]]].
    split; [exact F0 |].
    unfold assemble, currentIdx. cbv zeta. fold o.
    destruct (corrected truthy DateOf o t i0) eqn:C;
      cbn [current next Current.lon Adjacent.lon]; [| reflexivity].
    split; [reflexivity |].
    now rewrite (nextIdx_prevIdx i0 (firstIdx_in_table o t i0 F0)).
Qed.

(** X20.  A boundary search asks the oracle once or twice, always for
    the normalised longitude, which lies in [0, 360] when the longitude
    given is finite; it returns a Date with a time value, or throws the
    error naming the longitude as it was given, or throws what the oracle
    threw; nothing else. *)
Theorem findSunLongitudeEvent_contract
        (o : @Oracle Raw) (targetLon : Number) (centerDate : Date) :
  let R := findSunLongitudeEvent truthy DateOf o targetLon centerDate in
  (1 <= List.length (trace R) <= 2)%nat
  /\ (forall c, In c (trace R) ->
        exists start limitDays answer,
          c = CallSearch (norm360 targetLon) start limitDays answer
          /\ (limitDays = 80 \/ limitDays = 400)
          /\ (finite targetLon = true -> between 0 360 (norm360 targetLon)))
  /\ ((exists b, outcome R = inr (DateAt b) /\ getTime (DateAt b) = Some b)
      \/ outcome R = inl (FindFailed targetLon)
      \/ (outcome R = inl OracleError
          /\ exists pre c, trace R = pre ++ [c] /\ threw c = true)).
Proof.
  cbv zeta. rewrite (find_general truthy DateOf o targetLon centerDate). cbv zeta.
  set (lo := norm360 targetLon).
  set (p := CallSearch lo _ 80 _). set (f := CallSearch lo _ 400 _).
  assert (W : forall c, In c [p; f] ->
              exists start limitDays answer,
                c = CallSearch lo start limitDays answer
                /\ (limitDays = 80 \/ limitDays = 400)
                /\ (finite targetLon = true -> between 0 360 lo)).
  { intros c [<- | [<- | []]]; eexists; eexists; eexists;
      (split; [reflexivity | split; [auto | apply norm360_between]]). }
  destruct (validAnswer truthy DateOf p) as [b |] eqn:P.
  - cbn [trace outcome fst snd List.length].
    split; [lia | split].
    + intros c Hc. apply W. cbn [In] in *. tauto.
    + left. exists b. split; [reflexivity |].
      apply getTime_DateAt. now apply (validAnswer_in_range truthy DateOf p).
  - destruct (threw p) eqn:T1; cbn [trace outcome fst snd List.length].
    { split; [lia | split].
      - intros c Hc. apply W. cbn [In] in *. tauto.
      - right. right. split; [reflexivity |]. now exists [], p. }
    split; [lia | split; [exact W |]].
    destruct (validAnswer truthy DateOf f) as [b |] eqn:F.
    + left. exists b. split; [reflexivity |].
      apply getTime_DateAt. now apply (validAnswer_in_range truthy DateOf f).
    + destruct (threw f) eqn:T2.
      * right. right. split; [reflexivity |]. now exists [p], f.
      * right. now left.
Qed.

End ResolutionFacts.

(* ------------------------------------------------------------------ *)
(** ** The further facts on the concrete oracles *)

(** With a longitude read that carries no number the resolution throws
    after the read, on the table lookup. *)
Lemma boundary_error_after_both_windows_witness :
  let R := getSolarTermInfo Examples.numberTruthy Examples.numberToDate
             Examples.blindOracle (DateAt 1500) (InputDate (DateAt 0)) in
  outcome R = inl TypeError
  /\ exists date answer, trace R = [CallSunPosition date (Some answer)].
Proof.
  cbv zeta.
  destruct (boundary_error_after_both_windows Examples.numberTruthy
              Examples.numberToDate Examples.blindOracle (DateAt 1500)
              (InputDate (DateAt 0))) as (_ & One & Blind & _).
  destruct (Blind _ _ 0 eq_refl eq_refl) as [B _].
  assert (E : outcome (getSolarTermInfo Examples.numberTruthy Examples.numberToDate
                         Examples.blindOracle (DateAt 1500) (InputDate (DateAt 0)))
              = inl TypeError)
    by (apply B; right; left; reflexivity).
  split; [exact E | exact (One E)].
Defined.

Lemma oracle_questions_witness :
  In (CallSearch (Fin 0)
        (DateAt (Spring2024.tenSecondsBefore - 40 * MS_PER_DAY)) 80
        (Some (AstroTime (DateAt Spring2024.chunfen))))
     (trace (Spring2024.resolve Spring2024.tenSecondsBefore))
  /\ exists i, 0 <= i <= 23 /\ lonOf i = Fin 0.
Proof.
  assert (H : In (CallSearch (Fin 0)
                    (DateAt (Spring2024.tenSecondsBefore - 40 * MS_PER_DAY))
                    80 (Some (AstroTime (DateAt Spring2024.chunfen))))
                 (trace (Spring2024.resolve Spring2024.tenSecondsBefore)))
    by (vm_compute; right; left; reflexivity).
  split; [exact H |].
  destruct (oracle_questions Examples.numberTruthy Examples.numberToDate _ _ _ _ H)
    as (sp & ssl & t & _ & _ & [E | (i & start & limitDays & Hi & E & _)]).
  - discriminate.
  - exists i. split; [exact Hi |]. injection E as E1 _ _ _. symmetry. exact E1.
Defined.

Lemma answers_matter_by_instant_witness :
  outcome (getSolarTermInfo Examples.numberTruthy Examples.numberToDate
             (AstronomyObject (Some Spring2024.sunPosition)
                (Some Spring2024.searchSunLongitude))
             Spring2024.clock (InputDate (DateAt Spring2024.tenSecondsBefore)))
  = outcome (getSolarTermInfo Examples.numberTruthy Examples.numberToDate
               (AstronomyObject (Some Spring2024.sunPosition)
                  (Some Spring2024Numbers.searchAsNumber))
               Spring2024.clock (InputDate (DateAt Spring2024.tenSecondsBefore))).
Proof.
  apply (answers_matter_by_instant Examples.numberTruthy Examples.numberToDate).
  intros l s d. unfold Spring2024Numbers.searchAsNumber, Spring2024.searchSunLongitude,
    Spring2024.crossing, Spring2024.inWindow. cbn [option_map]. f_equal.
  repeat match goal with
         | |- context [if ?c then _ else _] => destruct c
         | |- context [match getTime ?x with _ => _ end] => destruct (getTime x)
         end; reflexivity.
Defined.

Lemma primary_answers_suffice_witness :
  exists r,
    outcome (getSolarTermInfo Examples.numberTruthy Examples.numberToDate
               (AstronomyObject (Some Spring2024.sunPosition)
                  (Some Spring2024.searchSunLongitude))
               Spring2024.clock (InputDate (DateAt Spring2024.tenSecondsBefore)))
    = inr r.
Proof.
  pose proof (primary_answers_suffice Examples.numberTruthy Examples.numberToDate
                Spring2024.sunPosition Spring2024.searchSunLongitude
                Spring2024.clock
                (InputDate (DateAt Spring2024.tenSecondsBefore))
                Spring2024.tenSecondsBefore eq_refl) as H.
  cbv zeta in H.
  assert (F : firstIdx (mkOracle Spring2024.sunPosition Spring2024.searchSunLongitude)
                Spring2024.tenSecondsBefore = Some 3) by (vm_compute; reflexivity).
  rewrite F in H. apply H.
  intros i Hi. vm_compute in Hi.
  destruct Hi as [<- | [<- | [<- | []]]]; vm_compute; discriminate.
Defined.

Lemma result_terms_consecutive_witness :
  exists r idx,
    outcome (Spring2024.resolve Spring2024.tenSecondsBefore) = inr r
    /\ 0 <= idx <= 23
    /\ termAt (indexNumber idx)
       = Some (mkTerm (Current.name (current r)) (Current.lon (current r)))
    /\ termAt (indexNumber (nextIdx idx))
       = Some (mkTerm (Adjacent.name (next r)) (Adjacent.lon (next r))).
Proof.
  assert (H : {r | outcome (Spring2024.resolve Spring2024.tenSecondsBefore) = inr r})
    by (eexists; vm_compute; reflexivity).
  destruct H as [r H].
  destruct (result_terms_consecutive Examples.numberTruthy Examples.numberToDate
              _ _ _ _ H) as (idx & Hi & C & _ & N & _).
  exists r, idx. split; [exact H | split; [exact Hi | split; [exact C | exact N]]].
Defined.

Lemma sun_longitude_near_current_term_witness :
  exists r,
    outcome (Spring2024.resolve Spring2024.tenSecondsBefore) = inr r
    /\ between 0 360 (Meta.sunEclipticLongitude (meta r)).
Proof.
  assert (H : {r | outcome (Spring2024.resolve Spring2024.tenSecondsBefore) = inr r})
    by (eexists; vm_compute; reflexivity).
  destruct H as [r H].
  destruct (sun_longitude_near_current_term Examples.numberTruthy
              Examples.numberToDate _ _ _ _ H) as (A & _).
  exists r. split; [exact H | exact A].
Defined.

(** At the first time value the window of the first boundary search
    starts at an Invalid Date; the search function that throws on it ends
    the resolution after two oracle calls. *)
Lemma oracle_exception_propagates_witness :
  let R := getSolarTermInfo Examples.numberTruthy Examples.numberToDate
             (AstronomyObject (Some Spring2024.sunPosition)
                              (Some Spring2024.strictSearch))
             Spring2024.clock (InputDate (DateAt firstInstant)) in
  In (CallSearch (Fin 0) InvalidDate 80 None) (trace R)
  /\ outcome R = inl OracleError
  /\ exists pre, trace R = pre ++ [CallSearch (Fin 0) InvalidDate 80 None].
Proof.
  cbv zeta.
  assert (H : In (CallSearch (Fin 0) InvalidDate 80 None)
                (trace (getSolarTermInfo Examples.numberTruthy Examples.numberToDate
                          (AstronomyObject (Some Spring2024.sunPosition)
                                           (Some Spring2024.strictSearch))
                          Spring2024.clock (InputDate (DateAt firstInstant)))))
    by (vm_compute; right; left; reflexivity).
  split; [exact H |].
  exact (proj1 (oracle_exception_propagates Examples.numberTruthy
                  Examples.numberToDate _ _ _) _ H eq_refl).
Defined.
